(** * Segmentation and reassembly engine: a shallow embedding

The Python scripts under [scripts/] split a long recording into
overlapping chunks, and put processed chunks and per-chunk transcripts
back together.  This development embeds the planning loops, the
trim-and-fade audio stitcher, the speaker lookup, the word regrouping
and the text-overlap detection as Rocq functions, and states the
properties of the specification over them, followed by further
properties of the same code: the silence boundaries, the outcomes of the
planners, the round trip from the plan through the chunk files to the
stitched audio, the normal form of cleaned texts and the shape of the
stitched transcript.

Conventions.
- Sample indices, durations (the constructors take [int] seconds) and
  sample rates are [Z].
- Time stamps of diarization segments and words, and the duration and
  the chunk times of the time-based planner, are floats in the source;
  they are modelled by the rationals [Q] they denote.  Comparisons,
  [abs] and [min] of floats are exact.  The subtraction of the edge
  distance and the sum and the division of the word midpoint are
  rounded: the speaker lookup takes the rounding as a parameter, and
  [PyFloat.binary64] is the rounding of Python's floats.
- A Python [while] loop is a [Fixpoint] on a fuel argument with an
  explicit [OutOfFuel] outcome; the entry points pass enough fuel and
  this is proved, not assumed.
- Exceptions are the [Raised] outcome. *)

From Stdlib Require Import ZArith QArith Qabs Qminmax Qround Lia Lqa List Sorted Ascii String.
From stdpp Require Import base list gmap strings.

Local Open Scope Z_scope.

(** ** Outcomes of fallible code *)

Inductive error : Type :=
  | TooManyChunks          (* Exception("Too many chunks generated - possible infinite loop") *)
  | NoChunkFiles           (* ValueError("No chunk files provided") *)
  | NoValidAudioData       (* Exception("No valid audio data to stitch") *)
  | VStackShapeMismatch    (* ValueError raised by np.vstack *)
  | FileNotFound           (* FileNotFoundError raised by the file layer *)
  | SameFile               (* shutil.SameFileError *)
  | NoTranscriptChunks     (* Exception("No transcript chunks provided") *)
  | BroadcastError         (* ValueError: operands could not be broadcast together *)
  | IndexError             (* IndexError: list index out of range *)
  | ExternalFailure.       (* subprocess.CalledProcessError *)

Inductive outcome (A : Type) : Type :=
  | Done (a : A)
  | Raised (e : error)
  | OutOfFuel.
Arguments Done {A} a.
Arguments Raised {A} e.
Arguments OutOfFuel {A}.

(** ** Python sequence primitives *)

Module Py.

(** Index normalisation of a slice bound: negative bounds count from the
    end, and every bound is clamped into [0, len]. *)
Definition norm (len i : Z) : Z :=
  if i <? 0 then Z.max (i + len) 0 else Z.min i len.

(** [l[a:b]] *)
Definition slice {A} (l : list A) (a b : Z) : list A :=
  let len := Z.of_nat (length l) in
  let a' := norm len a in
  let b' := norm len b in
  take (Z.to_nat (b' - a')) (drop (Z.to_nat a') l).

(** [l[a:]] *)
Definition slice_from {A} (l : list A) (a : Z) : list A :=
  drop (Z.to_nat (norm (Z.of_nat (length l)) a)) l.

(** [l[:b]] *)
Definition slice_to {A} (l : list A) (b : Z) : list A :=
  take (Z.to_nat (norm (Z.of_nat (length l)) b)) l.

(** [min(x :: rest, key=key)]: the first element whose key is minimal;
    [ltb] is the strict order of the keys. *)
Definition min_by {A K} (ltb : K -> K -> bool) (key : A -> K) (x : A) (rest : list A) : A :=
  fold_left (fun best y => if ltb (key y) (key best) then y else best) rest x.

(** [<] and [<=] on the rationals that stand for floats. *)
Definition Qltb (x y : Q) : bool := negb (Qle_bool y x).
Definition Qleb (x y : Q) : bool := Qle_bool x y.

(** [int(x * 7.5)] for an integer [x]: truncation toward zero of 15x/2. *)
Definition int_times_7_5 (x : Z) : Z := Z.quot (15 * x) 2.

End Py.

(** ** The chunk planners *)

Module Planner.

(** The fields of a [chunk_info] dictionary that are integers.  The
    sample-accurate planner does not store [actual_split_sample]; for it
    the field holds the no-overlap boundary [start_sample + chunk_samples]
    that the loop adds to [start_sample].  The float fields [start_time],
    [end_time] and [duration], quotients of sample counts by the sample
    rate, are left out; the sample rate is what the sound-file layer
    returns, a positive number. *)
Record chunk_info : Type := mk_chunk {
  index : Z;
  start_sample : Z;
  end_sample : Z;
  actual_split_sample : Z;
  sample_rate : Z;
  channels : Z
}.

(** [SmartAudioChunker.find_optimal_split_point] (and the identical
    [TranscriptAudioChunker.find_optimal_transcript_split_point]). *)
Definition find_optimal_split_point (max_deviation target_sample : Z)
    (silence_boundaries : list Z) (sample_rate : Z) : Z :=
  let max_deviation_samples := max_deviation * sample_rate in
  let valid_boundaries :=
    List.filter (fun boundary => Z.abs (boundary - target_sample) <=? max_deviation_samples)
                silence_boundaries in
  match valid_boundaries with
  | [] => target_sample
  | b :: bs => Py.min_by Z.ltb (fun x => Z.abs (x - target_sample)) b bs
  end.

Section SilenceLoop.
(** The configuration of the chunker object, the loaded audio and the
    candidate boundaries; [cap] is the constant of the safety check. *)
Variables (cap : Z).
Variables (target_chunk_duration overlap_duration max_deviation : Z).
Variables (total_samples sample_rate n_channels : Z).
Variable (silence_boundaries : list Z).

(** [target_end_sample]: the arithmetic target of a pass. *)
Definition target_end (current_start : Z) : Z :=
  current_start + target_chunk_duration * sample_rate.

(** [actual_end_sample]: the end of the file for the last chunk, and the
    split point that the silence search selects otherwise. *)
Definition actual_end (current_start : Z) : Z :=
  let target_end_sample := target_end current_start in
  if target_end_sample >=? total_samples then total_samples
  else find_optimal_split_point max_deviation target_end_sample
         silence_boundaries sample_rate.

(** [chunk_end_sample]: the overlap is added to every chunk whose split
    point lies before the end of the file. *)
Definition chunk_end (actual_end_sample : Z) : Z :=
  if actual_end_sample <? total_samples
  then Z.min (actual_end_sample + overlap_duration * sample_rate) total_samples
  else actual_end_sample.

(** One pass through the body of the [while] loop: the dictionary that
    is appended. *)
Definition make_chunk (current_start chunk_index : Z) : chunk_info :=
  let actual_end_sample := actual_end current_start in
  mk_chunk chunk_index current_start (chunk_end actual_end_sample)
           actual_end_sample sample_rate n_channels.

(** The [while current_start < total_samples] loop with its safety check;
    [chunks] is the list built so far. *)
Fixpoint silence_loop (fuel : nat) (current_start chunk_index : Z)
    (chunks : list chunk_info) : outcome (list chunk_info) :=
  match fuel with
  | O => OutOfFuel
  | S fuel' =>
      if current_start <? total_samples then
        let chunk := make_chunk current_start chunk_index in
        let chunks := chunks ++ [chunk] in
        let current_start := actual_split_sample chunk in
        let chunk_index := chunk_index + 1 in
        if chunk_index >? cap then Raised TooManyChunks
        else silence_loop fuel' current_start chunk_index chunks
      else Done chunks
  end.

(** The loop from sample 0, with the fuel that [cap + 1] passes need. *)
Definition run_silence_loop : outcome (list chunk_info) :=
  silence_loop (Z.to_nat cap + 2) 0 0 [].

(** The start of the [k]-th pass when nothing stops the loop. *)
Definition nth_start (k : nat) : Z := Nat.iter k actual_end 0.

(** The chunks of [n] passes that begin at [s] with index [i]. *)
Fixpoint chunks_from (s i : Z) (n : nat) : list chunk_info :=
  match n with
  | O => []
  | S n' => make_chunk s i :: chunks_from (actual_end s) (i + 1) n'
  end.
End SilenceLoop.

(** [SmartAudioChunker.split_audio_at_silence_boundaries], after the audio
    is loaded and the silence boundaries are found. *)
Definition split_audio_at_silence_boundaries
    (target_chunk_duration overlap_duration max_deviation : Z)
    (total_samples sample_rate n_channels : Z) (silence_boundaries : list Z)
    : outcome (list chunk_info) :=
  run_silence_loop 1000 target_chunk_duration overlap_duration max_deviation
    total_samples sample_rate n_channels silence_boundaries.

(** [TranscriptAudioChunker.split_audio_for_transcription]: the same loop
    with the safety check at 100. *)
Definition split_audio_for_transcription
    (target_chunk_duration overlap_duration max_deviation : Z)
    (total_samples sample_rate n_channels : Z) (silence_boundaries : list Z)
    : outcome (list chunk_info) :=
  run_silence_loop 100 target_chunk_duration overlap_duration max_deviation
    total_samples sample_rate n_channels silence_boundaries.

Section PerfectOverlap.
(** The configuration of the sample-accurate chunker and the loaded
    audio. *)
Variables (chunk_duration overlap_duration : Z).
Variables (total_samples sample_rate n_channels : Z).

(** [int(self.chunk_duration * sample_rate)] and
    [int(self.overlap_duration * sample_rate)] *)
Definition chunk_samples : Z := chunk_duration * sample_rate.
Definition overlap_samples : Z := overlap_duration * sample_rate.

(** [end_sample] of the chunk that starts at [start_sample]. *)
Definition perfect_end (start_sample : Z) : Z :=
  if start_sample + chunk_samples <? total_samples
  then Z.min (start_sample + chunk_samples + overlap_samples) total_samples
  else total_samples.

(** The dictionary appended by one pass. *)
Definition perfect_chunk (start_sample chunk_index : Z) : chunk_info :=
  mk_chunk chunk_index start_sample (perfect_end start_sample)
           (start_sample + chunk_samples) sample_rate n_channels.

(** The [while start_sample < total_samples] loop with its safety check. *)
Fixpoint perfect_loop (fuel : nat) (start_sample chunk_index : Z)
    (chunks : list chunk_info) : outcome (list chunk_info) :=
  match fuel with
  | O => OutOfFuel
  | S fuel' =>
      if start_sample <? total_samples then
        let chunks := chunks ++ [perfect_chunk start_sample chunk_index] in
        let start_sample := start_sample + chunk_samples in
        let chunk_index := chunk_index + 1 in
        if chunk_index >? 1000 then Raised TooManyChunks
        else perfect_loop fuel' start_sample chunk_index chunks
      else Done chunks
  end.

(** The chunks of [n] passes that begin at [s] with index [i]. *)
Fixpoint perfect_chunks_from (s i : Z) (n : nat) : list chunk_info :=
  match n with
  | O => []
  | S n' => perfect_chunk s i :: perfect_chunks_from (s + chunk_samples) (i + 1) n'
  end.

End PerfectOverlap.

(** The audio written for a chunk: [audio_data[start:end]]. *)
Definition chunk_data {A} (audio_data : list A) (c : chunk_info) : list A :=
  Py.slice audio_data (start_sample c) (end_sample c).

(** Two arrays can be compared element by element when their lengths are
    equal or one of them is 1 (broadcasting). *)
Definition broadcastable (m k : nat) : bool :=
  ((m =? k) || (m =? 1) || (k =? 1))%nat.

Section VerifyOverlaps.
Context {A : Type}.
Variable (audio_data : list A).
Variable (overlap_samples : Z).

(** [audio_a[-overlap_samples:]] and [audio_b[:overlap_samples]] of
    [_verify_overlaps], read back from the chunk files. *)
Definition overlap_a (chunk_a : chunk_info) : list A :=
  Py.slice_from (chunk_data audio_data chunk_a) (- overlap_samples).
Definition overlap_b (chunk_b : chunk_info) : list A :=
  Py.slice_to (chunk_data audio_data chunk_b) overlap_samples.

(** [SampleAccurateAudioChunker._verify_overlaps]: [np.allclose] raises
    when the two regions of a pair cannot be broadcast; a difference of the
    values is only logged.  The result tells that no pair raises. *)
Fixpoint _verify_overlaps (chunks : list chunk_info) : bool :=
  match chunks with
  | chunk_a :: ((chunk_b :: _) as rest) =>
      broadcastable (length (overlap_a chunk_a)) (length (overlap_b chunk_b))
      && _verify_overlaps rest
  | _ => true
  end.
End VerifyOverlaps.

(** [SampleAccurateAudioChunker.split_audio_with_perfect_overlap], after
    the audio is loaded: the loop, and the check of the overlaps when there
    is more than one chunk. *)
Definition split_audio_with_perfect_overlap {A} (audio_data : list A)
    (chunk_duration overlap_duration sample_rate n_channels : Z)
    : outcome (list chunk_info) :=
  let total_samples := Z.of_nat (length audio_data) in
  match perfect_loop chunk_duration overlap_duration total_samples sample_rate
          n_channels 1002 0 0 [] with
  | Done chunks =>
      if (1 <? length chunks)%nat
      then if _verify_overlaps audio_data (overlap_samples overlap_duration sample_rate) chunks
           then Done chunks
           else Raised BroadcastError
      else Done chunks
  | Raised e => Raised e
  | OutOfFuel => OutOfFuel
  end.

(** The samples a chunk owns: its span up to the split point. *)
Definition own_span {A} (audio_data : list A) (total_samples : Z) (c : chunk_info) : list A :=
  Py.slice audio_data (start_sample c) (Z.min (actual_split_sample c) total_samples).

(** The shape of a finished plan from the start [s] on: every chunk begins
    where the one before was split, is split after its start, and ends
    [overlap_samples] after its split point or, clamped, at the end of the
    audio; the last one is split at or after the end of the audio. *)
Inductive chain (total_samples overlap_samples : Z) : Z -> list chunk_info -> Prop :=
  | chain_end s :
      total_samples <= s -> chain total_samples overlap_samples s []
  | chain_next s c rest :
      start_sample c = s ->
      s < total_samples ->
      s < actual_split_sample c ->
      end_sample c =
        (if actual_split_sample c <? total_samples
         then Z.min (actual_split_sample c + overlap_samples) total_samples
         else total_samples) ->
      chain total_samples overlap_samples (actual_split_sample c) rest ->
      chain total_samples overlap_samples s (c :: rest).

(** The last [n] and the first [n] elements of a list. *)
Definition trailing {A} (n : Z) (l : list A) : list A :=
  drop (length l - Z.to_nat n)%nat l.
Definition leading {A} (n : Z) (l : list A) : list A :=
  take (Z.to_nat n) l.

End Planner.

(** ** The audio stitchers *)

Module Stitcher.

Section Audio.
(** A sample and [sample *= factor]; the factor is a point of the fade
    curve. *)
Variable sample : Type.
Variable scale : Q -> sample -> sample.

(** A two-dimensional array as [sf.read(..., always_2d=True)] returns it:
    [shape = (length rows, ncols)], every row holding [ncols] samples. *)
Record ndarray : Type := mk_array { rows : list (list sample); ncols : Z }.

(** What the sound-file layer reads and writes: the data and the rate, a
    positive number. *)
Record wav : Type := mk_wav { wav_data : ndarray; wav_rate : Z }.

Definition shape0 (a : ndarray) : Z := Z.of_nat (length (rows a)).

(** [np.linspace(0, 1, n)[j]] *)
Definition linspace01 (n j : Z) : Q :=
  if n =? 1 then 0%Q else (inject_Z j / inject_Z (n - 1))%Q.

Definition fade_ms : Z := 50.

(** [min(int(fade_ms / 1000 * sr), trimmed_data.shape[0])]; the float
    product is truncated toward zero. *)
Definition fade_samples (trimmed_data : ndarray) (sr : Z) : Z :=
  Z.min (Z.quot (fade_ms * sr) 1000) (shape0 trimmed_data).

(** The fade-in: row [j] of the first [fade_samples] rows is multiplied, in
    every channel, by the [j]-th point of the curve. *)
Definition fade_in (trimmed_data : ndarray) (sr : Z) : ndarray :=
  let n := fade_samples trimmed_data sr in
  if n >? 0 then
    mk_array
      (imap (fun j row => if Z.of_nat j <? n
                          then List.map (scale (linspace01 n (Z.of_nat j))) row
                          else row)
            (rows trimmed_data))
      (ncols trimmed_data)
  else trimmed_data.

(** The branch of the loop for a chunk after the first: [None] when the
    chunk is not longer than the overlap and is skipped. *)
Definition trim_and_fade (overlap_duration : Z) (data : ndarray) (sr : Z) : option ndarray :=
  let overlap_samples := overlap_duration * sr in
  if shape0 data >? overlap_samples then
    let trimmed_data := mk_array (Py.slice_from (rows data) overlap_samples) (ncols data) in
    Some (fade_in trimmed_data sr)
  else None.

(** The [for i, chunk_file in enumerate(chunk_files)] loop.  A sample-rate
    mismatch is only logged. *)
Fixpoint collect (fs : gmap string wav) (overlap_duration : Z) (i : nat)
    (chunk_files : list string) (stitched_data : list ndarray)
    (sample_rate : option Z) : outcome (list ndarray * option Z) :=
  match chunk_files with
  | [] => Done (stitched_data, sample_rate)
  | chunk_file :: rest =>
      match fs !! chunk_file with
      | None => Raised FileNotFound
      | Some w =>
          let data := wav_data w in
          let sr := wav_rate w in
          let sample_rate :=
            match sample_rate with None => Some sr | Some r => Some r end in
          let stitched_data :=
            match i with
            | O => stitched_data ++ [data]
            | S _ =>
                match trim_and_fade overlap_duration data sr with
                | Some trimmed_data => stitched_data ++ [trimmed_data]
                | None => stitched_data
                end
            end in
          collect fs overlap_duration (S i) rest stitched_data sample_rate
      end
  end.

(** [np.vstack]: all arrays must agree on the second dimension. *)
Definition vstack (arrays : list ndarray) : outcome ndarray :=
  match arrays with
  | [] => Raised VStackShapeMismatch
  | a :: rest =>
      if forallb (fun b => ncols b =? ncols a) rest
      then Done (mk_array (concat (List.map rows arrays)) (ncols a))
      else Raised VStackShapeMismatch
  end.

(** [AudioStitcher._stitch_ml_chunks_no_crossfade] *)
Definition _stitch_ml_chunks_no_crossfade (overlap_duration : Z)
    (fs : gmap string wav) (chunk_files : list string) (output_file : string)
    : outcome (gmap string wav) :=
  match collect fs overlap_duration 0 chunk_files [] None with
  | Done (stitched_data, sample_rate) =>
      match stitched_data with
      | [] => Raised NoValidAudioData
      | _ =>
          match vstack stitched_data, sample_rate with
          | Done final_audio, Some r => Done (<[output_file := mk_wav final_audio r]> fs)
          | Done _, None => Raised NoValidAudioData
          | Raised e, _ => Raised e
          | OutOfFuel, _ => OutOfFuel
          end
      end
  | Raised e => Raised e
  | OutOfFuel => OutOfFuel
  end.

(** [shutil.copy2]: a source that does not exist is not the same file as
    anything, and opening it raises; a source that exists is refused when
    the destination is the same path. *)
Definition copy2 (fs : gmap string wav) (src dst : string) : outcome (gmap string wav) :=
  match fs !! src with
  | None => Raised FileNotFound
  | Some w => if String.eqb src dst then Raised SameFile else Done (<[dst := w]> fs)
  end.

(** [AudioStitcher.stitch_chunks_with_crossfade] *)
Definition stitch_chunks_with_crossfade (overlap_duration : Z)
    (fs : gmap string wav) (chunk_files : list string) (output_file : string)
    : outcome (gmap string wav) :=
  match chunk_files with
  | [] => Raised NoChunkFiles
  | [chunk_file] => copy2 fs chunk_file output_file
  | _ => _stitch_ml_chunks_no_crossfade overlap_duration fs chunk_files output_file
  end.

(** The ffmpeg run of the crossfade stitcher: an external process, given
    the inputs, the overlap of the [acrossfade] filters and the output. *)
Variable ffmpeg_acrossfade :
  gmap string wav -> list string -> Z -> string -> outcome (gmap string wav).

(** [AudioChunker.stitch_chunks_with_crossfade]; with no input the filter
    builder indexes an empty list. *)
Definition chunker_stitch_chunks_with_crossfade (overlap_duration : Z)
    (fs : gmap string wav) (chunk_files : list string) (output_file : string)
    : outcome (gmap string wav) :=
  match chunk_files with
  | [chunk_file] => copy2 fs chunk_file output_file
  | [] => Raised IndexError
  | _ => ffmpeg_acrossfade fs chunk_files overlap_duration output_file
  end.

(** The rows a chunk after the first contributes to the output. *)
Definition kept_rows (overlap_duration : Z) (w : wav) : list (list sample) :=
  match trim_and_fade overlap_duration (wav_data w) (wav_rate w) with
  | Some a => rows a
  | None => []
  end.

(** The arrays the loop appends for the chunks [ws], the first of which has
    the index [i]. *)
Fixpoint pieces (overlap_duration : Z) (i : nat) (ws : list wav) : list ndarray :=
  match ws with
  | [] => []
  | w :: rest =>
      match i with
      | O => [wav_data w]
      | S _ =>
          match trim_and_fade overlap_duration (wav_data w) (wav_rate w) with
          | Some trimmed_data => [trimmed_data]
          | None => []
          end
      end ++ pieces overlap_duration (S i) rest
  end.

End Audio.

Arguments mk_array {sample} rows ncols.
Arguments rows {sample} n.
Arguments ncols {sample} n.
Arguments mk_wav {sample} wav_data wav_rate.
Arguments wav_data {sample} w.
Arguments wav_rate {sample} w.
Arguments shape0 {sample} a.
Arguments vstack {sample} arrays.
Arguments copy2 {sample} fs src dst.
Arguments fade_samples {sample} trimmed_data sr.

End Stitcher.

(** ** Float arithmetic *)

Module PyFloat.

(** [floor(log2 a)] of a positive rational. *)
Definition exponent (a : Q) : Z :=
  let e0 := Z.log2 (Qnum a) - Z.log2 (Zpos (Qden a)) in
  if Qle_bool (Qpower 2 e0) a then e0 else e0 - 1.

(** The nearest integer, the even one of two that are equally near. *)
Definition round_half_even (x : Q) : Z :=
  let f := Qfloor x in
  match Qcompare (x - inject_Z f) (1 # 2) with
  | Lt => f
  | Gt => f + 1
  | Eq => if Z.even f then f else f + 1
  end.

(** The double that a float operation returns for the exact result [x]:
    the nearest number [m * 2^e] with [m < 2^53] and [e >= -1074], ties to
    the even [m] (IEEE 754 binary64, the [float] of Python).  Results
    beyond the largest double, which the operation turns into an
    infinity, are not covered. *)
Definition binary64 (x : Q) : Q :=
  if Qeq_bool x 0 then 0%Q
  else
    let a := Qabs x in
    let e := Z.max (exponent a - 52) (-1074) in
    let m := round_half_even (a / Qpower 2 e) in
    let r := Qred (inject_Z m * Qpower 2 e) in
    if Qle_bool 0 x then r else (- r)%Q.

End PyFloat.

(** ** Speaker lookup and word regrouping (word-level path) *)

Module Diarization.

(** A diarization record; a field is [None] when the key is missing and
    the reader's [.get] default applies. *)
Record segment : Type := mk_segment {
  speaker : option string;
  start_time : option Q;
  end_time : option Q
}.

Definition UNKNOWN : string := "UNKNOWN"%string.

Definition get_speaker (s : segment) : string := default UNKNOWN (speaker s).
Definition get_start_time (s : segment) : Q := default 0%Q (start_time s).
Definition get_end_time (s : segment) : Q := default 0%Q (end_time s).

(** [start_time <= timestamp <= end_time] *)
Definition covers (timestamp : Q) (s : segment) : bool :=
  Py.Qleb (get_start_time s) timestamp && Py.Qleb timestamp (get_end_time s).

Section FloatLookup.
(** The rounding of the float arithmetic: [fl x] is the float that an
    operation returns when its exact result is [x].  For Python it is
    [PyFloat.binary64]; the statements about the lookup hold for every
    rounding. *)
Variable fl : Q -> Q.

(** The key of the closest-segment search: the distance to the nearer
    edge, [min(abs(t - start), abs(t - end))], each difference a float
    subtraction. *)
Definition edge_distance (timestamp : Q) (s : segment) : Q :=
  let a := Qabs (fl (timestamp - get_start_time s)) in
  let b := Qabs (fl (timestamp - get_end_time s)) in
  if Py.Qltb b a then b else a.

(** The [for] loop with its early [return]. *)
Fixpoint first_covering (segments : list segment) (timestamp : Q) : option segment :=
  match segments with
  | [] => None
  | s :: rest => if covers timestamp s then Some s else first_covering rest timestamp
  end.

(** [find_speaker_at_time] of both stitchers. *)
Definition find_speaker_at_time (full_diarization_segments : list segment)
    (timestamp : Q) : string :=
  match first_covering full_diarization_segments timestamp with
  | Some s => get_speaker s
  | None =>
      match full_diarization_segments with
      | s :: rest =>
          get_speaker (Py.min_by Py.Qltb (edge_distance timestamp) s rest)
      | [] => UNKNOWN
      end
  end.

End FloatLookup.

(** A word record of a transcription result. *)
Record word : Type := mk_word {
  w_word : option string;
  w_text : option string;
  w_start : option Q;
  w_end : option Q;
  w_speaker : option string
}.

(** [w.get('word', w.get('text', ''))] *)
Definition word_text (w : word) : string :=
  match w_word w with
  | Some t => t
  | None => default EmptyString (w_text w)
  end.
Definition word_start (w : word) : Q := default 0%Q (w_start w).
Definition word_end (w : word) : Q := default 0%Q (w_end w).
Definition word_speaker (w : word) : string := default UNKNOWN (w_speaker w).

Section FloatMidpoint.
(** The rounding of the float arithmetic, as above. *)
Variable fl : Q -> Q.

(** The loop of [map_chunk_to_full_diarization]: every word gets the
    speaker found at its midpoint [(word_start + word_end) / 2], a float
    addition followed by a float division. *)
Definition map_word (segments : list segment) (w : word) : word :=
  let word_midpoint := fl (fl (word_start w + word_end w) / 2)%Q in
  mk_word (w_word w) (w_text w) (w_start w) (w_end w)
          (Some (find_speaker_at_time fl segments word_midpoint)).

Definition mapped_words (segments : list segment) (words : list word) : list word :=
  List.map (map_word segments) words.

End FloatMidpoint.

(** A segment of the diarized transcript. *)
Record transcript_segment : Type := mk_transcript_segment {
  ts_speaker : string;
  ts_start_time : Q;
  ts_end_time : Q;
  ts_text : string;
  ts_words : list word
}.

Definition new_segment (w : word) : transcript_segment :=
  mk_transcript_segment (word_speaker w) (word_start w) (word_end w) (word_text w) [w].

Definition extend_segment (cur : transcript_segment) (w : word) : transcript_segment :=
  mk_transcript_segment (ts_speaker cur) (ts_start_time cur) (word_end w)
    (ts_text cur ++ " " ++ word_text w)%string (ts_words cur ++ [w]).

(** One pass of the loop of [create_diarized_transcript_from_words] over the
    pair ([segments], [current_segment]). *)
Definition regroup_step (st : list transcript_segment * option transcript_segment)
    (w : word) : list transcript_segment * option transcript_segment :=
  let '(segments, current_segment) := st in
  match current_segment with
  | None => (segments, Some (new_segment w))
  | Some cur =>
      if String.eqb (ts_speaker cur) (word_speaker w)
      then (segments, Some (extend_segment cur w))
      else (segments ++ [cur], Some (new_segment w))
  end.

Definition close_segments (st : list transcript_segment * option transcript_segment)
    : list transcript_segment :=
  match snd st with
  | Some cur => fst st ++ [cur]
  | None => fst st
  end.

(** [create_diarized_transcript_from_words] of the enhanced stitcher. *)
Definition create_diarized_transcript_from_words (words : list word)
    : list transcript_segment :=
  match words with
  | [] => []
  | _ => close_segments (fold_left regroup_step words ([], None))
  end.

(** The segments the loop still produces when [cur] is the current segment
    and the words [ws] are left. *)
Fixpoint runs (cur : transcript_segment) (ws : list word) : list transcript_segment :=
  match ws with
  | [] => [cur]
  | w :: rest =>
      if String.eqb (ts_speaker cur) (word_speaker w)
      then runs (extend_segment cur w) rest
      else cur :: runs (new_segment w) rest
  end.

(** Words in the order of their start times. *)
Definition chronological (ws : list word) : Prop :=
  StronglySorted (fun w w' => (word_start w <= word_start w')%Q) ws.

(** Segments in the order of their start times. *)
Definition segments_chronological (segs : list transcript_segment) : Prop :=
  StronglySorted (fun s s' => (ts_start_time s <= ts_start_time s')%Q) segs.

(** [list.sort(key=lambda w: w.get('start', 0))]: a stable sort. *)
Fixpoint insert_by_start (w : word) (l : list word) : list word :=
  match l with
  | [] => [w]
  | y :: rest =>
      if Py.Qleb (word_start w) (word_start y)
      then w :: y :: rest
      else y :: insert_by_start w rest
  end.

Definition sort_by_start (l : list word) : list word :=
  foldr insert_by_start [] l.

(** [word_start < segment_end and word_end > segment_start] *)
Definition overlaps (s : segment) (w : word) : bool :=
  Py.Qltb (word_start w) (get_end_time s) && Py.Qltb (get_start_time s) (word_end w).

Fixpoint join_space (l : list string) : string :=
  match l with
  | [] => EmptyString
  | [x] => x
  | x :: rest => (x ++ " " ++ join_space rest)%string
  end.

(** The body of the loop over the diarization segments. *)
Definition mapped_segment (words : list word) (s : segment) : list transcript_segment :=
  match List.filter (overlaps s) words with
  | [] => []
  | x :: xs =>
      let segment_words := sort_by_start (x :: xs) in
      [mk_transcript_segment (get_speaker s) (get_start_time s) (get_end_time s)
         (join_space (List.map word_text segment_words)) segment_words]
  end.

(** [map_words_to_diarization_segments] *)
Definition map_words_to_diarization_segments (words : list word)
    (diarization_segments : list segment) : list transcript_segment :=
  match words, diarization_segments with
  | [], _ => []
  | _, [] => []
  | _, _ =>
      let words := sort_by_start words in
      concat (List.map (mapped_segment words) diarization_segments)
  end.

(** The words held by a list of output segments. *)
Definition total_words (segs : list transcript_segment) : nat :=
  length (concat (List.map ts_words segs)).

End Diarization.

(** ** Text-only stitching *)

Module TextPath.

(** A text is the list of its characters. *)
Definition text : Type := list ascii.

(** [str.isspace] and the regular expression class [\s], on the code
    points below 256. *)
Definition is_space (c : ascii) : bool :=
  let n := nat_of_ascii c in
  ((9 <=? n) && (n <=? 13) || (28 <=? n) && (n <=? 32) || (n =? 133) || (n =? 160))%nat.

(** The class [[.!?]] *)
Definition is_terminal (c : ascii) : bool :=
  Ascii.eqb c "."%char || Ascii.eqb c "!"%char || Ascii.eqb c "?"%char.

Fixpoint lstrip (s : text) : text :=
  match s with
  | [] => []
  | c :: rest => if is_space c then lstrip rest else s
  end.

Definition rstrip (s : text) : text := rev (lstrip (rev s)).

(** [s.strip()] *)
Definition strip (s : text) : text := rstrip (lstrip s).

(** [re.sub(r'\s+', ' ', s)]; [in_run] tells that the previous character
    was white space. *)
Fixpoint collapse_spaces (in_run : bool) (s : text) : text :=
  match s with
  | [] => []
  | c :: rest =>
      if is_space c
      then if in_run then collapse_spaces true rest
           else " "%char :: collapse_spaces true rest
      else c :: collapse_spaces false rest
  end.

(** [re.sub(r'([.!?])\s*', r'\1 ', s)]; [skipping] tells that the scan is
    inside the white space that follows a terminal character. *)
Fixpoint space_after_terminal (skipping : bool) (s : text) : text :=
  match s with
  | [] => []
  | c :: rest =>
      if is_terminal c then c :: " "%char :: space_after_terminal true rest
      else if skipping && is_space c then space_after_terminal true rest
      else c :: space_after_terminal false rest
  end.

(** [clean_transcript_text] *)
Definition clean_transcript_text (t : text) : text :=
  match t with
  | [] => []
  | _ => strip (space_after_terminal false (collapse_spaces false (strip t)))
  end.

(** [re.split(r'[.!?]+', s)]: [cur] is the piece being read, [in_sep] tells
    that the previous character belonged to a separator. *)
Fixpoint re_split_terminal (cur : text) (in_sep : bool) (s : text) : list text :=
  match s with
  | [] => [cur]
  | c :: rest =>
      if is_terminal c
      then if in_sep then re_split_terminal [] true rest
           else cur :: re_split_terminal [] true rest
      else re_split_terminal (cur ++ [c]) false rest
  end.

Definition nonempty (s : text) : bool :=
  match s with [] => false | _ => true end.

(** The stripped, non-empty sentences of a text. *)
Definition sentences (t : text) : list text :=
  List.filter nonempty (List.map strip (re_split_terminal [] false t)).

(** [' '.join(l)] *)
Fixpoint join_space (l : list text) : text :=
  match l with
  | [] => []
  | [x] => x
  | x :: rest => x ++ " "%char :: join_space rest
  end.

Fixpoint starts_with (sub s : text) : bool :=
  match sub, s with
  | [], _ => true
  | _ :: _, [] => false
  | a :: sub', b :: s' => Ascii.eqb a b && starts_with sub' s'
  end.

(** The index of the first occurrence of [sub] in [s], counted from [i]. *)
Fixpoint find_from (sub s : text) (i : Z) : option Z :=
  if starts_with sub s then Some i
  else match s with
       | [] => None
       | _ :: rest => find_from sub rest (i + 1)
       end.

(** [s.find(sub)] *)
Definition find (s sub : text) : Z := default (-1) (find_from sub s 0).

(** [sub in s] *)
Definition contains (s sub : text) : bool :=
  match find_from sub s 0 with Some _ => true | None => false end.

(** The last three sentences, or the last two when there are fewer than
    three. *)
Definition search_sentences (chunk1_sentences : list text) : list text :=
  if (3 <=? length chunk1_sentences)%nat
  then Py.slice_from chunk1_sentences (-3)
  else Py.slice_from chunk1_sentences (-2).

(** The [for] loop over the search sentences, with its early [return]. *)
Fixpoint first_found (chunk2_start chunk2_text : text) (l : list text) : option Z :=
  match l with
  | [] => None
  | sentence :: rest =>
      if contains chunk2_start sentence
      then Some (find chunk2_text sentence + Z.of_nat (length sentence))
      else first_found chunk2_start chunk2_text rest
  end.

(** [min(int(estimated_overlap_chars), len(chunk2_text) // 4)] *)
Definition estimated_position (chunk2_text : text) (overlap_duration : Z) : Z :=
  Z.min (Py.int_times_7_5 overlap_duration) (Z.of_nat (length chunk2_text) / 4).

(** [detect_overlap_boundary] *)
Definition detect_overlap_boundary (chunk1_text chunk2_text : text)
    (overlap_duration : Z) : option Z :=
  let chunk1_sentences := sentences chunk1_text in
  if (length chunk1_sentences <? 2)%nat then None
  else
    let search_sentences := search_sentences chunk1_sentences in
    let search_text := strip (join_space search_sentences) in
    let chunk2_start := Py.slice_to chunk2_text (Z.of_nat (length search_text) + 100) in
    match first_found chunk2_start chunk2_text search_sentences with
    | Some overlap_end => Some overlap_end
    | None => Some (estimated_position chunk2_text overlap_duration)
    end.

(** The text kept of a chunk after the first. *)
Definition chunk_text_trimmed (overlap_duration : Z) (previous_text chunk_text : text) : text :=
  match detect_overlap_boundary previous_text chunk_text overlap_duration with
  | Some overlap_end => strip (Py.slice_from chunk_text overlap_end)
  | None => chunk_text
  end.

(** [stitched_text.endswith(('.', '!', '?'))] *)
Definition ends_with_terminal (s : text) : bool :=
  match rev s with
  | c :: _ => is_terminal c
  | [] => false
  end.

(** The loop of [stitch_transcript_chunks] from the second chunk on;
    [previous] is the raw text of the chunk before. *)
Fixpoint stitch_rest (overlap_duration : Z) (previous : text) (chunks : list text)
    (stitched_text : text) : text :=
  match chunks with
  | [] => stitched_text
  | chunk :: rest =>
      let chunk_text := clean_transcript_text chunk in
      let previous_text := clean_transcript_text previous in
      let trimmed := chunk_text_trimmed overlap_duration previous_text chunk_text in
      let stitched_text :=
        if nonempty stitched_text && nonempty trimmed
        then (if ends_with_terminal stitched_text
              then stitched_text ++ [" "%char]
              else stitched_text ++ ["."%char; " "%char]) ++ trimmed
        else stitched_text in
      stitch_rest overlap_duration chunk rest stitched_text
  end.

(** [stitch_transcript_chunks] on the texts extracted from the chunk
    records: the text written to the output file. *)
Definition stitch_transcript_chunks (overlap_duration : Z) (chunk_transcripts : list text)
    : outcome text :=
  match chunk_transcripts with
  | [] => Raised NoTranscriptChunks
  | [chunk] => Done (clean_transcript_text chunk)
  | chunk :: rest =>
      Done (clean_transcript_text
              (stitch_rest overlap_duration chunk rest (clean_transcript_text chunk)))
  end.

(** [sub] occurs in [s]. *)
Definition occurs (sub s : text) : Prop :=
  exists before after, s = before ++ sub ++ after.

End TextPath.

(** ** The silence boundaries *)

Module Boundaries.

(** [sorted(set(l))]: the distinct elements in increasing order. *)
Fixpoint insert_unique (x : Z) (l : list Z) : list Z :=
  match l with
  | [] => [x]
  | y :: rest =>
      if x <? y then x :: y :: rest
      else if x =? y then y :: rest
      else y :: insert_unique x rest
  end.

Definition sorted_set (l : list Z) : list Z := foldr insert_unique [] l.

(** The loop over the pairs of neighbouring non-silent intervals: the
    middle of the gap between the end of one and the start of the next. *)
Fixpoint silence_middles (non_silent_intervals : list (Z * Z)) : list Z :=
  match non_silent_intervals with
  | (_, silence_start) :: (((silence_end, _) :: _) as rest) =>
      (silence_start + silence_end) / 2 :: silence_middles rest
  | _ => []
  end.

(** [find_silence_boundaries] of the silence-aware chunkers, after the
    detector has run: [non_silent_intervals] is what [librosa.effects.split]
    returned, or [None] when the detection raised; [length_audio] is the
    number of frames. *)
Definition find_silence_boundaries (non_silent_intervals : option (list (Z * Z)))
    (length_audio : Z) : list Z :=
  match non_silent_intervals with
  | Some intervals => sorted_set ([0] ++ silence_middles intervals ++ [length_audio])
  | None => [0; length_audio]
  end.

End Boundaries.

(** ** From the plan to the chunk files and back *)

Module Pipeline.

Section Files.
Variable sample : Type.
Variable scale : Q -> sample -> sample.

(** The file of a chunk as the planners write it,
    [sf.write(chunk_path, audio_data[start_sample:end_sample], sample_rate)],
    and as the stitcher reads it back with [always_2d=True]. *)
Definition chunk_file (audio_data : Stitcher.ndarray sample) (sample_rate : Z)
    (c : Planner.chunk_info) : Stitcher.wav sample :=
  Stitcher.mk_wav
    (Stitcher.mk_array (Planner.chunk_data (Stitcher.rows audio_data) c)
                       (Stitcher.ncols audio_data))
    sample_rate.

(** A row of the output against a row of the source: the same row, or the
    row multiplied by a factor between 0 and 1. *)
Definition same_or_faded (out src : list sample) : Prop :=
  out = src \/ exists factor : Q, (0 <= factor <= 1)%Q /\ out = List.map (scale factor) src.

End Files.

End Pipeline.

(** ** The shape of a cleaned text *)

Module TextShape.
Import TextPath.

(** What the character before the current one was. *)
Inductive last_kind : Type := KStart | KPlain | KSpace | KTerm.

(** A scan that accepts the texts in which white space occurs only as a
    single plain space between two other characters and in which a
    [terminal] character is followed by a space or by the end of the text;
    with [trailing], one space is accepted at the end as well. *)
Fixpoint well_spaced (terminal : ascii -> bool) (trailing : bool) (p : last_kind)
    (s : text) : bool :=
  match s with
  | [] => match p with KSpace => trailing | _ => true end
  | c :: rest =>
      if is_space c then
        Ascii.eqb c " "%char
        && match p with KPlain | KTerm => true | _ => false end
        && well_spaced terminal trailing KSpace rest
      else
        match p with KTerm => false | _ => true end
        && well_spaced terminal trailing (if terminal c then KTerm else KPlain) rest
  end.

(** The kind of the last character of [s], or [p] for the empty text. *)
Fixpoint final_kind (p : last_kind) (s : text) : last_kind :=
  match s with
  | [] => p
  | c :: rest =>
      final_kind (if is_space c then KSpace else if is_terminal c then KTerm else KPlain) rest
  end.

(** The states of the second substitution against the states of the scan
    of its input and of its output. *)
Definition sat_states (p : last_kind) (skipping : bool) (q : last_kind) : Prop :=
  match p, skipping, q with
  | KStart, false, KStart => True
  | KPlain, false, KPlain => True
  | KPlain, true, KSpace => True
  | KSpace, _, KSpace => True
  | _, _, _ => False
  end.

(** What a chunk after the first adds to the stitched text: nothing, or a
    separator followed by a non-empty part of its cleaned text. *)
Definition stitched_part (part chunk : text) : Prop :=
  part = [] \/
  exists sep body,
    part = sep ++ body /\
    (sep = [" "%char] \/ sep = ["."%char; " "%char]) /\
    body <> [] /\ occurs body (clean_transcript_text chunk).

End TextShape.

(** ** The time-based planner of [AudioChunker] *)

Module TimePlanner.

(** The fields of a [chunk_info] dictionary that are numbers;
    [chunk_id] is the number that the [id] and the file name are formatted
    from.  The duration that ffprobe reports is a float, for which a
    rational stands, so that the sums and differences of the loop are
    exact; the chunk duration and the overlap are integers. *)
Record time_chunk : Type := mk_time_chunk {
  chunk_id : Z;
  tc_start_time : Q;
  tc_end_time : Q;
  tc_duration : Q
}.

Section TimeLoop.
Variables (chunk_duration overlap_duration : Z).
Variable (duration : Q).

(** [end_time = min(start_time + self.chunk_duration, duration)] *)
Definition chunk_end_time (start_time : Q) : Q :=
  Qmin (start_time + inject_Z chunk_duration) duration.

(** The start of the next chunk: [end_time - self.overlap_duration], or
    [end_time] when that does not lie after the start of this chunk. *)
Definition next_start_time (start_time : Q) : Q :=
  let end_time := chunk_end_time start_time in
  let start_time' := (end_time - inject_Z overlap_duration)%Q in
  if Py.Qleb start_time' start_time then end_time else start_time'.

(** The [while start_time < duration] loop of [split_audio_into_chunks];
    it has no cap on the number of chunks. *)
Fixpoint time_loop (fuel : nat) (start_time : Q) (id : Z) (chunks : list time_chunk)
    : outcome (list time_chunk) :=
  match fuel with
  | O => OutOfFuel
  | S fuel' =>
      if Py.Qltb start_time duration then
        let end_time := chunk_end_time start_time in
        let actual_duration := (end_time - start_time)%Q in
        let chunks := chunks ++ [mk_time_chunk id start_time end_time actual_duration] in
        time_loop fuel' (next_start_time start_time) (id + 1) chunks
      else Done chunks
  end.

(** The plan of [split_audio_into_chunks], before ffmpeg cuts the
    chunks. *)
Definition plan_chunks (fuel : nat) : outcome (list time_chunk) :=
  time_loop fuel 0%Q 0 [].

(** The chunks that the loop appends from [start_time] on. *)
Inductive planned : Q -> Z -> list time_chunk -> Prop :=
  | planned_end start_time id :
      (duration <= start_time)%Q -> planned start_time id []
  | planned_next start_time id rest :
      (start_time < duration)%Q ->
      planned (next_start_time start_time) (id + 1) rest ->
      planned start_time id
        (mk_time_chunk id start_time (chunk_end_time start_time)
           (chunk_end_time start_time - start_time)%Q :: rest).

End TimeLoop.

End TimePlanner.

(** * Properties *)

(** ** Python primitives *)

Section MinBy.
Context {A : Type}.

(** [min] with an integer key returns an element of its argument whose key
    is minimal. *)
Lemma min_by_Z_spec (key : A -> Z) (rest : list A) (x : A) :
  let r := Py.min_by Z.ltb key x rest in
  In r (x :: rest) /\ forall y, In y (x :: rest) -> key r <= key y.
Proof.
  unfold Py.min_by. revert x. induction rest as [|z rest IH]; intros x; simpl.
  - split; [now left|]. intros y [->|[]]. lia.
  - destruct (Z.ltb_spec (key z) (key x)) as [Hlt|Hge].
    + destruct (IH z) as [Hin Hmin]. split.
      * destruct Hin as [<-|Hin]; [right; now left | right; now right].
      * intros y [<-|[<-|Hy]].
        -- specialize (Hmin z (or_introl eq_refl)). lia.
        -- apply Hmin. now left.
        -- apply Hmin. now right.
    + destruct (IH x) as [Hin Hmin]. split.
      * destruct Hin as [<-|Hin]; [now left | right; now right].
      * intros y [<-|[<-|Hy]].
        -- apply Hmin. now left.
        -- specialize (Hmin x (or_introl eq_refl)). lia.
        -- apply Hmin. now right.
Qed.
End MinBy.

Section Slices.
Context {A : Type}.
Implicit Types l : list A.

(** A slice with bounds inside the list is a [take] followed by a [drop]. *)
Lemma slice_in_range l a b :
  0 <= a <= b -> b <= Z.of_nat (length l) ->
  Py.slice l a b = drop (Z.to_nat a) (take (Z.to_nat b) l).
Proof.
  intros Hab Hb. unfold Py.slice, Py.norm.
  destruct (Z.ltb_spec a 0); [lia|]. destruct (Z.ltb_spec b 0); [lia|].
  rewrite !Z.min_l by lia. rewrite take_drop_commute.
  do 2 f_equal. lia.
Qed.

Lemma slice_length l a b :
  0 <= a <= b -> b <= Z.of_nat (length l) ->
  length (Py.slice l a b) = Z.to_nat (b - a).
Proof.
  intros Hab Hb. rewrite slice_in_range by assumption.
  rewrite length_drop, length_take. lia.
Qed.

Lemma slice_full l : Py.slice l 0 (Z.of_nat (length l)) = l.
Proof.
  rewrite slice_in_range by lia. rewrite Nat2Z.id. simpl.
  now rewrite take_ge by lia.
Qed.

Lemma slice_from_in_range l a :
  0 <= a <= Z.of_nat (length l) -> Py.slice_from l a = drop (Z.to_nat a) l.
Proof.
  intros Ha. unfold Py.slice_from, Py.norm.
  destruct (Z.ltb_spec a 0); [lia|]. now rewrite Z.min_l by lia.
Qed.

Lemma slice_to_end l a :
  0 <= a <= Z.of_nat (length l) ->
  Py.slice l a (Z.of_nat (length l)) = drop (Z.to_nat a) l.
Proof.
  intros Ha. rewrite slice_in_range by lia.
  rewrite Nat2Z.id. now rewrite take_ge by lia.
Qed.

(** The length of [l[-n:]] and of [l[:n]]. *)
Lemma slice_from_neg_length l n :
  0 < n -> length (Py.slice_from l (- n)) = Nat.min (Z.to_nat n) (length l).
Proof.
  intros Hn. unfold Py.slice_from, Py.norm.
  destruct (Z.ltb_spec (- n) 0); [|lia]. rewrite length_drop. lia.
Qed.

Lemma slice_to_length l n :
  0 <= n -> length (Py.slice_to l n) = Nat.min (Z.to_nat n) (length l).
Proof.
  intros Hn. unfold Py.slice_to, Py.norm.
  destruct (Z.ltb_spec n 0); [lia|]. rewrite length_take. lia.
Qed.

(** Two adjacent slices make up the slice over both. *)
Lemma slice_app l a m b :
  0 <= a <= m -> m <= b -> b <= Z.of_nat (length l) ->
  Py.slice l a m ++ Py.slice l m b = Py.slice l a b.
Proof.
  intros Ham Hmb Hb. rewrite !slice_in_range by lia.
  rewrite <- (drop_take_drop (take (Z.to_nat b) l) (Z.to_nat a) (Z.to_nat m)) by lia.
  rewrite take_take. now replace (Z.to_nat m `min` Z.to_nat b)%nat with (Z.to_nat m) by lia.
Qed.

(** The end of a slice is a slice. *)
Lemma trailing_slice l a m b :
  0 <= a <= m -> m <= b -> b <= Z.of_nat (length l) ->
  Planner.trailing (b - m) (Py.slice l a b) = Py.slice l m b.
Proof.
  intros Ham Hmb Hb. unfold Planner.trailing.
  rewrite slice_length by lia. rewrite !slice_in_range by lia.
  rewrite drop_drop. f_equal. lia.
Qed.

(** The beginning of a slice is a slice. *)
Lemma leading_slice l a m b :
  0 <= a <= m -> m <= b -> b <= Z.of_nat (length l) ->
  Planner.leading (m - a) (Py.slice l a b) = Py.slice l a m.
Proof.
  intros Ham Hmb Hb. unfold Planner.leading.
  rewrite !slice_in_range by lia.
  rewrite take_drop_commute, take_take. do 2 f_equal. lia.
Qed.

(** A slice of a slice is a slice of the source at shifted bounds. *)
Lemma slice_slice l a b c d :
  0 <= a -> 0 <= c <= d -> a + d <= b -> b <= Z.of_nat (length l) ->
  Py.slice (Py.slice l a b) c d = Py.slice l (a + c) (a + d).
Proof.
  intros Ha Hcd Hd Hb.
  rewrite (slice_in_range (Py.slice l a b)); [|lia|rewrite slice_length; lia].
  rewrite !slice_in_range by lia.
  rewrite take_drop_commute, take_take, drop_drop.
  f_equal; [|f_equal]; lia.
Qed.
End Slices.

(** ** The planners *)

Module PlannerFacts.
Import Planner.

(** The entry points are their loops, started at sample 0 with index 0 and
    an empty list. *)
Lemma run_silence_loop_eq cap T ov D total rate nch bs :
  run_silence_loop cap T ov D total rate nch bs =
  silence_loop cap T ov D total rate nch bs (Z.to_nat cap + 2) 0 0 [].
Proof. unfold run_silence_loop. reflexivity. Qed.

Lemma split_audio_at_silence_boundaries_eq T ov D total rate nch bs :
  split_audio_at_silence_boundaries T ov D total rate nch bs =
  run_silence_loop 1000 T ov D total rate nch bs.
Proof. unfold split_audio_at_silence_boundaries. reflexivity. Qed.

Lemma split_audio_for_transcription_eq T ov D total rate nch bs :
  split_audio_for_transcription T ov D total rate nch bs =
  run_silence_loop 100 T ov D total rate nch bs.
Proof. unfold split_audio_for_transcription. reflexivity. Qed.

Lemma split_audio_with_perfect_overlap_eq {A} (audio_data : list A) cd ov rate nch :
  split_audio_with_perfect_overlap audio_data cd ov rate nch =
  match perfect_loop cd ov (Z.of_nat (length audio_data)) rate nch 1002 0 0 [] with
  | Done chunks =>
      if (1 <? length chunks)%nat
      then if _verify_overlaps audio_data (overlap_samples ov rate) chunks
           then Done chunks
           else Raised BroadcastError
      else Done chunks
  | Raised e => Raised e
  | OutOfFuel => OutOfFuel
  end.
Proof. unfold split_audio_with_perfect_overlap. reflexivity. Qed.

(** A plan that the sample-accurate planner returns is the list its loop
    has built. *)
Lemma perfect_returns {A} (audio_data : list A) cd ov rate nch plan :
  split_audio_with_perfect_overlap audio_data cd ov rate nch = Done plan ->
  perfect_loop cd ov (Z.of_nat (length audio_data)) rate nch 1002 0 0 [] = Done plan.
Proof.
  rewrite split_audio_with_perfect_overlap_eq.
  destruct (perfect_loop cd ov (Z.of_nat (length audio_data)) rate nch 1002 0 0 [])
    as [chunks|e|]; [|discriminate|discriminate].
  destruct (1 <? length chunks)%nat; [|trivial].
  destruct (_verify_overlaps audio_data (overlap_samples ov rate) chunks);
    [trivial|discriminate].
Qed.

Section SplitPoint.
Variables (max_deviation sample_rate : Z) (silence_boundaries : list Z).

Local Abbreviation M := (max_deviation * sample_rate).

(** The split point is the target itself when no boundary lies within the
    deviation, and otherwise a boundary within the deviation that is
    nearest to the target. *)
Lemma find_optimal_split_point_spec (target_sample : Z) :
  let r := find_optimal_split_point max_deviation target_sample silence_boundaries sample_rate in
  (r = target_sample /\ forall b, In b silence_boundaries -> M < Z.abs (b - target_sample))
  \/ (In r silence_boundaries /\ Z.abs (r - target_sample) <= M /\
      forall b, In b silence_boundaries -> Z.abs (b - target_sample) <= M ->
                Z.abs (r - target_sample) <= Z.abs (b - target_sample)).
Proof.
  unfold find_optimal_split_point.
  set (ok := fun boundary => Z.abs (boundary - target_sample) <=? M).
  destruct (List.filter ok silence_boundaries) as [|b bs] eqn:Hf.
  - left. split; [reflexivity|]. intros b Hb.
    destruct (Z.leb_spec (Z.abs (b - target_sample)) M) as [Hle|Hgt]; [|exact Hgt].
    assert (Hin : In b (List.filter ok silence_boundaries)).
    { apply filter_In. split; [exact Hb|]. unfold ok. now apply Z.leb_le. }
    rewrite Hf in Hin. destruct Hin.
  - right.
    pose proof (min_by_Z_spec (fun x => Z.abs (x - target_sample)) bs b) as [Hin Hmin].
    cbv zeta in Hin, Hmin. rewrite <- Hf in Hin, Hmin.
    apply filter_In in Hin as [Hin Hok]. unfold ok in Hok. apply Z.leb_le in Hok.
    repeat split; [exact Hin | exact Hok |].
    intros y Hy Hyok. apply Hmin. apply filter_In. split; [exact Hy|].
    unfold ok. now apply Z.leb_le.
Qed.
End SplitPoint.

Section SilenceLoopFacts.
Variables (cap : Z).
Variables (target_chunk_duration overlap_duration max_deviation : Z).
Variables (total_samples rate n_channels : Z).
Variable (silence_boundaries : list Z).

Local Abbreviation next :=
  (actual_end target_chunk_duration max_deviation total_samples rate silence_boundaries).
Local Abbreviation mk :=
  (make_chunk target_chunk_duration overlap_duration max_deviation total_samples rate
     n_channels silence_boundaries).
Local Abbreviation loop :=
  (silence_loop cap target_chunk_duration overlap_duration max_deviation total_samples rate
     n_channels silence_boundaries).
Local Abbreviation chunks_from :=
  (Planner.chunks_from target_chunk_duration overlap_duration max_deviation total_samples
     rate n_channels silence_boundaries).

Lemma chunks_from_length s i n : length (chunks_from s i n) = n.
Proof. revert s i. induction n as [|n IH]; intros s i; simpl; [reflexivity|]. now rewrite IH. Qed.

Lemma chunks_from_lookup n : forall s i k,
  (k < n)%nat ->
  chunks_from s i n !! k = Some (mk (Nat.iter k next s) (i + Z.of_nat k)).
Proof.
  induction n as [|n IH]; intros s i k Hk; [lia|].
  destruct k as [|k]; simpl.
  - now rewrite Z.add_0_r.
  - rewrite IH by lia. rewrite <- Nat.iter_succ_r. simpl.
    do 2 f_equal. lia.
Qed.

Lemma loop_step fuel s i acc :
  loop (S fuel) s i acc =
  if s <? total_samples then
    if i + 1 >? cap then Raised TooManyChunks
    else loop fuel (next s) (i + 1) (acc ++ [mk s i])
  else Done acc.
Proof. reflexivity. Qed.

(** A finished loop has made [n] passes, the first [n] that the start
    stayed below the total, and never more than [cap] chunks. *)
Lemma loop_done fuel : forall s i acc plan,
  loop fuel s i acc = Done plan ->
  exists n, plan = acc ++ chunks_from s i n /\
            total_samples <= Nat.iter n next s /\
            (forall k, (k < n)%nat -> Nat.iter k next s < total_samples) /\
            (n = O \/ i + Z.of_nat n <= cap).
Proof.
  induction fuel as [|fuel IH]; intros s i acc plan H; [discriminate|].
  rewrite loop_step in H.
  destruct (Z.ltb_spec s total_samples) as [Hlt|Hge].
  - destruct (Z.gtb_spec (i + 1) cap) as [Hc|Hc]; [discriminate|].
    apply IH in H as (n & -> & Hend & Hrun & Hcap).
    exists (S n). rewrite <- app_assoc. simpl. repeat split.
    + rewrite <- Nat.iter_succ_r in Hend. exact Hend.
    + intros [|k] Hk; [exact Hlt|].
      rewrite Nat.iter_succ_r. apply Hrun. lia.
    + right. destruct Hcap as [->|Hcap]; lia.
  - inversion H; subst. exists O. simpl. rewrite app_nil_r.
    repeat split; [lia | intros; lia | now left].
Qed.

(** A loop that raises has raised the chunk-count error, and the start was
    still below the total at every pass up to the one that broke the cap. *)
Lemma loop_raised fuel : forall s i acc e,
  loop fuel s i acc = Raised e ->
  e = TooManyChunks /\
  forall k, i + Z.of_nat k <= cap -> Nat.iter k next s < total_samples.
Proof.
  induction fuel as [|fuel IH]; intros s i acc e H; [discriminate|].
  rewrite loop_step in H.
  destruct (Z.ltb_spec s total_samples) as [Hlt|Hge]; [|discriminate].
  destruct (Z.gtb_spec (i + 1) cap) as [Hc|Hc].
  - inversion H; subst. split; [reflexivity|].
    intros [|k] Hk; [exact Hlt | lia].
  - apply IH in H as [-> Hrun]. split; [reflexivity|].
    intros [|k] Hk; [exact Hlt|].
    rewrite Nat.iter_succ_r. apply Hrun. lia.
Qed.

(** The fuel suffices: the cap bounds the passes. *)
Lemma loop_fuel fuel : forall s i acc,
  (Z.to_nat (cap - i) < fuel)%nat ->
  loop fuel s i acc <> OutOfFuel.
Proof.
  induction fuel as [|fuel IH]; intros s i acc Hf; [lia|].
  rewrite loop_step.
  destruct (Z.ltb_spec s total_samples) as [Hlt|Hge]; [|discriminate].
  destruct (Z.gtb_spec (i + 1) cap) as [Hc|Hc]; [discriminate|].
  apply IH. lia.
Qed.

(** More fuel does not change a result. *)
Lemma loop_more_fuel fuel : forall fuel' s i acc,
  (fuel <= fuel')%nat ->
  loop fuel s i acc <> OutOfFuel ->
  loop fuel' s i acc = loop fuel s i acc.
Proof.
  induction fuel as [|fuel IH]; intros fuel' s i acc Hle Hne; [now destruct Hne|].
  destruct fuel' as [|fuel']; [lia|].
  rewrite !loop_step in *.
  destruct (s <? total_samples); [|reflexivity].
  destruct (i + 1 >? cap); [reflexivity|].
  apply IH; [lia | exact Hne].
Qed.

End SilenceLoopFacts.

Section Progress.
Variables (target_chunk_duration overlap_duration max_deviation : Z).
Variables (total_samples rate n_channels : Z).
Variable (silence_boundaries : list Z).
Hypothesis positive_target : 0 < target_chunk_duration * rate.

Local Abbreviation next :=
  (actual_end target_chunk_duration max_deviation total_samples rate silence_boundaries).

(** A pass that does not move the start forward comes back to the same
    split point on the next pass: the loop has stalled. *)
Lemma stall s :
  s < total_samples -> next s <= s ->
  next (next s) = next s /\ next s < total_samples.
Proof.
  intros Hs Hback.
  destruct (Z.eq_dec (next s) s) as [Heq|Hne].
  { split; [now rewrite !Heq | now rewrite Heq]. }
  split; [|lia].
  revert Hback Hne. unfold actual_end, target_end.
  set (T := target_chunk_duration * rate) in *.
  destruct (Z.geb_spec (s + T) total_samples) as [Hlast|Hmid]; [lia|].
  pose proof (find_optimal_split_point_spec max_deviation rate silence_boundaries (s + T)) as Hc.
  cbv zeta in Hc.
  set (c := find_optimal_split_point max_deviation (s + T) silence_boundaries rate) in *.
  intros Hback Hne.
  destruct Hc as [[Hc _]|(Hin & Hdev & Hmin)]; [lia|].
  destruct (Z.geb_spec (c + T) total_samples) as [Hlast'|Hmid']; [lia|].
  pose proof (find_optimal_split_point_spec max_deviation rate silence_boundaries (c + T)) as Hr.
  cbv zeta in Hr.
  set (r := find_optimal_split_point max_deviation (c + T) silence_boundaries rate) in *.
  destruct Hr as [[_ Hnone]|(Hin' & Hdev' & Hmin')].
  - specialize (Hnone c Hin). lia.
  - specialize (Hmin' c Hin). specialize (Hmin r Hin'). lia.
Qed.

Lemma stall_iter s k :
  s < total_samples -> next s <= s -> Nat.iter (S k) next s = next s.
Proof.
  intros Hs Hback. induction k as [|k IH]; [reflexivity|].
  change (Nat.iter (S (S k)) next s) with (next (Nat.iter (S k) next s)).
  rewrite IH. now apply stall.
Qed.

(** When the start reaches the end of the audio after [n] passes, every one
    of these passes moved the start forward. *)
Lemma passes_progress s n k :
  total_samples <= Nat.iter n next s ->
  (forall j, (j < n)%nat -> Nat.iter j next s < total_samples) ->
  (k < n)%nat ->
  Nat.iter k next s < next (Nat.iter k next s).
Proof.
  intros Hend Hrun Hk.
  destruct (Z.lt_ge_cases (Nat.iter k next s) (next (Nat.iter k next s))) as [Hlt|Hge];
    [exact Hlt|exfalso].
  pose proof (Hrun k Hk) as Hu.
  assert (Hn : n = (S (n - S k) + k)%nat) by lia.
  rewrite Hn, Nat.iter_add in Hend.
  rewrite stall_iter in Hend by assumption.
  pose proof (stall _ Hu Hge). lia.
Qed.

End Progress.

Section ChainShape.
Variables (total_samples overlap_samples : Z).

Local Abbreviation chain := (Planner.chain total_samples overlap_samples).

(** Every chunk of a chain starts at or after the start of the chain. *)
Lemma chain_entry s plan :
  chain s plan ->
  forall i c, plan !! i = Some c ->
    s <= start_sample c /\ start_sample c < total_samples /\
    start_sample c < actual_split_sample c /\
    end_sample c =
      (if actual_split_sample c <? total_samples
       then Z.min (actual_split_sample c + overlap_samples) total_samples
       else total_samples).
Proof.
  induction 1 as [s Hs|s c rest Hstart Hlt Hsplit Hend Hrest IH]; intros i d Hi.
  - discriminate.
  - destruct i as [|i]; simpl in Hi.
    + inversion Hi; subst d. repeat split; (lia || assumption).
    + destruct (IH _ _ Hi) as (H1 & H2 & H3 & H4). repeat split; (lia || assumption).
Qed.

(** Two neighbours: the second starts where the first is split, and the
    split lies inside the audio. *)
Lemma chain_adjacent s plan :
  chain s plan ->
  forall i c c', plan !! i = Some c -> plan !! S i = Some c' ->
    actual_split_sample c = start_sample c' /\ actual_split_sample c < total_samples.
Proof.
  induction 1 as [s Hs|s c rest Hstart Hlt Hsplit Hend Hrest IH]; intros i d d' Hi Hi'.
  - discriminate.
  - destruct i as [|i]; simpl in Hi, Hi'.
    + inversion Hi; subst d. inversion Hrest as [|? ? ? Hs' Hl' ? ? ?]; subst; [discriminate|].
      simpl in Hi'. inversion Hi'; subst d'. lia.
    + eapply IH; eassumption.
Qed.

(** The last chunk is split at or after the end of the audio. *)
Lemma chain_last s plan :
  chain s plan ->
  forall c, last plan = Some c -> total_samples <= actual_split_sample c.
Proof.
  induction 1 as [s Hs|s c rest Hstart Hlt Hsplit Hend Hrest IH]; intros d Hd.
  - discriminate.
  - destruct rest as [|c' rest'].
    + simpl in Hd. inversion Hd; subst d. inversion Hrest; subst. lia.
    + apply IH. exact Hd.
Qed.

End ChainShape.

Section ChainSamples.
Context {A : Type}.
Variables (total_samples overlap_samples : Z).
Variable (audio_data : list A).
Hypothesis audio_length : Z.of_nat (length audio_data) = total_samples.
Hypothesis overlap_nonneg : 0 <= overlap_samples.

Local Abbreviation chain := (Planner.chain total_samples overlap_samples).

(** The spans the chunks own, put end to end, are the audio from the start
    of the first chunk on. *)
Lemma chain_tiling s plan :
  chain s plan -> 0 <= s ->
  concat (List.map (own_span audio_data total_samples) plan) = drop (Z.to_nat s) audio_data.
Proof.
  induction 1 as [s Hs|s c rest Hstart Hlt Hsplit Hend Hrest IH]; intros H0; simpl.
  - now rewrite drop_ge by lia.
  - rewrite IH by lia. unfold own_span. rewrite Hstart.
    rewrite <- (slice_to_end audio_data s) by lia.
    destruct (Z.lt_ge_cases (actual_split_sample c) total_samples) as [Hin|Hout].
    + rewrite Z.min_l by lia.
      rewrite <- (slice_to_end audio_data (actual_split_sample c)) by lia.
      apply slice_app; lia.
    + rewrite Z.min_r by lia. rewrite drop_ge by lia.
      rewrite app_nil_r. now rewrite audio_length.
Qed.

(** The overlap of two neighbours: the end of the first and the beginning
    of the second are the same slice of the source. *)
Lemma chain_overlap s plan :
  chain s plan -> 0 <= s ->
  forall i c c', plan !! i = Some c -> plan !! S i = Some c' ->
    let n := end_sample c - actual_split_sample c in
    n = Z.min overlap_samples (total_samples - actual_split_sample c) /\
    trailing n (chunk_data audio_data c) =
      Py.slice audio_data (actual_split_sample c) (end_sample c) /\
    leading n (chunk_data audio_data c') =
      Py.slice audio_data (actual_split_sample c) (end_sample c).
Proof.
  intros Hch H0 i c c' Hi Hi'.
  destruct (chain_adjacent _ _ _ _ Hch _ _ _ Hi Hi') as [Hadj Hin].
  destruct (chain_entry _ _ _ _ Hch _ _ Hi) as (Hs & Hlt & Hsp & Hend).
  destruct (chain_entry _ _ _ _ Hch _ _ Hi') as (Hs' & Hlt' & Hsp' & Hend').
  destruct (Z.ltb_spec (actual_split_sample c) total_samples) as [_|?]; [|lia].
  assert (Hle : end_sample c <= end_sample c').
  { rewrite Hend, Hend'. destruct (actual_split_sample c' <? total_samples); lia. }
  assert (Hc'tot : end_sample c' <= total_samples).
  { rewrite Hend'. destruct (actual_split_sample c' <? total_samples); lia. }
  cbv zeta. split; [lia|]. unfold chunk_data. split.
  - apply trailing_slice; lia.
  - rewrite <- Hadj. apply leading_slice; lia.
Qed.

End ChainSamples.

Section SilencePlans.
Variables (cap : Z).
Variables (target_chunk_duration overlap_duration max_deviation : Z).
Variables (total_samples rate n_channels : Z).
Variable (silence_boundaries : list Z).

Local Abbreviation next :=
  (actual_end target_chunk_duration max_deviation total_samples rate silence_boundaries).
Local Abbreviation chunks_from :=
  (Planner.chunks_from target_chunk_duration overlap_duration max_deviation total_samples
     rate n_channels silence_boundaries).
Local Abbreviation run :=
  (run_silence_loop cap target_chunk_duration overlap_duration max_deviation total_samples
     rate n_channels silence_boundaries).

(** With candidates inside the audio no split point lies after its end. *)
Lemma actual_end_le_total s :
  (forall b, In b silence_boundaries -> b <= total_samples) ->
  next s <= total_samples.
Proof.
  intros Hb. unfold actual_end, target_end.
  destruct (Z.geb_spec (s + target_chunk_duration * rate) total_samples) as [?|Hmid]; [lia|].
  destruct (find_optimal_split_point_spec max_deviation rate silence_boundaries
              (s + target_chunk_duration * rate)) as [[-> _]|[Hin _]]; [lia|].
  now apply Hb.
Qed.

Lemma chunks_from_chain n : forall s i,
  (forall s', next s' <= total_samples) ->
  total_samples <= Nat.iter n next s ->
  (forall k, (k < n)%nat -> Nat.iter k next s < total_samples) ->
  (forall k, (k < n)%nat -> Nat.iter k next s < next (Nat.iter k next s)) ->
  chain total_samples (overlap_duration * rate) s (chunks_from s i n).
Proof.
  induction n as [|n IH]; intros s i Hle Hend Hrun Hprog; simpl.
  - now constructor.
  - constructor; simpl.
    + reflexivity.
    + apply (Hrun O). lia.
    + apply (Hprog O). lia.
    + unfold chunk_end. specialize (Hle s).
      destruct (Z.ltb_spec (next s) total_samples); [reflexivity|lia].
    + apply IH.
      * exact Hle.
      * now rewrite <- Nat.iter_succ_r.
      * intros k Hk. rewrite <- Nat.iter_succ_r. apply Hrun. lia.
      * intros k Hk. rewrite <- Nat.iter_succ_r. apply (Hprog (S k)). lia.
Qed.

(** The outcome of the loop: a plan of the first passes, or the chunk-count
    error after [cap + 1] passes. *)
Lemma run_outcome :
  0 <= cap ->
  (exists n, run = Done (chunks_from 0 0 n) /\ Z.of_nat n <= cap /\
             total_samples <= Nat.iter n next 0 /\
             forall k, (k < n)%nat -> Nat.iter k next 0 < total_samples)
  \/ (run = Raised TooManyChunks /\
      forall k, Z.of_nat k <= cap -> Nat.iter k next 0 < total_samples).
Proof.
  intros Hcap. rewrite run_silence_loop_eq.
  destruct (silence_loop cap target_chunk_duration overlap_duration max_deviation
              total_samples rate n_channels silence_boundaries (Z.to_nat cap + 2) 0 0 [])
    as [plan|e|] eqn:Hrun.
  - left. apply loop_done in Hrun as (n & -> & Hend & Hpass & Hn).
    exists n. repeat split; [lia | exact Hend | exact Hpass].
  - right. apply loop_raised in Hrun as [-> Hpass]. split; [reflexivity|].
    intros k Hk. apply Hpass. lia.
  - exfalso. revert Hrun. apply loop_fuel. lia.
Qed.

(** A plan that is returned is a chain from sample 0. *)
Lemma run_chain plan :
  0 < target_chunk_duration * rate ->
  (forall b, In b silence_boundaries -> b <= total_samples) ->
  run = Done plan ->
  chain total_samples (overlap_duration * rate) 0 plan.
Proof.
  intros HT Hb Hrun. rewrite run_silence_loop_eq in Hrun.
  apply loop_done in Hrun as (n & -> & Hend & Hpass & _). simpl.
  apply chunks_from_chain; [|exact Hend|exact Hpass|].
  - intros s. now apply actual_end_le_total.
  - intros k Hk. now apply (passes_progress _ _ _ _ _ HT 0 n k).
Qed.

(** A pass that does not move forward is never followed by a plan. *)
Lemma run_stalled k :
  0 <= cap ->
  0 < target_chunk_duration * rate ->
  (forall j, (j <= k)%nat -> Nat.iter j next 0 < total_samples) ->
  next (Nat.iter k next 0) <= Nat.iter k next 0 ->
  run = Raised TooManyChunks.
Proof.
  intros Hcap HT Hreach Hback.
  destruct (run_outcome Hcap) as [(n & _ & _ & Hend & Hpass)|[Hr _]]; [exfalso|exact Hr].
  destruct (Nat.lt_ge_cases k n) as [Hk|Hk].
  - pose proof (passes_progress _ _ _ _ _ HT 0 n k Hend Hpass Hk). lia.
  - specialize (Hreach n Hk). lia.
Qed.

End SilencePlans.

Section PerfectPlans.
Variables (chunk_duration overlap_duration : Z).
Variables (total_samples rate n_channels : Z).

Local Abbreviation cs := (chunk_samples chunk_duration rate).
Local Abbreviation loop :=
  (perfect_loop chunk_duration overlap_duration total_samples rate n_channels).
Local Abbreviation chunks_from :=
  (perfect_chunks_from chunk_duration overlap_duration total_samples rate n_channels).

Lemma perfect_chunks_length n : forall s i, length (chunks_from s i n) = n.
Proof. induction n as [|n IH]; intros s i; simpl; [reflexivity|]. now rewrite IH. Qed.

Lemma perfect_chunks_split n : forall s j i c,
  chunks_from s j n !! i = Some c ->
  actual_split_sample c = start_sample c + cs.
Proof.
  induction n as [|n IH]; intros s j i c Hi; [discriminate|].
  destruct i as [|i]; simpl in Hi.
  - inversion Hi; subst c. reflexivity.
  - eapply IH. exact Hi.
Qed.

Lemma perfect_done fuel : forall s i acc plan,
  loop fuel s i acc = Done plan ->
  exists n, plan = acc ++ chunks_from s i n /\
            total_samples <= s + Z.of_nat n * cs /\
            (forall k, (k < n)%nat -> s + Z.of_nat k * cs < total_samples) /\
            (n = O \/ i + Z.of_nat n <= 1000).
Proof.
  induction fuel as [|fuel IH]; intros s i acc plan H; [discriminate|].
  simpl in H.
  destruct (Z.ltb_spec s total_samples) as [Hlt|Hge].
  - destruct (Z.gtb_spec (i + 1) 1000) as [Hc|Hc]; [discriminate|].
    apply IH in H as (n & -> & Hend & Hrun & Hcap).
    exists (S n). rewrite <- app_assoc. simpl. repeat split.
    + lia.
    + intros [|k] Hk; [lia|]. specialize (Hrun k). lia.
    + right. destruct Hcap as [->|Hcap]; lia.
  - inversion H; subst. exists O. simpl. rewrite app_nil_r.
    repeat split; [lia | intros; lia | now left].
Qed.

Lemma perfect_raised fuel : forall s i acc e,
  loop fuel s i acc = Raised e ->
  e = TooManyChunks /\
  forall k, i + Z.of_nat k <= 1000 -> s + Z.of_nat k * cs < total_samples.
Proof.
  induction fuel as [|fuel IH]; intros s i acc e H; [discriminate|].
  simpl in H.
  destruct (Z.ltb_spec s total_samples) as [Hlt|Hge]; [|discriminate].
  destruct (Z.gtb_spec (i + 1) 1000) as [Hc|Hc].
  - inversion H; subst. split; [reflexivity|].
    intros [|k] Hk; lia.
  - apply IH in H as [-> Hrun]. split; [reflexivity|].
    intros [|k] Hk; [lia|]. specialize (Hrun k). lia.
Qed.

Lemma perfect_fuel fuel : forall s i acc,
  (Z.to_nat (1000 - i) < fuel)%nat ->
  loop fuel s i acc <> OutOfFuel.
Proof.
  induction fuel as [|fuel IH]; intros s i acc Hf; [lia|].
  simpl.
  destruct (Z.ltb_spec s total_samples) as [Hlt|Hge]; [|discriminate].
  destruct (Z.gtb_spec (i + 1) 1000) as [Hc|Hc]; [discriminate|].
  apply IH. lia.
Qed.

Lemma perfect_chunks_chain n : forall s i,
  0 < cs ->
  total_samples <= s + Z.of_nat n * cs ->
  (forall k, (k < n)%nat -> s + Z.of_nat k * cs < total_samples) ->
  chain total_samples (overlap_samples overlap_duration rate) s (chunks_from s i n).
Proof.
  induction n as [|n IH]; intros s i Hcs Hend Hrun; simpl.
  - constructor. lia.
  - constructor; simpl.
    + reflexivity.
    + specialize (Hrun O). lia.
    + lia.
    + unfold perfect_end. reflexivity.
    + apply IH; [exact Hcs | lia |].
      intros k Hk. specialize (Hrun (S k)). lia.
Qed.

(** A finished loop has made the passes up to the first one that starts at
    or after the end of the audio. *)
Lemma perfect_outcome plan :
  loop 1002%nat 0 0 [] = Done plan ->
  exists n, plan = chunks_from 0 0 n /\
            total_samples <= Z.of_nat n * cs /\
            forall k, (k < n)%nat -> Z.of_nat k * cs < total_samples.
Proof.
  intros Hrun.
  apply perfect_done in Hrun as (n & -> & Hend & Hpass & _).
  exists n. split; [reflexivity|]. split; [lia|].
  intros k Hk. specialize (Hpass k Hk). lia.
Qed.

(** The list of a finished loop is a chain from sample 0. *)
Lemma perfect_chain plan :
  loop 1002%nat 0 0 [] = Done plan ->
  chain total_samples (overlap_samples overlap_duration rate) 0 plan.
Proof.
  intros Hrun.
  destruct (perfect_outcome plan Hrun) as (n & -> & Hend & Hpass).
  destruct n as [|n]; [constructor; lia|].
  apply perfect_chunks_chain.
  - pose proof (Hpass n ltac:(lia)). lia.
  - lia.
  - intros k Hk. specialize (Hpass k Hk). lia.
Qed.

End PerfectPlans.

(** *** The claims about the planners *)

(** C1 (as amended).  A returned plan of the silence-aware planner or of the
    sample-accurate planner is well formed: the spans the chunks own, put end
    to end, are exactly the audio; every chunk is split after its start;
    each chunk starts where the one before is split; and two neighbours
    share the source samples from the split point to the end of the first
    chunk, which are the last samples of the first and the first samples of
    the second.  The shared region holds [overlap_samples] samples when the
    split point lies that far before the end of the audio, and the
    [total_samples - split] remaining samples otherwise. *)
Theorem plan_well_formed {A : Type} (audio_data : list A)
    (target_chunk_duration overlap_duration max_deviation : Z)
    (total_samples rate n_channels : Z)
    (silence_boundaries : list Z) (plan : list chunk_info) :
  Z.of_nat (length audio_data) = total_samples ->
  0 < rate ->
  0 <= overlap_duration < target_chunk_duration ->
  (forall b, In b silence_boundaries -> b <= total_samples) ->
  split_audio_at_silence_boundaries target_chunk_duration overlap_duration max_deviation
    total_samples rate n_channels silence_boundaries = Done plan
  \/ split_audio_with_perfect_overlap audio_data target_chunk_duration overlap_duration
       rate n_channels = Done plan ->
  concat (List.map (own_span audio_data total_samples) plan) = audio_data /\
  (forall i c, plan !! i = Some c -> start_sample c < actual_split_sample c) /\
  (forall i c c', plan !! i = Some c -> plan !! S i = Some c' ->
     actual_split_sample c = start_sample c' /\
     let n := end_sample c - actual_split_sample c in
     n = Z.min (overlap_duration * rate) (total_samples - actual_split_sample c) /\
     trailing n (chunk_data audio_data c) = leading n (chunk_data audio_data c') /\
     leading n (chunk_data audio_data c') =
       Py.slice audio_data (actual_split_sample c) (end_sample c)).
Proof.
  intros Hlen Hrate Hov Hb Hplan.
  assert (HT : 0 < target_chunk_duration * rate) by nia.
  assert (Hovs : 0 <= overlap_duration * rate) by nia.
  assert (Hch : chain total_samples (overlap_duration * rate) 0 plan).
  { destruct Hplan as [Hplan|Hplan].
    - rewrite split_audio_at_silence_boundaries_eq in Hplan.
      now apply (run_chain 1000 target_chunk_duration overlap_duration max_deviation
                   total_samples rate n_channels silence_boundaries).
    - apply perfect_returns in Hplan. rewrite Hlen in Hplan.
      now apply perfect_chain in Hplan. }
  split; [|split].
  - now rewrite (chain_tiling _ _ audio_data Hlen 0 plan Hch).
  - intros i c Hi. now destruct (chain_entry _ _ _ _ Hch _ _ Hi) as (_ & _ & ? & _).
  - intros i c c' Hi Hi'.
    destruct (chain_adjacent _ _ _ _ Hch _ _ _ Hi Hi') as [Hadj _].
    destruct (chain_overlap _ _ audio_data Hlen Hovs _ _ Hch (Z.le_refl 0) _ _ _ Hi Hi')
      as (Hn & Htr & Hld).
    split; [exact Hadj|]. cbv zeta. split; [exact Hn|]. split; [|exact Hld].
    now rewrite Htr, Hld.
Qed.

Lemma plan_well_formed_witness :
  let audio_data := [11; 12; 13; 14; 15; 16; 17; 18; 19; 20] in
  let plan := [mk_chunk 0 0 5 4 1 1; mk_chunk 1 4 9 8 1 1; mk_chunk 2 8 10 10 1 1] in
  split_audio_at_silence_boundaries 4 1 0 10 1 1 [0; 10] = Done plan /\
  concat (List.map (own_span audio_data 10) plan) = audio_data.
Proof.
  intros audio_data plan.
  assert (Hrun : split_audio_at_silence_boundaries 4 1 0 10 1 1 [0; 10] = Done plan)
    by (vm_compute; reflexivity).
  split; [exact Hrun|].
  apply (plan_well_formed audio_data 4 1 0 10 1 1 [0; 10] plan).
  - reflexivity.
  - lia.
  - lia.
  - simpl. intros b [<-|[<-|[]]]; lia.
  - left. exact Hrun.
Defined.

(** C1 as stated fails where the end of the audio clamps a chunk.  The
    silence-aware planner, with ten samples at 1 Hz, a target of four
    seconds, an overlap of three and no deviation: the second chunk ends
    with the samples 7..9 and the third chunk holds only the samples 8..9.
    The sample-accurate planner, with nine samples: the second chunk ends
    with the samples 6..8 and the third chunk holds only the sample 8. *)
Lemma overlap_identity_counterexample :
  (exists c c',
     split_audio_at_silence_boundaries 4 3 0 10 1 1 [0; 10] =
       Done [mk_chunk 0 0 7 4 1 1; c; c'] /\
     trailing (3 * 1) (chunk_data [0; 1; 2; 3; 4; 5; 6; 7; 8; 9] c) = [7; 8; 9] /\
     leading (3 * 1) (chunk_data [0; 1; 2; 3; 4; 5; 6; 7; 8; 9] c') = [8; 9] /\
     trailing (3 * 1) (chunk_data [0; 1; 2; 3; 4; 5; 6; 7; 8; 9] c) <>
       leading (3 * 1) (chunk_data [0; 1; 2; 3; 4; 5; 6; 7; 8; 9] c')) /\
  (exists c c',
     split_audio_with_perfect_overlap [0; 1; 2; 3; 4; 5; 6; 7; 8] 4 3 1 1 =
       Done [mk_chunk 0 0 7 4 1 1; c; c'] /\
     trailing (overlap_samples 3 1) (chunk_data [0; 1; 2; 3; 4; 5; 6; 7; 8] c) = [6; 7; 8] /\
     leading (overlap_samples 3 1) (chunk_data [0; 1; 2; 3; 4; 5; 6; 7; 8] c') = [8] /\
     trailing (overlap_samples 3 1) (chunk_data [0; 1; 2; 3; 4; 5; 6; 7; 8] c) <>
       leading (overlap_samples 3 1) (chunk_data [0; 1; 2; 3; 4; 5; 6; 7; 8] c')).
Proof.
  split.
  - exists (mk_chunk 1 4 10 8 1 1), (mk_chunk 2 8 10 10 1 1).
    split; [vm_compute; reflexivity|].
    split; [vm_compute; reflexivity|].
    split; [vm_compute; reflexivity|].
    vm_compute. discriminate.
  - exists (mk_chunk 1 4 9 8 1 1), (mk_chunk 2 8 9 12 1 1).
    split; [vm_compute; reflexivity|].
    split; [vm_compute; reflexivity|].
    split; [vm_compute; reflexivity|].
    vm_compute. discriminate.
Qed.

(** C2.  In a returned plan every chunk but the last ends at
    [min(split + overlap_samples, total_samples)] and the last chunk ends at
    [total_samples]; this holds for the silence-aware planner, whose
    candidates lie inside the audio, and for the sample-accurate planner,
    whose split point is [start_sample + chunk_samples].  For ten seconds at
    44100 Hz, a target of 4 s, an overlap of 1 s and no candidate, both
    planners return the chunks [0, 220500), [176400, 396900) and
    [352800, 441000), and the samples 176400..220500 of the first chunk are
    the samples 0..44100 of the second and the samples 176400..220500 of the
    source. *)
Theorem materialization_rule :
  (forall (target_chunk_duration overlap_duration max_deviation : Z)
          (total_samples rate n_channels : Z) (silence_boundaries : list Z)
          (plan : list chunk_info) (i : nat) (c : chunk_info),
     (forall b, In b silence_boundaries -> b <= total_samples) ->
     split_audio_at_silence_boundaries target_chunk_duration overlap_duration
       max_deviation total_samples rate n_channels silence_boundaries = Done plan ->
     plan !! i = Some c ->
     ((S i < length plan)%nat ->
        end_sample c = Z.min (actual_split_sample c + overlap_duration * rate) total_samples) /\
     (S i = length plan -> end_sample c = total_samples)) /\
  (forall (A : Type) (audio_data : list A)
          (chunk_duration overlap_duration rate n_channels : Z)
          (plan : list chunk_info) (i : nat) (c : chunk_info),
     split_audio_with_perfect_overlap audio_data chunk_duration overlap_duration rate
       n_channels = Done plan ->
     plan !! i = Some c ->
     ((S i < length plan)%nat ->
        end_sample c =
          Z.min (start_sample c + chunk_samples chunk_duration rate
                 + overlap_samples overlap_duration rate) (Z.of_nat (length audio_data))) /\
     (S i = length plan -> end_sample c = Z.of_nat (length audio_data))) /\
  (forall (A : Type) (audio_data : list A) (max_deviation n_channels : Z),
     Z.of_nat (length audio_data) = 441000 ->
     split_audio_with_perfect_overlap audio_data 4 1 44100 n_channels =
       Done [mk_chunk 0 0 220500 176400 44100 n_channels;
             mk_chunk 1 176400 396900 352800 44100 n_channels;
             mk_chunk 2 352800 441000 529200 44100 n_channels] /\
     split_audio_at_silence_boundaries 4 1 max_deviation 441000 44100 n_channels [] =
       Done [mk_chunk 0 0 220500 176400 44100 n_channels;
             mk_chunk 1 176400 396900 352800 44100 n_channels;
             mk_chunk 2 352800 441000 441000 44100 n_channels] /\
     split_audio_at_silence_boundaries 4 1 0 441000 44100 n_channels [0; 441000] =
       Done [mk_chunk 0 0 220500 176400 44100 n_channels;
             mk_chunk 1 176400 396900 352800 44100 n_channels;
             mk_chunk 2 352800 441000 441000 44100 n_channels]) /\
  (forall (A : Type) (audio_data : list A) (n_channels split0 split1 : Z),
     Z.of_nat (length audio_data) = 441000 ->
     let chunk0 := chunk_data audio_data (mk_chunk 0 0 220500 split0 44100 n_channels) in
     let chunk1 := chunk_data audio_data (mk_chunk 1 176400 396900 split1 44100 n_channels) in
     Py.slice chunk0 176400 220500 = Py.slice chunk1 0 44100 /\
     Py.slice chunk1 0 44100 = Py.slice audio_data 176400 220500).
Proof.
  split; [|split; [|split]].
  - intros T ov D total rate nch bs plan i c Hb Hrun Hi.
    rewrite split_audio_at_silence_boundaries_eq in Hrun.
    destruct (run_outcome 1000 T ov D total rate nch bs ltac:(lia))
      as [(n & Hn & _ & Hend & Hpass)|[Hr _]]; [|congruence].
    rewrite Hn in Hrun. inversion Hrun; subst plan. clear Hrun Hn.
    rewrite chunks_from_length.
    assert (Hin : (i < n)%nat).
    { apply lookup_lt_Some in Hi. now rewrite chunks_from_length in Hi. }
    rewrite chunks_from_lookup in Hi by exact Hin. inversion Hi; subst c. clear Hi.
    simpl. unfold chunk_end.
    change (actual_end T D total rate bs (Nat.iter i (actual_end T D total rate bs) 0))
      with (Nat.iter (S i) (actual_end T D total rate bs) 0).
    split; intros Hlast.
    + specialize (Hpass (S i) Hlast).
      destruct (Z.ltb_spec (Nat.iter (S i) (actual_end T D total rate bs) 0) total); [reflexivity|lia].
    + rewrite Hlast.
      assert (Hle : Nat.iter n (actual_end T D total rate bs) 0 <= total).
      { destruct n as [|n]; [lia|]. simpl. now apply actual_end_le_total. }
      destruct (Z.ltb_spec (Nat.iter n (actual_end T D total rate bs) 0) total); lia.
  - intros A audio cd ov rate nch plan i c Hrun Hi.
    apply perfect_returns in Hrun. set (total := Z.of_nat (length audio)) in *.
    pose proof (perfect_chain _ _ _ _ _ _ Hrun) as Hch.
    destruct (chain_entry _ _ _ _ Hch _ _ Hi) as (_ & _ & _ & Hend).
    assert (Hsplit : actual_split_sample c = start_sample c + chunk_samples cd rate).
    { destruct (perfect_outcome _ _ _ _ _ _ Hrun) as (n & -> & _).
      eapply perfect_chunks_split. exact Hi. }
    split; intros Hlast.
    + destruct (lookup_lt_is_Some_2 plan (S i) Hlast) as [c' Hi'].
      destruct (chain_adjacent _ _ _ _ Hch _ _ _ Hi Hi') as [_ Hin].
      rewrite Hend. destruct (Z.ltb_spec (actual_split_sample c) total); [|lia].
      now rewrite Hsplit.
    + assert (Hl : last plan = Some c).
      { rewrite last_lookup. rewrite <- Hlast. exact Hi. }
      pose proof (chain_last _ _ _ _ Hch _ Hl).
      rewrite Hend. destruct (Z.ltb_spec (actual_split_sample c) total); [lia|reflexivity].
  - intros A audio D nch Hlen. split; [|split; vm_compute; reflexivity].
    rewrite split_audio_with_perfect_overlap_eq, Hlen.
    assert (Hloop : perfect_loop 4 1 441000 44100 nch 1002 0 0 [] =
                    Done [mk_chunk 0 0 220500 176400 44100 nch;
                          mk_chunk 1 176400 396900 352800 44100 nch;
                          mk_chunk 2 352800 441000 529200 44100 nch])
      by (vm_compute; reflexivity).
    rewrite Hloop.
    change (1 <? length [mk_chunk 0 0 220500 176400 44100 nch;
                         mk_chunk 1 176400 396900 352800 44100 nch;
                         mk_chunk 2 352800 441000 529200 44100 nch])%nat with true.
    cbv iota. unfold _verify_overlaps, overlap_a, overlap_b, chunk_data.
    cbn [start_sample end_sample].
    change (overlap_samples 1 44100) with 44100.
    rewrite !slice_from_neg_length, !slice_to_length by lia.
    rewrite !slice_length by lia.
    replace (Z.to_nat 44100 `min` Z.to_nat (220500 - 0))%nat with (Z.to_nat 44100) by lia.
    replace (Z.to_nat 44100 `min` Z.to_nat (396900 - 176400))%nat with (Z.to_nat 44100) by lia.
    replace (Z.to_nat 44100 `min` Z.to_nat (441000 - 352800))%nat with (Z.to_nat 44100) by lia.
    unfold broadcastable. rewrite Nat.eqb_refl. reflexivity.
  - intros A audio nch s0 s1 Hlen. cbv zeta. unfold chunk_data.
    cbn [start_sample end_sample].
    rewrite (slice_slice audio 0 220500 176400 220500) by lia.
    rewrite (slice_slice audio 176400 396900 0 44100) by lia.
    split; reflexivity.
Qed.

Lemma materialization_rule_witness :
  (forall b, In b [0; 441000] -> b <= 441000) /\
  split_audio_at_silence_boundaries 4 1 0 441000 44100 2 [0; 441000] =
    Done [mk_chunk 0 0 220500 176400 44100 2;
          mk_chunk 1 176400 396900 352800 44100 2;
          mk_chunk 2 352800 441000 441000 44100 2] /\
  220500 = Z.min (176400 + 1 * 44100) 441000.
Proof.
  assert (Hb : forall b, In b [0; 441000] -> b <= 441000).
  { simpl. intros b [<-|[<-|[]]]; lia. }
  assert (Hrun : split_audio_at_silence_boundaries 4 1 0 441000 44100 2 [0; 441000] =
    Done [mk_chunk 0 0 220500 176400 44100 2;
          mk_chunk 1 176400 396900 352800 44100 2;
          mk_chunk 2 352800 441000 441000 44100 2]) by (vm_compute; reflexivity).
  split; [exact Hb|]. split; [exact Hrun|].
  refine (proj1 (proj1 materialization_rule 4 1 0 441000 44100 2 [0; 441000] _ O
                   (mk_chunk 0 0 220500 176400 44100 2) Hb Hrun eq_refl) _).
  simpl. lia.
Defined.

(** C7 (as amended).  In every plan that the silence-aware planner returns,
    each chunk is split strictly after its start.  The planner has no
    fall-back to the arithmetic target: below the end of the audio the split
    point of a pass is the arithmetic target only when no candidate lies
    within the deviation, and otherwise it is a candidate within the
    deviation nearest to the target, whether or not it lies after the start
    of the pass.  A pass that is reached and does not move forward ends the
    run with the chunk-count error. *)
Theorem split_progress
    (target_chunk_duration overlap_duration max_deviation : Z)
    (total_samples rate n_channels : Z) (silence_boundaries : list Z) :
  0 < target_chunk_duration * rate ->
  (forall plan i c,
     split_audio_at_silence_boundaries target_chunk_duration overlap_duration
       max_deviation total_samples rate n_channels silence_boundaries = Done plan ->
     plan !! i = Some c -> start_sample c < actual_split_sample c) /\
  (forall s i,
     let target := s + target_chunk_duration * rate in
     let c := make_chunk target_chunk_duration overlap_duration max_deviation
                total_samples rate n_channels silence_boundaries s i in
     target < total_samples ->
     start_sample c = s /\
     ((actual_split_sample c = target /\
       forall b, In b silence_boundaries -> max_deviation * rate < Z.abs (b - target))
      \/ (In (actual_split_sample c) silence_boundaries /\
          Z.abs (actual_split_sample c - target) <= max_deviation * rate /\
          forall b, In b silence_boundaries ->
                    Z.abs (b - target) <= max_deviation * rate ->
                    Z.abs (actual_split_sample c - target) <= Z.abs (b - target)))) /\
  (forall k,
     (forall j, (j <= k)%nat ->
        nth_start target_chunk_duration max_deviation total_samples rate
          silence_boundaries j < total_samples) ->
     actual_end target_chunk_duration max_deviation total_samples rate silence_boundaries
       (nth_start target_chunk_duration max_deviation total_samples rate
          silence_boundaries k)
     <= nth_start target_chunk_duration max_deviation total_samples rate
          silence_boundaries k ->
     split_audio_at_silence_boundaries target_chunk_duration overlap_duration
       max_deviation total_samples rate n_channels silence_boundaries
     = Raised TooManyChunks).
Proof.
  intros HT. split; [|split].
  - intros plan i c Hrun Hi.
    rewrite split_audio_at_silence_boundaries_eq in Hrun.
    destruct (run_outcome 1000 target_chunk_duration overlap_duration max_deviation
                total_samples rate n_channels silence_boundaries ltac:(lia))
      as [(n & Hn & _ & Hend & Hpass)|[Hr _]]; [|congruence].
    rewrite Hn in Hrun. inversion Hrun; subst plan. clear Hrun Hn.
    assert (Hin : (i < n)%nat).
    { apply lookup_lt_Some in Hi. now rewrite chunks_from_length in Hi. }
    rewrite chunks_from_lookup in Hi by exact Hin. inversion Hi; subst c. simpl.
    now apply (passes_progress _ _ _ _ _ HT 0 n i).
  - intros s i target c Hmid. subst c. simpl. split; [reflexivity|].
    unfold actual_end, target_end. fold target.
    destruct (Z.geb_spec target total_samples); [lia|].
    apply find_optimal_split_point_spec.
  - intros k Hreach Hback. rewrite split_audio_at_silence_boundaries_eq.
    now apply (run_stalled 1000 target_chunk_duration overlap_duration max_deviation
                 total_samples rate n_channels silence_boundaries k).
Qed.

Lemma split_progress_witness :
  0 < 4 * 44100 /\
  split_audio_at_silence_boundaries 4 1 15 441000 44100 2 [0; 441000] = Raised TooManyChunks.
Proof.
  split; [lia|].
  refine (proj2 (proj2 (split_progress 4 1 15 441000 44100 2 [0; 441000] _)) O _ _).
  - lia.
  - intros j Hj. assert (j = O) by lia. subst j. vm_compute. reflexivity.
  - vm_compute. discriminate.
Defined.

(** C7 as stated fails: ten seconds at 44100 Hz, a target of 4 s, the
    default deviation of 15 s and the two candidates 0 and 441000.  The
    search selects the candidate 0 for the first pass, which starts at 0;
    the split point is that candidate and not the arithmetic target 176400,
    and the run ends with the chunk-count error. *)
Lemma no_fallback_counterexample :
  let c := make_chunk 4 1 15 441000 44100 2 [0; 441000] 0 0 in
  find_optimal_split_point 15 (0 + 4 * 44100) [0; 441000] 44100 = 0 /\
  start_sample c = 0 /\
  actual_split_sample c = 0 /\
  actual_split_sample c <> 0 + 4 * 44100 /\
  ~ start_sample c < actual_split_sample c /\
  split_audio_at_silence_boundaries 4 1 15 441000 44100 2 [0; 441000] = Raised TooManyChunks.
Proof.
  cbv zeta.
  split; [vm_compute; reflexivity|].
  split; [reflexivity|].
  split; [vm_compute; reflexivity|].
  split; [vm_compute; discriminate|].
  split; [vm_compute; discriminate|].
  vm_compute; reflexivity.
Qed.

(** C8 (as amended).  Every planning loop ends: it returns a plan of at most
    [cap] chunks, made of the passes up to the first one whose start is not
    below the end of the audio, or it raises the chunk-count error, and then
    the start was still below the end of the audio after [cap] chunks, so
    that one more was written.  The cap is 1000 in the silence-aware and the
    sample-accurate planner and 100 in the transcript planner.  The
    sample-accurate planner has one more way to end: after a finished loop
    of two or more chunks, the check of the overlaps can raise the
    broadcasting error.  The fuel of the model never runs out. *)
Theorem planning_terminates
    (target_chunk_duration overlap_duration max_deviation : Z)
    (total_samples rate n_channels : Z) (silence_boundaries : list Z) :
  let start := nth_start target_chunk_duration max_deviation total_samples rate
                 silence_boundaries in
  ((exists plan,
      split_audio_at_silence_boundaries target_chunk_duration overlap_duration
        max_deviation total_samples rate n_channels silence_boundaries = Done plan /\
      (length plan <= 1000)%nat /\
      total_samples <= start (length plan) /\
      forall k, (k < length plan)%nat -> start k < total_samples)
   \/ (split_audio_at_silence_boundaries target_chunk_duration overlap_duration
         max_deviation total_samples rate n_channels silence_boundaries
       = Raised TooManyChunks /\
       forall k, (k <= 1000)%nat -> start k < total_samples)) /\
  ((exists plan,
      split_audio_for_transcription target_chunk_duration overlap_duration
        max_deviation total_samples rate n_channels silence_boundaries = Done plan /\
      (length plan <= 100)%nat /\
      total_samples <= start (length plan) /\
      forall k, (k < length plan)%nat -> start k < total_samples)
   \/ (split_audio_for_transcription target_chunk_duration overlap_duration
         max_deviation total_samples rate n_channels silence_boundaries
       = Raised TooManyChunks /\
       forall k, (k <= 100)%nat -> start k < total_samples)) /\
  (forall (A : Type) (audio_data : list A),
     Z.of_nat (length audio_data) = total_samples ->
     (exists plan,
        split_audio_with_perfect_overlap audio_data target_chunk_duration overlap_duration
          rate n_channels = Done plan /\
        (length plan <= 1000)%nat /\
        total_samples <= Z.of_nat (length plan) * chunk_samples target_chunk_duration rate /\
        forall k, (k < length plan)%nat ->
                  Z.of_nat k * chunk_samples target_chunk_duration rate < total_samples)
     \/ (split_audio_with_perfect_overlap audio_data target_chunk_duration overlap_duration
           rate n_channels = Raised TooManyChunks /\
         forall k, (k <= 1000)%nat ->
                   Z.of_nat k * chunk_samples target_chunk_duration rate < total_samples)
     \/ (split_audio_with_perfect_overlap audio_data target_chunk_duration overlap_duration
           rate n_channels = Raised BroadcastError /\
         exists plan,
           perfect_loop target_chunk_duration overlap_duration total_samples rate n_channels
             1002 0 0 [] = Done plan /\
           (1 < length plan <= 1000)%nat /\
           _verify_overlaps audio_data (overlap_samples overlap_duration rate) plan = false)).
Proof.
  intros start. split; [|split].
  - rewrite split_audio_at_silence_boundaries_eq.
    destruct (run_outcome 1000 target_chunk_duration overlap_duration max_deviation
                total_samples rate n_channels silence_boundaries ltac:(lia))
      as [(n & Hn & Hcap & Hend & Hpass)|[Hr Hpass]].
    + left. eexists. split; [exact Hn|]. rewrite chunks_from_length.
      repeat split; [lia | exact Hend | exact Hpass].
    + right. split; [exact Hr|]. intros k Hk. apply Hpass. lia.
  - rewrite split_audio_for_transcription_eq.
    destruct (run_outcome 100 target_chunk_duration overlap_duration max_deviation
                total_samples rate n_channels silence_boundaries ltac:(lia))
      as [(n & Hn & Hcap & Hend & Hpass)|[Hr Hpass]].
    + left. eexists. split; [exact Hn|]. rewrite chunks_from_length.
      repeat split; [lia | exact Hend | exact Hpass].
    + right. split; [exact Hr|]. intros k Hk. apply Hpass. lia.
  - intros A audio Hlen. rewrite split_audio_with_perfect_overlap_eq, Hlen.
    destruct (perfect_loop target_chunk_duration overlap_duration total_samples rate
                n_channels 1002 0 0 []) as [plan|e|] eqn:Hrun.
    + apply perfect_done in Hrun as (n & -> & Hend & Hpass & Hcap).
      cbn [app]. rewrite perfect_chunks_length.
      assert (Hfacts :
        (n <= 1000)%nat /\
        total_samples <= Z.of_nat n * chunk_samples target_chunk_duration rate /\
        forall k, (k < n)%nat ->
                  Z.of_nat k * chunk_samples target_chunk_duration rate < total_samples).
      { split; [lia|]. split; [lia|]. intros k Hk. specialize (Hpass k Hk). lia. }
      destruct (Nat.ltb_spec 1 n) as [Hmany|Hfew].
      * destruct (_verify_overlaps audio (overlap_samples overlap_duration rate) _) eqn:Hv.
        -- left. eexists. split; [reflexivity|]. now rewrite perfect_chunks_length.
        -- right. right. split; [reflexivity|]. eexists. split; [reflexivity|].
           rewrite perfect_chunks_length. split; [lia|exact Hv].
      * left. eexists. split; [reflexivity|]. now rewrite perfect_chunks_length.
    + right. left. apply perfect_raised in Hrun as [-> Hpass]. split; [reflexivity|].
      intros k Hk. specialize (Hpass k). lia.
    + exfalso. revert Hrun. apply perfect_fuel. lia.
Qed.

Lemma planning_terminates_witness :
  Z.of_nat (length [1; 2; 3]) = 3 /\
  exists r, split_audio_with_perfect_overlap [1; 2; 3] 2 1 1 1 = r /\ r <> OutOfFuel.
Proof.
  split; [reflexivity|].
  destruct (proj2 (proj2 (planning_terminates 2 1 0 3 1 1 [])) Z [1; 2; 3] eq_refl)
    as [(plan & H & _)|[[H _]|[H _]]]; eexists; (split; [exact H|discriminate]).
Defined.

(** C8 as stated fails for the transcript planner, whose cap is 100: on 101
    samples at 1 Hz with one-second chunks the loop would end after 101
    passes, the silence-aware planner returns the 101 chunks, and the
    transcript planner raises the chunk-count error. *)
Lemma transcript_cap_counterexample :
  split_audio_for_transcription 1 0 0 101 1 1 [] = Raised TooManyChunks /\
  101 <= nth_start 1 0 101 1 [] 101 /\
  (exists plan, split_audio_at_silence_boundaries 1 0 0 101 1 1 [] = Done plan /\
                length plan = 101%nat).
Proof.
  split; [vm_compute; reflexivity|]. split; [vm_compute; discriminate|].
  eexists. split; [vm_compute; reflexivity|]. reflexivity.
Qed.

End PlannerFacts.

(** ** The stitchers *)

Module StitcherFacts.
Import Stitcher.

Section StitchFacts.
Variable sample : Type.
Variable scale : Q -> sample -> sample.

Local Abbreviation wav := (Stitcher.wav sample).
Local Abbreviation ndarray := (Stitcher.ndarray sample).
Local Abbreviation trim_and_fade := (Stitcher.trim_and_fade sample scale).
Local Abbreviation fade_in := (Stitcher.fade_in sample scale).
Local Abbreviation pieces := (Stitcher.pieces sample scale).
Local Abbreviation kept_rows := (Stitcher.kept_rows sample scale).
Local Abbreviation collect := (Stitcher.collect sample scale).
Local Abbreviation stitch_ml := (Stitcher._stitch_ml_chunks_no_crossfade sample scale).

(** The loop appends the pieces of the chunks it reads and keeps the rate
    of the first chunk. *)
Lemma collect_pieces (fs : gmap string wav) ov : forall files wavs i acc rate,
  Forall2 (fun f w => fs !! f = Some w) files wavs ->
  collect fs ov i files acc rate =
    Done (acc ++ pieces ov i wavs,
          match rate with
          | Some r => Some r
          | None => wav_rate <$> head wavs
          end).
Proof.
  induction files as [|f files IH]; intros wavs i acc rate Hall.
  - inversion Hall; subst. simpl. rewrite app_nil_r. now destruct rate.
  - inversion Hall as [|? w ? ws Hf Hrest]; subst. simpl. rewrite Hf.
    rewrite (IH ws) by exact Hrest. f_equal. f_equal.
    + destruct i; [now rewrite <- app_assoc|].
      destruct (trim_and_fade ov (wav_data w) (wav_rate w)); simpl;
        [now rewrite <- app_assoc | reflexivity].
    + now destruct rate.
Qed.

Lemma fade_in_ncols a sr : ncols (fade_in a sr) = ncols a.
Proof. unfold Stitcher.fade_in. now destruct (_ >? 0). Qed.

Lemma fade_in_length a sr : length (rows (fade_in a sr)) = length (rows a).
Proof.
  unfold Stitcher.fade_in. destruct (_ >? 0); [|reflexivity].
  simpl. now rewrite length_imap.
Qed.

(** After the fade the row [j] is the row [j] of the trimmed data, scaled by
    the [j]-th point of the curve while [j] is below the fade length. *)
Lemma fade_in_lookup a sr j :
  rows (fade_in a sr) !! j =
  (fun row => if Z.of_nat j <? fade_samples a sr
              then List.map (scale (linspace01 (fade_samples a sr) (Z.of_nat j))) row
              else row) <$> rows a !! j.
Proof.
  unfold Stitcher.fade_in.
  destruct (Z.gtb_spec (fade_samples a sr) 0) as [Hpos|Hnone].
  - simpl. now rewrite list_lookup_imap.
  - destruct (rows a !! j) as [row|] eqn:Hj; simpl; [|reflexivity].
    destruct (Z.ltb_spec (Z.of_nat j) (fade_samples a sr)); [lia|reflexivity].
Qed.

Lemma trim_and_fade_ncols ov data sr a :
  trim_and_fade ov data sr = Some a -> ncols a = ncols data.
Proof.
  unfold Stitcher.trim_and_fade. destruct (_ >? _); [|discriminate].
  intros H. inversion H. now rewrite fade_in_ncols.
Qed.

(** With a non-negative overlap a chunk keeps the frames after the overlap,
    and none when it is not longer than the overlap. *)
Lemma kept_rows_length ov (w : wav) :
  0 <= ov * wav_rate w ->
  Z.of_nat (length (kept_rows ov w)) =
    Z.max 0 (shape0 (wav_data w) - ov * wav_rate w).
Proof.
  intros Hov. unfold Stitcher.kept_rows, Stitcher.trim_and_fade.
  destruct (Z.gtb_spec (shape0 (wav_data w)) (ov * wav_rate w)) as [Hlong|Hshort].
  - rewrite fade_in_length. simpl.
    unfold shape0 in *. rewrite slice_from_in_range by lia.
    rewrite length_drop. lia.
  - simpl. lia.
Qed.

(** The kept rows are the rows of the chunk after the overlap; only the
    rows of the fade are scaled. *)
Lemma kept_rows_lookup ov (w : wav) a j :
  0 <= ov * wav_rate w ->
  trim_and_fade ov (wav_data w) (wav_rate w) = Some a ->
  rows a !! j =
  (fun row => if Z.of_nat j <? fade_samples a (wav_rate w)
              then List.map (scale (linspace01 (fade_samples a (wav_rate w)) (Z.of_nat j))) row
              else row) <$> rows (wav_data w) !! (Z.to_nat (ov * wav_rate w) + j)%nat.
Proof.
  intros Hov. unfold Stitcher.trim_and_fade.
  destruct (Z.gtb_spec (shape0 (wav_data w)) (ov * wav_rate w)) as [Hlong|Hshort];
    [|discriminate].
  intros H. inversion H as [Ha]. clear H.
  set (t := mk_array (Py.slice_from (rows (wav_data w)) (ov * wav_rate w))
                     (ncols (wav_data w))) in *.
  rewrite fade_in_lookup.
  assert (Hfs : fade_samples (fade_in t (wav_rate w)) (wav_rate w) = fade_samples t (wav_rate w)).
  { unfold fade_samples, shape0. now rewrite fade_in_length. }
  rewrite Hfs. f_equal. unfold t. simpl.
  unfold shape0 in Hlong. rewrite slice_from_in_range by lia.
  apply lookup_drop.
Qed.

Lemma pieces_rows ov : forall wavs i,
  concat (List.map rows (pieces ov (S i) wavs)) = concat (List.map (kept_rows ov) wavs).
Proof.
  induction wavs as [|w wavs IH]; intros i; simpl; [reflexivity|].
  rewrite List.map_app, concat_app, IH. f_equal. unfold Stitcher.kept_rows.
  destruct (trim_and_fade ov (wav_data w) (wav_rate w)); simpl;
    [now rewrite app_nil_r | reflexivity].
Qed.

Lemma pieces_ncols ov ch : forall wavs i,
  (forall w, In w wavs -> ncols (wav_data w) = ch) ->
  forallb (fun b => ncols b =? ch) (pieces ov (S i) wavs) = true.
Proof.
  induction wavs as [|w wavs IH]; intros i Hch; simpl; [reflexivity|].
  rewrite forallb_app, IH by (intros; apply Hch; now right).
  rewrite andb_true_r.
  destruct (trim_and_fade ov (wav_data w) (wav_rate w)) as [a|] eqn:Ha; simpl;
    [|reflexivity].
  rewrite (trim_and_fade_ncols _ _ _ _ Ha), (Hch w) by now left.
  now rewrite Z.eqb_refl.
Qed.

(** Only the chunks that are longer than the overlap reach the stacking. *)
Lemma pieces_ncols_long ov ch : forall wavs i,
  (forall w, In w wavs -> shape0 (wav_data w) > ov * wav_rate w ->
             ncols (wav_data w) = ch) ->
  forallb (fun b => ncols b =? ch) (pieces ov (S i) wavs) = true.
Proof.
  induction wavs as [|w wavs IH]; intros i Hch; simpl; [reflexivity|].
  rewrite forallb_app, IH by (intros; apply Hch; [now right|assumption]).
  rewrite andb_true_r.
  destruct (trim_and_fade ov (wav_data w) (wav_rate w)) as [a|] eqn:Ha; simpl;
    [|reflexivity].
  rewrite (trim_and_fade_ncols _ _ _ _ Ha). rewrite (Hch w).
  - now rewrite Z.eqb_refl.
  - now left.
  - unfold Stitcher.trim_and_fade in Ha.
    destruct (Z.gtb_spec (shape0 (wav_data w)) (ov * wav_rate w)); [lia|discriminate].
Qed.

Lemma pieces_mismatch ov ch : forall wavs i w,
  In w wavs ->
  shape0 (wav_data w) > ov * wav_rate w ->
  ncols (wav_data w) <> ch ->
  forallb (fun b => ncols b =? ch) (pieces ov (S i) wavs) = false.
Proof.
  induction wavs as [|v wavs IH]; intros i w Hin Hlong Hne; [destruct Hin|].
  simpl. rewrite forallb_app. destruct Hin as [->|Hin].
  - unfold Stitcher.trim_and_fade.
    destruct (Z.gtb_spec (shape0 (wav_data w)) (ov * wav_rate w)); [|lia].
    simpl. rewrite fade_in_ncols. simpl.
    destruct (Z.eqb_spec (ncols (wav_data w)) ch); [contradiction|reflexivity].
  - rewrite (IH (S i) w Hin Hlong Hne). apply andb_false_r.
Qed.

Lemma kept_rows_total ov sr : forall wavs,
  0 <= ov * sr ->
  (forall w, In w wavs -> wav_rate w = sr) ->
  Z.of_nat (length (concat (List.map (kept_rows ov) wavs))) =
    foldr Z.add 0 (List.map (fun w => Z.max 0 (shape0 (wav_data w) - ov * sr)) wavs).
Proof.
  intros wavs Hov. induction wavs as [|w wavs IH]; intros Hsr; simpl; [reflexivity|].
  rewrite length_app, Nat2Z.inj_add, IH by (intros; apply Hsr; now right).
  rewrite kept_rows_length; rewrite (Hsr w) by now left.
  - reflexivity.
  - exact Hov.
Qed.

(** The outcome of the trim-and-fade stitcher on chunks that are all
    found. *)
Lemma stitch_ml_outcome (fs : gmap string wav) ov f0 w0 files wavs out :
  fs !! f0 = Some w0 ->
  Forall2 (fun f w => fs !! f = Some w) files wavs ->
  stitch_ml ov fs (f0 :: files) out =
    if forallb (fun b => ncols b =? ncols (wav_data w0)) (pieces ov 1 wavs)
    then Done (<[out := mk_wav (mk_array (rows (wav_data w0) ++
                                          concat (List.map (kept_rows ov) wavs))
                                         (ncols (wav_data w0)))
                               (wav_rate w0)]> fs)
    else Raised VStackShapeMismatch.
Proof.
  intros H0 Hall. unfold Stitcher._stitch_ml_chunks_no_crossfade.
  rewrite (collect_pieces fs ov (f0 :: files) (w0 :: wavs)) by now constructor.
  simpl. destruct (forallb _ _); [|reflexivity].
  now rewrite pieces_rows.
Qed.

(** C3 (as amended).  On a non-empty list of chunks that share the sample
    rate and the channel count, with a non-negative overlap, the
    trim-and-fade stitcher writes the first chunk whole, followed, for every
    later chunk that is longer than [overlap_samples], by its rows after the
    first [overlap_samples]; a later chunk that is not longer than the
    overlap is skipped.  The frame count of the output is
    [frames(chunk 0) + sum over k > 0 of max(0, frames(chunk k) -
    overlap_samples)].  The kept rows are unchanged but for the rows of the
    fade, which are scaled by the points of the curve. *)
Theorem trim_and_fade_reassembly (fs : gmap string wav) (overlap_duration : Z)
    (f0 : string) (w0 : wav) (files : list string) (wavs : list wav)
    (output_file : string) (sr ch : Z) :
  fs !! f0 = Some w0 ->
  Forall2 (fun f w => fs !! f = Some w) files wavs ->
  (forall w, In w (w0 :: wavs) -> wav_rate w = sr /\ ncols (wav_data w) = ch) ->
  0 <= overlap_duration * sr ->
  exists final,
    stitch_ml overlap_duration fs (f0 :: files) output_file =
      Done (<[output_file := mk_wav final sr]> fs) /\
    ncols final = ch /\
    rows final = rows (wav_data w0) ++ concat (List.map (kept_rows overlap_duration) wavs) /\
    shape0 final =
      shape0 (wav_data w0) +
      foldr Z.add 0
        (List.map (fun w => Z.max 0 (shape0 (wav_data w) - overlap_duration * sr)) wavs) /\
    (forall w, In w wavs ->
       Z.of_nat (length (kept_rows overlap_duration w)) =
         Z.max 0 (shape0 (wav_data w) - overlap_duration * sr)) /\
    (forall w a j, In w wavs ->
       trim_and_fade overlap_duration (wav_data w) sr = Some a ->
       rows a !! j =
       (fun row => if Z.of_nat j <? fade_samples a sr
                   then List.map (scale (linspace01 (fade_samples a sr) (Z.of_nat j))) row
                   else row)
         <$> rows (wav_data w) !! (Z.to_nat (overlap_duration * sr) + j)%nat).
Proof.
  intros H0 Hall Hsame Hov.
  assert (Hsr0 : wav_rate w0 = sr) by (apply Hsame; now left).
  assert (Hch0 : ncols (wav_data w0) = ch) by (apply Hsame; now left).
  assert (Hsr : forall w, In w wavs -> wav_rate w = sr)
    by (intros w Hw; apply Hsame; now right).
  exists (mk_array (rows (wav_data w0) ++ concat (List.map (kept_rows overlap_duration) wavs)) ch).
  split; [|split; [reflexivity|split; [reflexivity|split; [|split]]]].
  - rewrite (stitch_ml_outcome fs overlap_duration f0 w0 files wavs) by assumption.
    rewrite pieces_ncols by (intros w Hw; rewrite Hch0; apply Hsame; now right).
    now rewrite Hsr0, Hch0.
  - unfold shape0 at 1. simpl. rewrite length_app, Nat2Z.inj_add.
    now rewrite (kept_rows_total overlap_duration sr).
  - intros w Hw. pose proof (kept_rows_length overlap_duration w) as H.
    rewrite (Hsr w Hw) in H. now apply H.
  - intros w a j Hw Ha. pose proof (kept_rows_lookup overlap_duration w a j) as H.
    rewrite (Hsr w Hw) in H. now apply H.
Qed.

(** C6 (as amended).  The trim-and-fade stitcher does not fail when the
    chunks disagree on the sample rate: with chunks that are all found, and
    every later chunk that is longer than its overlap having the channel
    count of the first, it completes, whatever the rates, and writes the
    first chunk followed by the kept rows of the later ones at the rate of
    the first chunk.  It fails, with the error of the stacking and without
    an output, when a later chunk that is longer than its overlap has
    another channel count than the first.  Two or more chunks given to
    [AudioStitcher.stitch_chunks_with_crossfade] go through this stitcher.
    [AudioChunker.stitch_chunks_with_crossfade] compares no formats: given
    two or more chunks, its outcome is that of the ffmpeg run on them. *)
Theorem format_mismatch_handling (fs : gmap string wav) (overlap_duration : Z)
    (f0 : string) (w0 : wav) (files : list string) (wavs : list wav)
    (output_file : string)
    (ffmpeg : gmap string wav -> list string -> Z -> string -> outcome (gmap string wav)) :
  fs !! f0 = Some w0 ->
  Forall2 (fun f w => fs !! f = Some w) files wavs ->
  ((forall w, In w wavs -> shape0 (wav_data w) > overlap_duration * wav_rate w ->
              ncols (wav_data w) = ncols (wav_data w0)) ->
   stitch_ml overlap_duration fs (f0 :: files) output_file =
     Done (<[output_file :=
               mk_wav (mk_array (rows (wav_data w0) ++
                                 concat (List.map (kept_rows overlap_duration) wavs))
                                (ncols (wav_data w0)))
                      (wav_rate w0)]> fs)) /\
  ((exists w, In w wavs /\ shape0 (wav_data w) > overlap_duration * wav_rate w /\
              ncols (wav_data w) <> ncols (wav_data w0)) ->
   stitch_ml overlap_duration fs (f0 :: files) output_file = Raised VStackShapeMismatch) /\
  (forall f1 rest,
     Stitcher.stitch_chunks_with_crossfade sample scale overlap_duration fs
       (f0 :: f1 :: rest) output_file =
     stitch_ml overlap_duration fs (f0 :: f1 :: rest) output_file) /\
  (forall f1 rest,
     Stitcher.chunker_stitch_chunks_with_crossfade sample ffmpeg overlap_duration fs
       (f0 :: f1 :: rest) output_file =
     ffmpeg fs (f0 :: f1 :: rest) overlap_duration output_file).
Proof.
  intros H0 Hall. split; [|split; [|split]].
  - intros Hch.
    rewrite (stitch_ml_outcome fs overlap_duration f0 w0 files wavs) by assumption.
    now rewrite pieces_ncols_long by exact Hch.
  - intros (w & Hw & Hlong & Hne).
    rewrite (stitch_ml_outcome fs overlap_duration f0 w0 files wavs) by assumption.
    now rewrite (pieces_mismatch overlap_duration _ wavs 0%nat w).
  - reflexivity.
  - reflexivity.
Qed.

(** C10.  Given one chunk that exists, and an output path that is not the
    path of the chunk, both stitchers copy the chunk: they complete, and the
    output file then holds the content of the chunk, data and rate,
    unchanged. *)
Theorem single_chunk_identity (fs : gmap string wav) (overlap_duration : Z)
    (chunk_file output_file : string) (w : wav)
    (ffmpeg : gmap string wav -> list string -> Z -> string -> outcome (gmap string wav)) :
  fs !! chunk_file = Some w ->
  chunk_file <> output_file ->
  exists fs',
    Stitcher.stitch_chunks_with_crossfade sample scale overlap_duration fs
      [chunk_file] output_file = Done fs' /\
    Stitcher.chunker_stitch_chunks_with_crossfade sample ffmpeg overlap_duration fs
      [chunk_file] output_file = Done fs' /\
    fs' !! output_file = Some w /\
    fs' !! chunk_file = Some w.
Proof.
  intros Hx Hne. exists (<[output_file := w]> fs).
  unfold Stitcher.stitch_chunks_with_crossfade, Stitcher.chunker_stitch_chunks_with_crossfade,
    copy2.
  apply String.eqb_neq in Hne. rewrite Hne, Hx.
  apply String.eqb_neq in Hne.
  repeat split.
  - apply lookup_insert_eq.
  - rewrite lookup_insert_ne by congruence. exact Hx.
Qed.

End StitchFacts.

Lemma trim_and_fade_reassembly_witness :
  let w0 := mk_wav (mk_array [[1%Q]; [2%Q]; [3%Q]] 1) 1 in
  let w1 := mk_wav (mk_array [[4%Q]; [5%Q]; [6%Q]] 1) 1 in
  let fs : gmap string (Stitcher.wav Q) := <["b" := w1]> (<["a" := w0]> ∅) in
  exists final,
    Stitcher._stitch_ml_chunks_no_crossfade Q Qmult 2 fs ["a"; "b"]%string "out" =
      Done (<["out"%string := mk_wav final 1]> fs) /\
    shape0 final = 3 + (Z.max 0 (3 - 2 * 1) + 0).
Proof.
  intros w0 w1 fs.
  destruct (trim_and_fade_reassembly Q Qmult fs 2 "a" w0 ["b"%string] [w1] "out" 1 1)
    as (final & Hrun & _ & _ & Hshape & _).
  - reflexivity.
  - repeat constructor.
  - intros w [<-|[<-|[]]]; split; reflexivity.
  - lia.
  - exists final. split; [exact Hrun | exact Hshape].
Defined.

(** C3 as stated fails when a later chunk is shorter than the overlap: with
    a first chunk of five frames, a second chunk of one frame and an overlap
    of two samples the output has five frames, not [5 + (1 - 2)]. *)
Lemma short_chunk_counterexample :
  let w0 := mk_wav (mk_array [[1%Q]; [2%Q]; [3%Q]; [4%Q]; [5%Q]] 1) 1 in
  let w1 := mk_wav (mk_array [[6%Q]] 1) 1 in
  let fs : gmap string (Stitcher.wav Q) := <["b" := w1]> (<["a" := w0]> ∅) in
  match Stitcher._stitch_ml_chunks_no_crossfade Q Qmult 2 fs ["a"; "b"]%string "out" with
  | Done fs' =>
      (shape0 ∘ wav_data) <$> fs' !! "out"%string = Some 5 /\
      5 <> shape0 (wav_data w0) + (shape0 (wav_data w1) - 2 * 1)
  | _ => False
  end.
Proof.
  vm_compute. split; [reflexivity|discriminate].
Qed.

Lemma format_mismatch_handling_witness :
  let w0 := mk_wav (mk_array [[1%Q]; [2%Q]] 1) 44100 in
  let w1 := mk_wav (mk_array [[3%Q]; [4%Q]] 1) 48000 in
  let w2 := mk_wav (mk_array [[5%Q; 5%Q]; [6%Q; 6%Q]] 2) 44100 in
  let fs : gmap string (Stitcher.wav Q) :=
    <["c" := w2]> (<["b" := w1]> (<["a" := w0]> ∅)) in
  wav_rate w0 <> wav_rate w1 /\
  ncols (wav_data w0) <> ncols (wav_data w2) /\
  Stitcher.stitch_chunks_with_crossfade Q Qmult 0 fs ["a"; "b"]%string "out" =
    Done (<["out"%string :=
              mk_wav (mk_array [[1%Q]; [2%Q]; [0 * 3]%Q; [4%Q]] 1) 44100]> fs) /\
  Stitcher.stitch_chunks_with_crossfade Q Qmult 0 fs ["a"; "c"]%string "out" =
    Raised VStackShapeMismatch.
Proof.
  intros w0 w1 w2 fs.
  split; [discriminate|]. split; [discriminate|]. split.
  - pose proof (format_mismatch_handling Q Qmult fs 0 "a" w0 ["b"%string] [w1] "out"
                  (fun _ _ _ _ => Raised ExternalFailure) eq_refl
                  ltac:(repeat constructor))
      as (Hdone & _ & Hentry & _).
    rewrite Hentry. rewrite Hdone.
    + reflexivity.
    + intros w [<-|[]] _. reflexivity.
  - pose proof (format_mismatch_handling Q Qmult fs 0 "a" w0 ["c"%string] [w2] "out"
                  (fun _ _ _ _ => Raised ExternalFailure) eq_refl
                  ltac:(repeat constructor))
      as (_ & Hraise & Hentry & _).
    rewrite Hentry. apply Hraise.
    exists w2. split; [now left|]. split; [reflexivity|discriminate].
Defined.

(** C6 as stated fails: two one-channel chunks, the first at 44100 Hz and
    the second at 48000 Hz, are stitched without an error, and the output
    is written at 44100 Hz. *)
Lemma rate_mismatch_counterexample :
  let w0 := mk_wav (mk_array [[1%Q]; [2%Q]] 1) 44100 in
  let w1 := mk_wav (mk_array [[3%Q]; [4%Q]] 1) 48000 in
  let fs : gmap string (Stitcher.wav Q) := <["b" := w1]> (<["a" := w0]> ∅) in
  wav_rate w0 <> wav_rate w1 /\
  match Stitcher.stitch_chunks_with_crossfade Q Qmult 0 fs ["a"; "b"]%string "out" with
  | Done fs' =>
      wav_rate <$> fs' !! "out"%string = Some 44100 /\
      (shape0 ∘ wav_data) <$> fs' !! "out"%string = Some 4
  | _ => False
  end.
Proof.
  vm_compute. split; [discriminate|]. split; reflexivity.
Qed.

Lemma single_chunk_identity_witness :
  let w := mk_wav (mk_array [[1%Q]; [2%Q]] 1) 44100 in
  let fs : gmap string (Stitcher.wav Q) := <["a" := w]> ∅ in
  exists fs',
    Stitcher.stitch_chunks_with_crossfade Q Qmult 2 fs ["a"]%string "out" = Done fs' /\
    fs' !! "out"%string = Some w.
Proof.
  intros w fs.
  destruct (single_chunk_identity Q Qmult fs 2 "a" "out" w
              (fun _ _ _ _ => Raised ExternalFailure))
    as (fs' & H1 & _ & H2 & _).
  - reflexivity.
  - discriminate.
  - exists fs'. split; [exact H1 | exact H2].
Defined.

End StitcherFacts.

(** ** Speaker lookup and regrouping *)

Module DiarizationFacts.
Import Diarization.

Lemma Qltb_lt x y : Py.Qltb x y = true <-> (x < y)%Q.
Proof.
  unfold Py.Qltb. rewrite negb_true_iff. split.
  - intros H. apply Qnot_le_lt. intros Hle. apply Qle_bool_iff in Hle. congruence.
  - intros H. destruct (Qle_bool y x) eqn:E; [|reflexivity].
    apply Qle_bool_iff in E. exfalso. exact (Qlt_not_le _ _ H E).
Qed.

Lemma Qltb_ge x y : Py.Qltb x y = false <-> (y <= x)%Q.
Proof.
  unfold Py.Qltb. rewrite negb_false_iff. apply Qle_bool_iff.
Qed.

Lemma Qleb_le x y : Py.Qleb x y = true <-> (x <= y)%Q.
Proof. apply Qle_bool_iff. Qed.

Section MinByQ.
Context {A : Type}.
Variable key : A -> Q.

Local Abbreviation step := (fun best y => if Py.Qltb (key y) (key best) then y else best).

Lemma min_by_Q_fold : forall rest pre best mid,
  (forall y, In y pre -> (key best < key y)%Q) ->
  (forall y, In y mid -> (key best <= key y)%Q) ->
  exists pre' post',
    pre ++ best :: mid ++ rest = pre' ++ fold_left step rest best :: post' /\
    (forall y, In y pre' -> (key (fold_left step rest best) < key y)%Q) /\
    (forall y, In y post' -> (key (fold_left step rest best) <= key y)%Q).
Proof.
  induction rest as [|z rest IH]; intros pre best mid Hpre Hmid; simpl.
  - exists pre, mid. rewrite app_nil_r. auto.
  - destruct (Py.Qltb (key z) (key best)) eqn:E.
    + apply Qltb_lt in E.
      destruct (IH (pre ++ best :: mid) z []) as (pre' & post' & Heq & H1 & H2).
      * intros y Hy. apply in_app_or in Hy as [Hy|[<-|Hy]].
        -- eapply Qlt_trans; [exact E|now apply Hpre].
        -- exact E.
        -- eapply Qlt_le_trans; [exact E|now apply Hmid].
      * intros y [].
      * exists pre', post'. split; [|auto].
        rewrite <- Heq. simpl. now rewrite <- app_assoc.
    + apply Qltb_ge in E.
      destruct (IH pre best (mid ++ [z])) as (pre' & post' & Heq & H1 & H2).
      * exact Hpre.
      * intros y Hy. apply in_app_or in Hy as [Hy|[<-|[]]]; [now apply Hmid|exact E].
      * exists pre', post'. split; [|auto].
        rewrite <- Heq. now rewrite <- app_assoc.
Qed.

(** [min] returns an element with the least key, and the first of these. *)
Lemma min_by_Q_first (x : A) (rest : list A) :
  exists pre post,
    x :: rest = pre ++ Py.min_by Py.Qltb key x rest :: post /\
    (forall y, In y pre -> (key (Py.min_by Py.Qltb key x rest) < key y)%Q) /\
    (forall y, In y post -> (key (Py.min_by Py.Qltb key x rest) <= key y)%Q).
Proof.
  destruct (min_by_Q_fold rest [] x []) as (pre & post & Heq & H1 & H2);
    [intros y []|intros y []|].
  exists pre, post. auto.
Qed.
End MinByQ.

Lemma first_covering_none segs t :
  (forall y, In y segs -> covers t y = false) -> first_covering segs t = None.
Proof.
  induction segs as [|s segs IH]; intros H; simpl; [reflexivity|].
  rewrite (H s) by now left. apply IH. intros y Hy. apply H. now right.
Qed.

Lemma first_covering_first pre s post t :
  covers t s = true ->
  (forall y, In y pre -> covers t y = false) ->
  first_covering (pre ++ s :: post) t = Some s.
Proof.
  intros Hs. induction pre as [|p pre IH]; intros H; simpl.
  - now rewrite Hs.
  - rewrite (H p) by now left. apply IH. intros y Hy. apply H. now right.
Qed.

Lemma first_covering_In segs t s : first_covering segs t = Some s -> In s segs.
Proof.
  induction segs as [|x segs IH]; simpl; [discriminate|].
  destruct (covers t x); [intros H; inversion H; now left|]. intros H. right. now apply IH.
Qed.

(** On a list that is not empty the lookup returns the speaker of one of
    its segments. *)
Lemma find_speaker_of_segment (fl : Q -> Q) segs t :
  segs <> [] ->
  exists s, In s segs /\ find_speaker_at_time fl segs t = get_speaker s.
Proof.
  intros Hne. unfold find_speaker_at_time.
  destruct (first_covering segs t) as [s|] eqn:E.
  - exists s. split; [now apply first_covering_In in E|reflexivity].
  - destruct segs as [|s0 rest]; [contradiction|].
    destruct (min_by_Q_first (edge_distance fl t) s0 rest) as (pre & post & Heq & _).
    eexists. split; [|reflexivity]. rewrite Heq. apply in_or_app. right. now left.
Qed.

(** C4 (as amended).  The speaker lookup resolves in this order: the speaker
    of the first segment with [start_time <= t <= end_time]; when no segment
    covers [t] and the list is not empty, the speaker of the segment whose
    nearer edge is closest to [t] in the distances that the code computes,
    each the absolute value of a float subtraction, the earliest one among
    the segments of equal computed distance; and the label UNKNOWN for the
    empty list.  On a list that is not empty the result is the speaker of
    one of its segments, read with the default UNKNOWN: it is UNKNOWN only
    when that segment has no speaker entry or is labelled UNKNOWN, so when
    every segment carries a speaker other than UNKNOWN, the result is
    UNKNOWN exactly for the empty list. *)
Theorem find_speaker_resolution (fl : Q -> Q) (segments : list segment) (t : Q) :
  (forall s, covers t s = true <-> (get_start_time s <= t /\ t <= get_end_time s)%Q) /\
  (forall s, (edge_distance fl t s == Qmin (Qabs (fl (t - get_start_time s)))
                                            (Qabs (fl (t - get_end_time s))))%Q) /\
  (forall pre s post,
     segments = pre ++ s :: post ->
     covers t s = true ->
     (forall y, In y pre -> covers t y = false) ->
     find_speaker_at_time fl segments t = get_speaker s) /\
  ((forall y, In y segments -> covers t y = false) ->
   segments <> [] ->
   exists pre s post,
     segments = pre ++ s :: post /\
     find_speaker_at_time fl segments t = get_speaker s /\
     (forall y, In y pre -> (edge_distance fl t s < edge_distance fl t y)%Q) /\
     (forall y, In y post -> (edge_distance fl t s <= edge_distance fl t y)%Q)) /\
  (segments = [] -> find_speaker_at_time fl segments t = UNKNOWN) /\
  (segments <> [] ->
   exists s, In s segments /\ find_speaker_at_time fl segments t = get_speaker s /\
             (find_speaker_at_time fl segments t = UNKNOWN ->
              speaker s = None \/ speaker s = Some UNKNOWN)) /\
  ((forall s, In s segments -> get_speaker s <> UNKNOWN) ->
   (find_speaker_at_time fl segments t = UNKNOWN <-> segments = [])).
Proof.
  split; [|split; [|split; [|split; [|split; [|split]]]]].
  - intros s. unfold covers. rewrite andb_true_iff, !Qleb_le. reflexivity.
  - intros s. unfold edge_distance.
    destruct (Py.Qltb (Qabs (fl (t - get_end_time s)%Q))
                      (Qabs (fl (t - get_start_time s)%Q))) eqn:E.
    + apply Qltb_lt in E. symmetry. apply Q.min_r. now apply Qlt_le_weak.
    + apply Qltb_ge in E. symmetry. now apply Q.min_l.
  - intros pre s post -> Hs Hpre. unfold find_speaker_at_time.
    now rewrite (first_covering_first pre s post t Hs Hpre).
  - intros Hnone Hne. unfold find_speaker_at_time.
    rewrite (first_covering_none _ _ Hnone).
    destruct segments as [|s0 rest]; [contradiction|].
    destruct (min_by_Q_first (edge_distance fl t) s0 rest) as (pre & post & Heq & H1 & H2).
    exists pre, (Py.min_by Py.Qltb (edge_distance fl t) s0 rest), post. auto.
  - intros ->. reflexivity.
  - intros Hne. destruct (find_speaker_of_segment fl segments t Hne) as (s & Hs & E).
    exists s. split; [exact Hs|]. split; [exact E|].
    rewrite E. unfold get_speaker. destruct (speaker s) as [l|]; simpl; [|now left].
    intros ->. now right.
  - intros Hlab. split; [|intros ->; reflexivity].
    intros Hu. destruct segments as [|s0 rest]; [reflexivity|exfalso].
    destruct (find_speaker_of_segment fl (s0 :: rest) t ltac:(discriminate))
      as (s & Hs & E).
    apply (Hlab s Hs). now rewrite <- E.
Qed.

(** The segments A on [0, 0.01] and B on [0.27, 5.27] and the time 0.14, as
    doubles: both computed distances are the double 0.13, and the earlier
    segment wins, although the exact distance to B is the smaller one.  The
    time 4.7 is covered by A on [0, 5]. *)
Lemma find_speaker_resolution_witness :
  let fl := PyFloat.binary64 in
  let a := mk_segment (Some "A"%string) (Some 0%Q) (Some (fl (1 # 100))) in
  let b := mk_segment (Some "B"%string) (Some (fl (27 # 100))) (Some (fl (527 # 100))) in
  let t := fl (14 # 100) in
  let a' := mk_segment (Some "A"%string) (Some 0%Q) (Some 5%Q) in
  let b' := mk_segment (Some "B"%string) (Some 5%Q) (Some 10%Q) in
  (forall y, In y [a; b] -> covers t y = false) /\
  (edge_distance fl t a == edge_distance fl t b)%Q /\
  (get_start_time b - t < t - get_end_time a)%Q /\
  find_speaker_at_time fl [a; b] t = "A"%string /\
  (exists pre s post,
     [a; b] = pre ++ s :: post /\
     find_speaker_at_time fl [a; b] t = get_speaker s /\
     (forall y, In y pre -> (edge_distance fl t s < edge_distance fl t y)%Q) /\
     (forall y, In y post -> (edge_distance fl t s <= edge_distance fl t y)%Q)) /\
  find_speaker_at_time fl [a'; b'] (fl (47 # 10)) = "A"%string /\
  (find_speaker_at_time fl [a; b] t = UNKNOWN <-> [a; b] = []).
Proof.
  intros fl a b t a' b'.
  assert (Hnone : forall y, In y [a; b] -> covers t y = false).
  { intros y [<-|[<-|[]]]; vm_compute; reflexivity. }
  split; [exact Hnone|]. split; [vm_compute; reflexivity|].
  split; [vm_compute; reflexivity|]. split; [vm_compute; reflexivity|].
  split; [|split].
  - exact (proj1 (proj2 (proj2 (proj2 (find_speaker_resolution fl [a; b] t))))
             Hnone ltac:(discriminate)).
  - refine (proj1 (proj2 (proj2 (find_speaker_resolution fl [a'; b'] (fl (47 # 10)))))
              [] a' [b'] eq_refl _ _).
    + vm_compute. reflexivity.
    + intros y [].
  - apply (proj2 (proj2 (proj2 (proj2 (proj2 (proj2
             (find_speaker_resolution fl [a; b] t))))))).
    intros s [<-|[<-|[]]]; vm_compute; discriminate.
Defined.

(** C4 as stated fails in two places.  On a list that is not empty the
    result is UNKNOWN when the segment found has no speaker entry: the
    default of the reader applies.  And the segment of the least computed
    distance is not always the one whose nearer edge is closest: for A on
    [0, 0.01], B on [0.27, 5.27] and the time 0.14, all doubles, no segment
    covers the time and the edge of B is strictly nearer, yet both float
    subtractions return the double 0.13 and the lookup returns A. *)
Lemma resolution_counterexample :
  let fl := PyFloat.binary64 in
  let s := mk_segment None (Some 0%Q) (Some 1%Q) in
  let a := mk_segment (Some "A"%string) (Some 0%Q) (Some (fl (1 # 100))) in
  let b := mk_segment (Some "B"%string) (Some (fl (27 # 100))) (Some (fl (527 # 100))) in
  let t := fl (14 # 100) in
  (find_speaker_at_time fl [s] (1 # 2) = UNKNOWN /\ [s] <> []) /\
  (covers t a = false /\ covers t b = false /\
   (Qmin (Qabs (t - get_start_time b)) (Qabs (t - get_end_time b)) <
    Qmin (Qabs (t - get_start_time a)) (Qabs (t - get_end_time a)))%Q /\
   find_speaker_at_time fl [a; b] t = "A"%string /\
   find_speaker_at_time fl [a; b] t <> get_speaker b).
Proof.
  cbv zeta. split; [split; [vm_compute; reflexivity|discriminate]|].
  split; [vm_compute; reflexivity|]. split; [vm_compute; reflexivity|].
  split; [vm_compute; reflexivity|]. split; [vm_compute; reflexivity|].
  vm_compute. discriminate.
Qed.

(** *** Regrouping by speaker *)

(** A segment that holds at least one word, whose words all carry its
    speaker, and that spans from the start of its first word to the end of
    its last word. *)
Lemma new_segment_shape w :
  ts_words (new_segment w) = [w] /\ ts_speaker (new_segment w) = word_speaker w /\
  ts_start_time (new_segment w) = word_start w.
Proof. repeat split. Qed.

Lemma regroup_runs ws : forall segs cur,
  close_segments (fold_left regroup_step ws (segs, Some cur)) = segs ++ runs cur ws.
Proof.
  induction ws as [|w ws IH]; intros segs cur; simpl; [reflexivity|].
  destruct (String.eqb (ts_speaker cur) (word_speaker w)).
  - apply IH.
  - rewrite IH. now rewrite <- app_assoc.
Qed.

Lemma create_runs w ws :
  create_diarized_transcript_from_words (w :: ws) = runs (new_segment w) ws.
Proof.
  unfold create_diarized_transcript_from_words. simpl. apply regroup_runs.
Qed.

(** The words of the segments, in order, are the words of the current
    segment followed by the words that were left. *)
Lemma runs_words ws : forall cur,
  concat (List.map ts_words (runs cur ws)) = ts_words cur ++ ws.
Proof.
  induction ws as [|w ws IH]; intros cur; simpl.
  - now rewrite app_nil_r.
  - destruct (String.eqb (ts_speaker cur) (word_speaker w)).
    + rewrite IH. simpl. now rewrite <- app_assoc.
    + simpl. now rewrite IH.
Qed.

Lemma runs_head ws : forall cur,
  exists s rest, runs cur ws = s :: rest /\ ts_speaker s = ts_speaker cur /\
                 ts_start_time s = ts_start_time cur.
Proof.
  induction ws as [|w ws IH]; intros cur; simpl.
  - now exists cur, [].
  - destruct (String.eqb (ts_speaker cur) (word_speaker w)).
    + destruct (IH (extend_segment cur w)) as (s & rest & -> & H1 & H2).
      now exists s, rest.
    + now exists cur, (runs (new_segment w) ws).
Qed.

(** Every segment is homogeneous and not empty. *)
Lemma runs_homogeneous ws : forall cur,
  ts_words cur <> [] ->
  (forall w, In w (ts_words cur) -> word_speaker w = ts_speaker cur) ->
  forall s, In s (runs cur ws) ->
    ts_words s <> [] /\ forall w, In w (ts_words s) -> word_speaker w = ts_speaker s.
Proof.
  induction ws as [|w ws IH]; intros cur Hne Hcur s Hs; simpl in Hs.
  - destruct Hs as [<-|[]]. auto.
  - destruct (String.eqb_spec (ts_speaker cur) (word_speaker w)) as [Heq|Hneq].
    + apply (IH (extend_segment cur w)); [| |exact Hs]; simpl.
      * intros H. apply app_eq_nil in H as [_ H]. discriminate.
      * intros v Hv. apply in_app_or in Hv as [Hv|[<-|[]]]; [now apply Hcur|now symmetry].
    + destruct Hs as [<-|Hs]; [auto|].
      apply (IH (new_segment w)); [discriminate| |exact Hs].
      intros v [<-|[]]. reflexivity.
Qed.

(** Two neighbouring segments have different speakers. *)
Lemma runs_change ws : forall cur i s s',
  runs cur ws !! i = Some s -> runs cur ws !! S i = Some s' ->
  ts_speaker s <> ts_speaker s'.
Proof.
  induction ws as [|w ws IH]; intros cur i s s' Hi Hi'; simpl in Hi, Hi'.
  - destruct i; discriminate.
  - destruct (String.eqb_spec (ts_speaker cur) (word_speaker w)) as [Heq|Hneq].
    + eapply IH; eassumption.
    + destruct i as [|i]; simpl in Hi, Hi'.
      * inversion Hi; subst s.
        destruct (runs_head ws (new_segment w)) as (h & rest & Hr & Hsp & _).
        rewrite Hr in Hi'. simpl in Hi'. inversion Hi'; subst s'.
        now rewrite Hsp.
      * eapply IH; eassumption.
Qed.

(** The segments of chronological words are chronological. *)
Lemma runs_chronological ws : forall cur,
  chronological ws ->
  Forall (fun w => (ts_start_time cur <= word_start w)%Q) ws ->
  segments_chronological (runs cur ws) /\
  Forall (fun s => (ts_start_time cur <= ts_start_time s)%Q) (runs cur ws).
Proof.
  unfold chronological, segments_chronological.
  induction ws as [|w ws IH]; intros cur Hsort Hlb; simpl.
  - split; repeat constructor. apply Qle_refl.
  - apply StronglySorted_inv in Hsort as [Hsort Hw].
    apply Forall_cons_1 in Hlb as [Hcw Hlb].
    destruct (String.eqb (ts_speaker cur) (word_speaker w)).
    + apply (IH (extend_segment cur w)); assumption.
    + destruct (IH (new_segment w) Hsort Hw) as [Hs Hf]. simpl in Hf.
      assert (Hf' : Forall (fun s => (ts_start_time cur <= ts_start_time s)%Q)
                      (runs (new_segment w) ws)).
      { eapply Forall_impl; [exact Hf|]. simpl. intros s Hsw.
        eapply Qle_trans; eassumption. }
      split.
      * constructor; assumption.
      * constructor; [apply Qle_refl|exact Hf'].
Qed.

(** *** Sorting *)

Lemma insert_by_start_length w l : length (insert_by_start w l) = S (length l).
Proof.
  induction l as [|y l IH]; simpl; [reflexivity|].
  destruct (Py.Qleb (word_start w) (word_start y)); simpl; [reflexivity|]. now rewrite IH.
Qed.

Lemma sort_by_start_length l : length (sort_by_start l) = length l.
Proof.
  induction l as [|w l IH]; simpl; [reflexivity|].
  now rewrite insert_by_start_length, IH.
Qed.

Lemma insert_by_start_filter f w l :
  length (List.filter f (insert_by_start w l)) = length (List.filter f (w :: l)).
Proof.
  induction l as [|y l IH]; simpl; [reflexivity|].
  destruct (Py.Qleb (word_start w) (word_start y)); [reflexivity|].
  simpl in *. destruct (f y), (f w); simpl in *; lia.
Qed.

Lemma sort_by_start_filter f l :
  length (List.filter f (sort_by_start l)) = length (List.filter f l).
Proof.
  induction l as [|w l IH]; simpl; [reflexivity|].
  rewrite insert_by_start_filter. simpl. destruct (f w); simpl; now rewrite IH.
Qed.

Lemma insert_by_start_In w l v : In v (insert_by_start w l) <-> v = w \/ In v l.
Proof.
  induction l as [|y l IH]; simpl; [intuition|].
  destruct (Py.Qleb (word_start w) (word_start y)); simpl; [intuition|].
  rewrite IH. intuition.
Qed.

Lemma insert_by_start_sorted w l :
  chronological l -> chronological (insert_by_start w l).
Proof.
  unfold chronological. induction l as [|y l IH]; intros Hs; simpl.
  - repeat constructor.
  - destruct (Py.Qleb (word_start w) (word_start y)) eqn:E.
    + apply Qleb_le in E. constructor; [exact Hs|].
      apply StronglySorted_inv in Hs as [_ Hy].
      constructor; [exact E|].
      eapply Forall_impl; [exact Hy|]. simpl. intros v Hv. eapply Qle_trans; eassumption.
    + assert (Hyw : (word_start y <= word_start w)%Q).
      { apply Qlt_le_weak. apply Qnot_le_lt. intros H. apply Qleb_le in H. congruence. }
      apply StronglySorted_inv in Hs as [Hs Hy].
      constructor; [now apply IH|].
      apply List.Forall_forall. intros v Hv. apply insert_by_start_In in Hv as [->|Hv];
        [exact Hyw|].
      now apply (proj1 (List.Forall_forall _ _) Hy).
Qed.

Lemma sort_by_start_sorted l : chronological (sort_by_start l).
Proof.
  induction l as [|w l IH]; simpl; [constructor|]. now apply insert_by_start_sorted.
Qed.

(** *** The mapping onto the diarization segments *)

Lemma mapped_segment_words ws s :
  length (concat (List.map ts_words (mapped_segment ws s))) =
  length (List.filter (overlaps s) ws).
Proof.
  unfold mapped_segment. destruct (List.filter (overlaps s) ws) as [|x xs]; [reflexivity|].
  simpl. rewrite app_nil_r. apply (sort_by_start_length (x :: xs)).
Qed.

Lemma mapped_segments_words ws segs :
  length (concat (List.map ts_words (concat (List.map (mapped_segment ws) segs)))) =
  foldr Nat.add O (List.map (fun s => length (List.filter (overlaps s) ws)) segs).
Proof.
  induction segs as [|s segs IH]; simpl; [reflexivity|].
  rewrite List.map_app, concat_app, length_app, IH. now rewrite mapped_segment_words.
Qed.

(** The mapping holds, for every diarization segment, the words that
    overlap it in time. *)
Lemma map_words_total ws segs :
  total_words (map_words_to_diarization_segments ws segs) =
  foldr Nat.add O (List.map (fun s => length (List.filter (overlaps s) ws)) segs).
Proof.
  unfold total_words, map_words_to_diarization_segments.
  destruct ws as [|w ws].
  - simpl. induction segs as [|s segs IH]; simpl; [reflexivity|]. exact IH.
  - destruct segs as [|s segs]; [reflexivity|].
    rewrite mapped_segments_words. f_equal.
    apply List.map_ext. intros s'. apply sort_by_start_filter.
Qed.

(** C5 (as amended).  The regrouping by speaker,
    [create_diarized_transcript_from_words], returns segments whose words,
    in order, are exactly the words it was given, so that none is dropped
    or duplicated; every segment holds at least one word, and all its words
    carry its speaker; two neighbouring segments have different speakers, so
    that a new segment starts exactly at each change of speaker; a lone word
    makes one segment of one word; and the segments of words in the order of
    their start times, as the sort of the pooled words delivers them, are in
    the order of their start times.  Every word is given the one speaker
    found at its midpoint.  The mapping onto the full-audio diarization,
    [map_words_to_diarization_segments], lists under each diarization
    segment the words that overlap it in time, and its word total is the sum
    of these counts. *)
Theorem regrouping_by_speaker (words : list word) :
  let segs := create_diarized_transcript_from_words words in
  concat (List.map ts_words segs) = words /\
  total_words segs = length words /\
  (forall s, In s segs ->
     ts_words s <> [] /\ forall w, In w (ts_words s) -> word_speaker w = ts_speaker s) /\
  (forall i s s', segs !! i = Some s -> segs !! S i = Some s' ->
     ts_speaker s <> ts_speaker s') /\
  (forall w, words = [w] -> segs = [new_segment w]) /\
  (chronological words -> segments_chronological segs) /\
  (forall pooled,
     let sorted := sort_by_start pooled in
     chronological sorted /\
     total_words (create_diarized_transcript_from_words sorted) = length pooled /\
     segments_chronological (create_diarized_transcript_from_words sorted)) /\
  (forall fl dsegs w,
     word_speaker (map_word fl dsegs w) =
     find_speaker_at_time fl dsegs (fl (fl (word_start w + word_end w) / 2))%Q) /\
  (forall dsegs,
     total_words (map_words_to_diarization_segments words dsegs) =
     foldr Nat.add O (List.map (fun s => length (List.filter (overlaps s) words)) dsegs)).
Proof.
  assert (Hwords : forall ws,
    concat (List.map ts_words (create_diarized_transcript_from_words ws)) = ws).
  { intros [|w ws]; [reflexivity|]. rewrite create_runs. now rewrite runs_words. }
  assert (Hchron : forall ws, chronological ws ->
    segments_chronological (create_diarized_transcript_from_words ws)).
  { intros [|w ws] Hs; [constructor|]. rewrite create_runs.
    apply StronglySorted_inv in Hs as [Hs Hw].
    now apply (runs_chronological ws (new_segment w)). }
  cbv zeta. split; [apply Hwords|]. split; [unfold total_words; now rewrite Hwords|].
  split; [|split; [|split; [|split; [|split; [|split]]]]].
  - destruct words as [|w ws]; [intros s []|]. rewrite create_runs.
    apply runs_homogeneous; [discriminate|]. intros v [<-|[]]. reflexivity.
  - destruct words as [|w ws]; [intros i s s' H; destruct i; discriminate|].
    rewrite create_runs. apply runs_change.
  - intros w ->. reflexivity.
  - apply Hchron.
  - intros pooled. split; [apply sort_by_start_sorted|]. split.
    + unfold total_words. now rewrite Hwords, sort_by_start_length.
    + apply Hchron, sort_by_start_sorted.
  - reflexivity.
  - intros dsegs. apply map_words_total.
Qed.

(** The scenario of the specification: the diarization A on [0, 5] and B on
    [5, 10], the words "hi" on [4.5, 4.9] and "bye" on [5.1, 5.5]. *)
Lemma regrouping_by_speaker_witness :
  let dsegs := [mk_segment (Some "A"%string) (Some 0%Q) (Some 5%Q);
                mk_segment (Some "B"%string) (Some 5%Q) (Some 10%Q)] in
  let hi := mk_word (Some "hi"%string) None (Some (45 # 10)) (Some (49 # 10)) None in
  let bye := mk_word (Some "bye"%string) None (Some (51 # 10)) (Some (55 # 10)) None in
  let words := mapped_words PyFloat.binary64 dsegs [hi; bye] in
  chronological words /\
  List.map ts_speaker (create_diarized_transcript_from_words words) = ["A"; "B"]%string /\
  List.map ts_words (create_diarized_transcript_from_words words) =
    [[map_word PyFloat.binary64 dsegs hi]; [map_word PyFloat.binary64 dsegs bye]] /\
  segments_chronological (create_diarized_transcript_from_words words).
Proof.
  intros dsegs hi bye words.
  assert (Hc : chronological words).
  { unfold chronological. repeat constructor. vm_compute. discriminate. }
  split; [exact Hc|]. split; [vm_compute; reflexivity|]. split; [vm_compute; reflexivity|].
  exact (proj1 (proj2 (proj2 (proj2 (proj2 (proj2 (regrouping_by_speaker words)))))) Hc).
Defined.

(** C5 as stated fails for the final transcript when a diarization is there:
    a word on [4.8, 5.2] overlaps both the segment A on [0, 5] and the
    segment B on [5, 10] and is listed under both, and a word on [2, 3]
    overlaps no segment of a diarization that ends at 1 and is listed
    nowhere. *)
Lemma word_count_counterexample :
  let a := mk_segment (Some "A"%string) (Some 0%Q) (Some 5%Q) in
  let b := mk_segment (Some "B"%string) (Some 5%Q) (Some 10%Q) in
  let so := mk_word (Some "so"%string) None (Some (48 # 10)) (Some (52 # 10)) None in
  let short := mk_segment (Some "A"%string) (Some 0%Q) (Some 1%Q) in
  let late := mk_word (Some "late"%string) None (Some 2%Q) (Some 3%Q) None in
  total_words (map_words_to_diarization_segments
                 (sort_by_start (mapped_words PyFloat.binary64 [a; b] [so])) [a; b])
    = 2%nat /\
  length [so] = 1%nat /\
  total_words (map_words_to_diarization_segments
                 (sort_by_start (mapped_words PyFloat.binary64 [short] [late])) [short])
    = 0%nat /\
  length [late] = 1%nat.
Proof.
  cbv zeta. split; [vm_compute; reflexivity|]. split; [reflexivity|].
  split; [vm_compute; reflexivity|reflexivity].
Qed.

End DiarizationFacts.

(** ** Text-only stitching *)

Module TextPathFacts.
Import TextPath.

Lemma starts_with_spec sub : forall s,
  starts_with sub s = true <-> exists after, s = sub ++ after.
Proof.
  induction sub as [|a sub IH]; intros s; simpl.
  - split; [intros _; now exists s|reflexivity].
  - destruct s as [|b s].
    + split; [discriminate|]. intros [after H]. discriminate.
    + rewrite andb_true_iff, Ascii.eqb_eq, IH. split.
      * intros [-> [after ->]]. now exists after.
      * intros [after H]. inversion H. split; [reflexivity|now exists after].
Qed.

Lemma find_from_unfold sub s i :
  find_from sub s i =
  if starts_with sub s then Some i
  else match s with
       | [] => None
       | _ :: rest => find_from sub rest (i + 1)
       end.
Proof. destruct s; reflexivity. Qed.

(** A search that succeeds has found the first occurrence. *)
Lemma find_from_some sub : forall s i k,
  find_from sub s i = Some k ->
  exists before after,
    s = before ++ sub ++ after /\ k = i + Z.of_nat (length before) /\
    forall b' a', s = b' ++ sub ++ a' -> (length before <= length b')%nat.
Proof.
  induction s as [|c s IH]; intros i k H; rewrite find_from_unfold in H.
  - destruct (starts_with sub []) eqn:E; [|discriminate].
    inversion H; subst k. apply starts_with_spec in E as [after E].
    exists [], after. simpl. repeat split; [exact E|lia|intros; lia].
  - destruct (starts_with sub (c :: s)) eqn:E.
    + inversion H; subst k. apply starts_with_spec in E as [after E].
      exists [], after. simpl. repeat split; [exact E|lia|intros; lia].
    + apply IH in H as (before & after & -> & -> & Hmin).
      exists (c :: before), after. simpl. repeat split; [lia|].
      intros [|c' b'] a' Heq; simpl in Heq.
      * assert (Hs : starts_with sub (c :: before ++ sub ++ after) = true)
          by (apply starts_with_spec; now exists a').
        congruence.
      * inversion Heq as [[Hc Hrest]]. specialize (Hmin _ _ Hrest). simpl. lia.
Qed.

(** A search that fails has no occurrence to find. *)
Lemma find_from_none sub : forall s i,
  find_from sub s i = None -> ~ occurs sub s.
Proof.
  induction s as [|c s IH]; intros i H (before & after & Heq);
    rewrite find_from_unfold in H.
  - destruct (starts_with sub []) eqn:E; [discriminate|].
    destruct before; [|discriminate]. simpl in Heq.
    assert (starts_with sub [] = true) by (apply starts_with_spec; now exists after).
    congruence.
  - destruct (starts_with sub (c :: s)) eqn:E; [discriminate|].
    destruct before as [|c' before]; simpl in Heq.
    + assert (starts_with sub (c :: s) = true) by (apply starts_with_spec; now exists after).
      congruence.
    + inversion Heq as [[Hc Hrest]]. apply (IH _ H). now exists before, after.
Qed.

Lemma contains_spec s sub : contains s sub = true <-> occurs sub s.
Proof.
  unfold contains. destruct (find_from sub s 0) as [k|] eqn:E.
  - split; [intros _|reflexivity].
    apply find_from_some in E as (before & after & -> & _). now exists before, after.
  - split; [discriminate|]. intros H. now apply find_from_none in E.
Qed.

(** [find] returns the index of the first occurrence. *)
Lemma find_first s sub :
  occurs sub s ->
  exists before after,
    s = before ++ sub ++ after /\ find s sub = Z.of_nat (length before) /\
    forall b' a', s = b' ++ sub ++ a' -> (length before <= length b')%nat.
Proof.
  intros Hocc. unfold find. destruct (find_from sub s 0) as [k|] eqn:E.
  - apply find_from_some in E as (before & after & Heq & -> & Hmin).
    exists before, after. simpl. auto.
  - now apply find_from_none in E.
Qed.

(** An occurrence in the beginning of a text is an occurrence in the
    text. *)
Lemma occurs_slice_to sub s n : occurs sub (Py.slice_to s n) -> occurs sub s.
Proof.
  unfold Py.slice_to. intros (before & after & Heq).
  rewrite <- (take_drop (Z.to_nat (Py.norm (Z.of_nat (length s)) n)) s), Heq.
  exists before, (after ++ drop (Z.to_nat (Py.norm (Z.of_nat (length s)) n)) s).
  now rewrite <- !app_assoc.
Qed.

(** The loop over the search sentences stops at the first one that occurs
    in the window. *)
Lemma first_found_some window full : forall l pre s post,
  l = pre ++ s :: post ->
  occurs s window ->
  (forall y, In y pre -> ~ occurs y window) ->
  first_found window full l = Some (find full s + Z.of_nat (length s)).
Proof.
  intros l pre s post -> Hs. induction pre as [|p pre IH]; intros Hpre; simpl.
  - now rewrite (proj2 (contains_spec window s) Hs).
  - destruct (contains window p) eqn:E.
    + apply contains_spec in E. exfalso. apply (Hpre p); [now left|exact E].
    + apply IH. intros y Hy. apply Hpre. now right.
Qed.

Lemma first_found_none window full : forall l,
  (forall y, In y l -> ~ occurs y window) ->
  first_found window full l = None.
Proof.
  induction l as [|p l IH]; intros H; simpl; [reflexivity|].
  destruct (contains window p) eqn:E.
  - apply contains_spec in E. exfalso. apply (H p); [now left|exact E].
  - apply IH. intros y Hy. apply H. now right.
Qed.

(** The searched sentences are the last three, or both when there are
    two. *)
Lemma search_sentences_last (l : list text) :
  (2 <= length l)%nat ->
  search_sentences l = drop (length l - 3) l.
Proof.
  intros Hl. unfold search_sentences, Py.slice_from, Py.norm.
  destruct (Nat.leb_spec 3 (length l)) as [H3|H3]; simpl; f_equal; lia.
Qed.

(** When one of the searched sentences occurs in the window, there is a
    first one in the order of the loop. *)
Lemma first_occurring (window : text) : forall l : list text,
  (exists y, In y l /\ occurs y window) ->
  exists pre s post,
    l = pre ++ s :: post /\ occurs s window /\
    (forall y, In y pre -> ~ occurs y window).
Proof.
  induction l as [|p l IH]; intros (y & Hy & Hocc); [destruct Hy|].
  destruct (contains window p) eqn:E.
  - apply contains_spec in E. exists [], p, l. split; [reflexivity|].
    split; [exact E|]. intros ? [].
  - destruct Hy as [->|Hy].
    + apply contains_spec in Hocc. congruence.
    + destruct (IH (ex_intro _ y (conj Hy Hocc))) as (pre & s & post & -> & Hs & Hpre).
      exists (p :: pre), s, post. split; [reflexivity|]. split; [exact Hs|].
      intros z [<-|Hz]; [|now apply Hpre].
      intros Hp. apply contains_spec in Hp. congruence.
Qed.

(** The estimate of the fall-back lies within the first quarter of the
    second text when the overlap is not negative. *)
Lemma estimated_position_range (chunk2_text : text) (overlap_duration : Z) :
  0 <= overlap_duration ->
  0 <= estimated_position chunk2_text overlap_duration <= Z.of_nat (length chunk2_text) / 4.
Proof.
  intros Hov. unfold estimated_position, Py.int_times_7_5.
  assert (0 <= Z.quot (15 * overlap_duration) 2) by (apply Z.quot_pos; lia).
  assert (0 <= Z.of_nat (length chunk2_text) / 4) by (apply Z.div_pos; lia).
  lia.
Qed.

(** C9 (as amended).  For the texts of two neighbouring chunks the overlap
    detection works as follows.  When the first text has fewer than two
    sentences nothing is detected and nothing is dropped.  Otherwise the
    searched sentences are the last three of the first text (both, when
    there are two).  When one of them occurs in the leading window of the
    second text, the second text is dropped up to and including the end of
    the first occurrence of a searched sentence that occurs in the window,
    and what is left is stripped.  When none of them occurs in the window
    and the overlap is not negative, the first
    [k = min(int(7.5 * overlap_duration), len // 4)] characters are
    dropped, [k] being at most a quarter of the length of the second text,
    and what is left is stripped. *)
Theorem overlap_boundary_detection (chunk1_text chunk2_text : text) (overlap_duration : Z) :
  let chunk1_sentences := sentences chunk1_text in
  let searched := search_sentences chunk1_sentences in
  let window :=
    Py.slice_to chunk2_text (Z.of_nat (length (strip (join_space searched))) + 100) in
  let k := Z.min (Py.int_times_7_5 overlap_duration) (Z.of_nat (length chunk2_text) / 4) in
  ((length chunk1_sentences < 2)%nat ->
     detect_overlap_boundary chunk1_text chunk2_text overlap_duration = None /\
     chunk_text_trimmed overlap_duration chunk1_text chunk2_text = chunk2_text) /\
  ((2 <= length chunk1_sentences)%nat ->
     searched = drop (length chunk1_sentences - 3) chunk1_sentences /\
     ((exists y, In y searched /\ occurs y window) ->
        exists s before after,
          In s searched /\ occurs s window /\
          chunk2_text = before ++ s ++ after /\
          (forall b' a', chunk2_text = b' ++ s ++ a' -> (length before <= length b')%nat) /\
          detect_overlap_boundary chunk1_text chunk2_text overlap_duration =
            Some (Z.of_nat (length (before ++ s))) /\
          chunk_text_trimmed overlap_duration chunk1_text chunk2_text = strip after) /\
     ((forall y, In y searched -> ~ occurs y window) ->
        detect_overlap_boundary chunk1_text chunk2_text overlap_duration = Some k /\
        (0 <= overlap_duration ->
           0 <= k <= Z.of_nat (length chunk2_text) / 4 /\
           (length (take (Z.to_nat k) chunk2_text) = Z.to_nat k) /\
           chunk2_text = take (Z.to_nat k) chunk2_text ++ drop (Z.to_nat k) chunk2_text /\
           chunk_text_trimmed overlap_duration chunk1_text chunk2_text =
             strip (drop (Z.to_nat k) chunk2_text)))).
Proof.
  cbv zeta. split.
  - intros Hfew. unfold chunk_text_trimmed, detect_overlap_boundary.
    destruct (Nat.ltb_spec (length (sentences chunk1_text)) 2); [auto|lia].
  - intros Hmany. split; [now apply search_sentences_last|]. split.
    + intros Hsome.
      destruct (first_occurring _ _ Hsome) as (pre & s & post & Hsplit & Hocc & Hpre).
      destruct (find_first chunk2_text s (occurs_slice_to _ _ _ Hocc))
        as (before & after & Heq & Hfind & Hmin).
      exists s, before, after.
      split; [rewrite Hsplit; apply in_elt|]. split; [exact Hocc|].
      split; [exact Heq|]. split; [exact Hmin|].
      assert (Hdet : detect_overlap_boundary chunk1_text chunk2_text overlap_duration =
                     Some (Z.of_nat (length (before ++ s)))).
      { unfold detect_overlap_boundary.
        destruct (Nat.ltb_spec (length (sentences chunk1_text)) 2); [lia|].
        rewrite (first_found_some _ chunk2_text _ pre s post Hsplit Hocc Hpre).
        rewrite Hfind, length_app. f_equal. lia. }
      split; [exact Hdet|].
      unfold chunk_text_trimmed. rewrite Hdet. f_equal.
      rewrite slice_from_in_range.
      * rewrite Nat2Z.id. rewrite Heq, app_assoc.
        now rewrite drop_app_length.
      * rewrite Heq, !length_app. lia.
    + intros Hnone.
      assert (Hdet : detect_overlap_boundary chunk1_text chunk2_text overlap_duration =
                     Some (estimated_position chunk2_text overlap_duration)).
      { unfold detect_overlap_boundary.
        destruct (Nat.ltb_spec (length (sentences chunk1_text)) 2); [lia|].
        now rewrite (first_found_none _ chunk2_text _ Hnone). }
      split; [exact Hdet|]. intros Hov.
      pose proof (estimated_position_range chunk2_text overlap_duration Hov) as Hk.
      unfold estimated_position in Hk.
      assert (Hq : Z.of_nat (length chunk2_text) / 4 <= Z.of_nat (length chunk2_text))
        by (apply Z.div_le_upper_bound; lia).
      split; [exact Hk|]. split; [rewrite length_take; lia|].
      split; [now rewrite take_drop|].
      unfold chunk_text_trimmed. rewrite Hdet. unfold estimated_position.
      now rewrite slice_from_in_range by lia.
Qed.

Lemma overlap_boundary_detection_witness :
  let chunk1 := list_ascii_of_string "One two. Three four. Five six" in
  let chunk2 := list_ascii_of_string "Five six. Seven eight. Nine ten." in
  let chunk3 := list_ascii_of_string "Eleven twelve thirteen fourteen fifteen." in
  (2 <= length (sentences chunk1))%nat /\
  detect_overlap_boundary chunk1 chunk2 30 = Some 8 /\
  chunk_text_trimmed 30 chunk1 chunk2 = list_ascii_of_string ". Seven eight. Nine ten." /\
  (2 <= length (sentences chunk2))%nat /\
  detect_overlap_boundary chunk2 chunk3 1 = Some 7 /\
  chunk_text_trimmed 1 chunk2 chunk3 =
    list_ascii_of_string "twelve thirteen fourteen fifteen.".
Proof.
  intros chunk1 chunk2 chunk3.
  assert (Hn : (2 <= length (sentences chunk1))%nat) by (vm_compute; lia).
  assert (Hm : (2 <= length (sentences chunk2))%nat) by (vm_compute; lia).
  split; [exact Hn|].
  destruct (overlap_boundary_detection chunk1 chunk2 30) as [_ Hlong].
  destruct (Hlong Hn) as (_ & Hfound & _).
  destruct Hfound as (s & before & after & Hs & Hocc & Heq & Hmin & Hdet & Htrim).
  { exists (list_ascii_of_string "Five six"). split.
    - vm_compute. auto.
    - exists [], (list_ascii_of_string ". Seven eight. Nine ten."). vm_compute. reflexivity. }
  assert (Hs' : s = list_ascii_of_string "Five six").
  { vm_compute in Hs. destruct Hs as [<-|[<-|[<-|[]]]]; [| |reflexivity];
      apply contains_spec in Hocc; vm_compute in Hocc; discriminate. }
  subst s.
  specialize (Hmin [] (list_ascii_of_string ". Seven eight. Nine ten.") eq_refl).
  destruct before; [|simpl in Hmin; lia].
  unfold chunk2 in Heq. simpl in Heq. inversion Heq; subst after.
  split; [exact Hdet|]. split; [exact Htrim|]. split; [exact Hm|].
  destruct (overlap_boundary_detection chunk2 chunk3 1) as [_ Hlong2].
  destruct (Hlong2 Hm) as (_ & _ & Hnone).
  destruct Hnone as (Hdet2 & Hkeep).
  { intros y Hy Hocc2. apply contains_spec in Hocc2.
    vm_compute in Hy. destruct Hy as [<-|[<-|[<-|[]]]]; vm_compute in Hocc2; discriminate. }
  destruct Hkeep as (_ & _ & _ & Htrim2); [lia|].
  split; [exact Hdet2|]. rewrite Htrim2. vm_compute. reflexivity.
Defined.

(** C9 as stated fails.  With a first text of one sentence, which does not
    occur in the second text, the estimate is not dropped: the claim has
    the first [min(int(7.5 * 30), 29 // 4) = 7] characters of the second
    text removed, and the second text is kept whole. *)
Lemma single_sentence_counterexample :
  let chunk1 := list_ascii_of_string "hello there" in
  let chunk2 := list_ascii_of_string "there is more to say about it" in
  sentences chunk1 = [chunk1] /\
  contains chunk2 chunk1 = false /\
  estimated_position chunk2 30 = 7 /\
  detect_overlap_boundary chunk1 chunk2 30 = None /\
  chunk_text_trimmed 30 chunk1 chunk2 = chunk2 /\
  chunk_text_trimmed 30 chunk1 chunk2 <> strip (Py.slice_from chunk2 7).
Proof.
  cbv zeta. split; [vm_compute; reflexivity|]. split; [vm_compute; reflexivity|].
  split; [vm_compute; reflexivity|]. split; [vm_compute; reflexivity|].
  split; [vm_compute; reflexivity|]. vm_compute. discriminate.
Qed.

(** The loop returns at the first searched sentence that it finds in the
    window, while the comment above it speaks of the last complete sentence
    of the first text that appears at the start of the second.  With the
    sentences "aa", "bbbb" and "cc" of the first text and the second text
    "aa bbbb zz" the detection stops at the end of "aa", position 2,
    although the later and longer sentence "bbbb" occurs and ends at
    position 7. *)
Lemma first_tried_sentence_is_used :
  let chunk1 := list_ascii_of_string "aa. bbbb. cc" in
  let chunk2 := list_ascii_of_string "aa bbbb zz" in
  search_sentences (sentences chunk1) =
    List.map list_ascii_of_string ["aa"; "bbbb"; "cc"]%string /\
  chunk2 = list_ascii_of_string "aa " ++ list_ascii_of_string "bbbb"
             ++ list_ascii_of_string " zz" /\
  detect_overlap_boundary chunk1 chunk2 30 = Some 2 /\
  chunk_text_trimmed 30 chunk1 chunk2 = list_ascii_of_string "bbbb zz".
Proof.
  cbv zeta. repeat split; vm_compute; reflexivity.
Qed.

(** With a negative overlap the estimate is negative and the slice counts
    from the end: of the forty characters of the second text only the last
    seven are kept. *)
Lemma negative_overlap_keeps_tail :
  let chunk1 := list_ascii_of_string "Five six. Seven eight. Nine ten." in
  let chunk2 := list_ascii_of_string "Eleven twelve thirteen fourteen fifteen." in
  detect_overlap_boundary chunk1 chunk2 (-1) = Some (-7) /\
  chunk_text_trimmed (-1) chunk1 chunk2 = list_ascii_of_string "ifteen.".
Proof.
  cbv zeta. split; vm_compute; reflexivity.
Qed.

End TextPathFacts.

(** ** More on the planners *)

Module PlannerExtras.
Import Planner PlannerFacts.

(** *** The silence boundaries *)

Lemma insert_unique_In x l y :
  In y (Boundaries.insert_unique x l) <-> y = x \/ In y l.
Proof.
  induction l as [|z l IH]; simpl; [intuition|].
  destruct (Z.ltb_spec x z); simpl; [intuition|].
  destruct (Z.eqb_spec x z); simpl; [subst; intuition|].
  rewrite IH. intuition.
Qed.

Lemma insert_unique_sorted x l :
  StronglySorted Z.lt l -> StronglySorted Z.lt (Boundaries.insert_unique x l).
Proof.
  induction l as [|z l IH]; intros Hs; simpl.
  - repeat constructor.
  - destruct (Z.ltb_spec x z) as [Hlt|Hge].
    + constructor; [exact Hs|]. apply StronglySorted_inv in Hs as [_ Hz].
      constructor; [exact Hlt|].
      eapply Forall_impl; [exact Hz|]. simpl. intros; lia.
    + destruct (Z.eqb_spec x z) as [Heq|Hne]; [exact Hs|].
      apply StronglySorted_inv in Hs as [Hs Hz].
      constructor; [now apply IH|].
      apply List.Forall_forall. intros y Hy. apply insert_unique_In in Hy as [->|Hy]; [lia|].
      now apply (proj1 (List.Forall_forall _ _) Hz).
Qed.

Lemma sorted_set_In l y : In y (Boundaries.sorted_set l) <-> In y l.
Proof.
  induction l as [|x l IH]; simpl; [reflexivity|].
  rewrite insert_unique_In, IH. intuition.
Qed.

Lemma sorted_set_sorted l : StronglySorted Z.lt (Boundaries.sorted_set l).
Proof.
  induction l as [|x l IH]; simpl; [constructor|]. now apply insert_unique_sorted.
Qed.

(** A middle lies between the end of an interval and the start of the
    next one. *)
Lemma silence_middles_between intervals : forall m,
  In m (Boundaries.silence_middles intervals) ->
  exists a b c d, In (a, b) intervals /\ In (c, d) intervals /\ m = (b + c) / 2.
Proof.
  induction intervals as [|[a b] rest IH]; intros m Hm; [destruct Hm|].
  destruct rest as [|[c d] rest']; [destruct Hm|].
  simpl in Hm. destruct Hm as [<-|Hm].
  - exists a, b, c, d. simpl. auto.
  - destruct (IH m Hm) as (a' & b' & c' & d' & H1 & H2 & ->).
    exists a', b', c', d'. simpl in *. auto.
Qed.

(** The boundaries lie inside the audio when the detected intervals do. *)
Lemma silence_boundaries_range (detected : option (list (Z * Z))) (length_audio : Z) :
  0 <= length_audio ->
  (forall intervals a b, detected = Some intervals -> In (a, b) intervals ->
     0 <= a <= b /\ b <= length_audio) ->
  forall b, In b (Boundaries.find_silence_boundaries detected length_audio) ->
            0 <= b <= length_audio.
Proof.
  intros Hlen Hrange b Hb. destruct detected as [intervals|].
  - unfold Boundaries.find_silence_boundaries in Hb. rewrite sorted_set_In in Hb.
    simpl in Hb. rewrite in_app_iff in Hb. simpl in Hb.
    destruct Hb as [<-|[Hb|[<-|[]]]]; [lia| |lia].
    apply silence_middles_between in Hb as (a1 & b1 & c1 & d1 & H1 & H2 & ->).
    destruct (Hrange _ _ _ eq_refl H1) as [Ha1 Hb1].
    destruct (Hrange _ _ _ eq_refl H2) as [Hc1 Hd1].
    split; [apply Z.div_pos; lia|apply Z.div_le_upper_bound; lia].
  - simpl in Hb. destruct Hb as [<-|[<-|[]]]; lia.
Qed.

(** X1.  The boundaries that [find_silence_boundaries] returns after a
    successful detection are strictly increasing, so that none is repeated;
    they are sample 0, the length of the audio and the middles of the gaps,
    and nothing else; and when the detected intervals lie inside the audio,
    every boundary lies in [0, length].  When the detection raises, the
    result is the pair of sample 0 and the length. *)
Theorem silence_boundaries_shape (intervals : list (Z * Z)) (length_audio : Z) :
  StronglySorted Z.lt (Boundaries.find_silence_boundaries (Some intervals) length_audio) /\
  (forall b,
     In b (Boundaries.find_silence_boundaries (Some intervals) length_audio) <->
     b = 0 \/ b = length_audio \/ In b (Boundaries.silence_middles intervals)) /\
  (0 <= length_audio ->
   (forall a b, In (a, b) intervals -> 0 <= a <= b /\ b <= length_audio) ->
   forall b, In b (Boundaries.find_silence_boundaries (Some intervals) length_audio) ->
             0 <= b <= length_audio) /\
  Boundaries.find_silence_boundaries None length_audio = [0; length_audio].
Proof.
  assert (Hin : forall b,
     In b (Boundaries.find_silence_boundaries (Some intervals) length_audio) <->
     b = 0 \/ b = length_audio \/ In b (Boundaries.silence_middles intervals)).
  { intros b. unfold Boundaries.find_silence_boundaries. rewrite sorted_set_In.
    simpl. rewrite in_app_iff. simpl. intuition. }
  split; [apply sorted_set_sorted|]. split; [exact Hin|]. split; [|reflexivity].
  intros Hlen Hrange. apply silence_boundaries_range; [exact Hlen|].
  intros l a b E. inversion E; subst l. apply Hrange.
Qed.

Lemma silence_boundaries_shape_witness :
  Boundaries.find_silence_boundaries (Some [(0, 40); (60, 100); (100, 180)]) 200
    = [0; 50; 100; 200] /\
  forall b, In b (Boundaries.find_silence_boundaries
                    (Some [(0, 40); (60, 100); (100, 180)]) 200) -> 0 <= b <= 200.
Proof.
  split; [reflexivity|].
  refine (proj1 (proj2 (proj2 (silence_boundaries_shape
                                 [(0, 40); (60, 100); (100, 180)] 200))) _ _).
  - lia.
  - simpl. intros a b [H|[H|[H|[]]]]; inversion H; lia.
Defined.

(** *** The split point and the chunks of the silence-aware planners *)

(** The split point lies within the deviation of the target. *)
Lemma split_point_near (max_deviation target_sample rate : Z)
    (silence_boundaries : list Z) :
  0 <= max_deviation * rate ->
  let r := find_optimal_split_point max_deviation target_sample silence_boundaries rate in
  Z.abs (r - target_sample) <= max_deviation * rate /\
  (r = target_sample \/ In r silence_boundaries) /\
  (max_deviation * rate = 0 -> r = target_sample).
Proof.
  intros HM r. subst r.
  destruct (find_optimal_split_point_spec max_deviation rate silence_boundaries
              target_sample) as [[Hr _]|(Hin & Hdev & _)].
  - rewrite Hr. split; [lia|]. split; [now left|reflexivity].
  - split; [exact Hdev|]. split; [now right|]. intros H0. lia.
Qed.

Section SilenceChunks.
Variables (cap : Z).
Variables (target_chunk_duration overlap_duration max_deviation : Z).
Variables (total_samples rate n_channels : Z).
Variable (silence_boundaries : list Z).

Local Abbreviation next :=
  (actual_end target_chunk_duration max_deviation total_samples rate silence_boundaries).
Local Abbreviation run :=
  (run_silence_loop cap target_chunk_duration overlap_duration max_deviation total_samples
     rate n_channels silence_boundaries).

(** The fields of the chunks of a returned plan. *)
Lemma run_chunk_fields plan i c :
  0 <= cap ->
  0 <= max_deviation * rate ->
  run = Done plan ->
  plan !! i = Some c ->
  index c = Z.of_nat i /\
  sample_rate c = rate /\
  channels c = n_channels /\
  ((S i < length plan)%nat ->
     Z.abs (actual_split_sample c - (start_sample c + target_chunk_duration * rate))
       <= max_deviation * rate /\
     actual_split_sample c < total_samples) /\
  (0 <= overlap_duration * rate ->
     actual_split_sample c <= end_sample c <= actual_split_sample c + overlap_duration * rate).
Proof.
  intros Hcap HM Hrun Hi.
  destruct (run_outcome cap target_chunk_duration overlap_duration max_deviation
              total_samples rate n_channels silence_boundaries Hcap)
    as [(n & Hn & _ & Hend & Hpass)|[Hr _]]; [|congruence].
  rewrite Hn in Hrun. inversion Hrun; subst plan. clear Hrun Hn.
  rewrite chunks_from_length.
  assert (Hin : (i < n)%nat).
  { apply lookup_lt_Some in Hi. now rewrite chunks_from_length in Hi. }
  rewrite chunks_from_lookup in Hi by exact Hin. inversion Hi; subst c. clear Hi.
  simpl. split; [lia|]. split; [reflexivity|]. split; [reflexivity|]. split.
  - intros Hlast. specialize (Hpass (S i) Hlast). simpl in Hpass.
    split; [|exact Hpass].
    revert Hpass. unfold actual_end at 1 3, target_end.
    destruct (Z.geb_spec (Nat.iter i next 0 + target_chunk_duration * rate) total_samples);
      [lia|]. intros _.
    now apply split_point_near.
  - intros Hov. unfold chunk_end.
    destruct (Z.ltb_spec (next (Nat.iter i next 0)) total_samples); lia.
Qed.

(** Every pass moves the start forward by the target less the deviation,
    or to the end of the audio. *)
Lemma nth_start_lower k :
  0 <= max_deviation * rate < target_chunk_duration * rate ->
  total_samples <= Nat.iter k next 0 \/
  Z.of_nat k * (target_chunk_duration * rate - max_deviation * rate) <= Nat.iter k next 0.
Proof.
  intros HM. induction k as [|k IH]; [right; simpl; lia|].
  change (Nat.iter (S k) next 0) with (next (Nat.iter k next 0)).
  set (s := Nat.iter k next 0) in *.
  unfold actual_end, target_end.
  destruct (Z.geb_spec (s + target_chunk_duration * rate) total_samples); [left; lia|].
  pose proof (proj1 (split_point_near max_deviation
                       (s + target_chunk_duration * rate) rate silence_boundaries
                       (proj1 HM))).
  destruct IH as [IH|IH]; [lia|]. right. lia.
Qed.

(** With a deviation below the target the cap is not reached as long as
    [cap] chunks of the shortest length cover the audio. *)
Lemma run_succeeds :
  0 <= cap ->
  0 <= max_deviation * rate < target_chunk_duration * rate ->
  total_samples <= cap * (target_chunk_duration * rate - max_deviation * rate) ->
  exists plan, run = Done plan.
Proof.
  intros Hcap HM Htotal.
  destruct (run_outcome cap target_chunk_duration overlap_duration max_deviation
              total_samples rate n_channels silence_boundaries Hcap)
    as [(n & Hn & _)|[_ Hpass]]; [eauto|exfalso].
  specialize (Hpass (Z.to_nat cap) ltac:(lia)).
  destruct (nth_start_lower (Z.to_nat cap) ltac:(lia)) as [H|H]; [lia|].
  rewrite Z2Nat.id in H by lia. lia.
Qed.

End SilenceChunks.

(** X2.  In a plan that the silence-aware planner or the transcript planner
    returns (non-negative deviation), the chunk at position [i] carries the
    index [i], the sample rate and the channel count of the audio; every
    chunk but the last is split inside the audio, within [max_deviation]
    seconds of [start_sample + target]; and every chunk ends at or after its
    split point, at most the overlap after it. *)
Theorem silence_chunk_fields
    (target_chunk_duration overlap_duration max_deviation : Z)
    (total_samples rate n_channels : Z) (silence_boundaries : list Z)
    (plan : list chunk_info) (i : nat) (c : chunk_info) :
  0 <= max_deviation * rate ->
  split_audio_at_silence_boundaries target_chunk_duration overlap_duration max_deviation
    total_samples rate n_channels silence_boundaries = Done plan
  \/ split_audio_for_transcription target_chunk_duration overlap_duration max_deviation
       total_samples rate n_channels silence_boundaries = Done plan ->
  plan !! i = Some c ->
  index c = Z.of_nat i /\
  sample_rate c = rate /\
  channels c = n_channels /\
  ((S i < length plan)%nat ->
     Z.abs (actual_split_sample c - (start_sample c + target_chunk_duration * rate))
       <= max_deviation * rate /\
     actual_split_sample c < total_samples) /\
  (0 <= overlap_duration * rate ->
     actual_split_sample c <= end_sample c <= actual_split_sample c + overlap_duration * rate).
Proof.
  intros HM [Hrun|Hrun] Hi.
  - rewrite split_audio_at_silence_boundaries_eq in Hrun.
    now apply (run_chunk_fields 1000 target_chunk_duration overlap_duration max_deviation
                 total_samples rate n_channels silence_boundaries plan i c).
  - rewrite split_audio_for_transcription_eq in Hrun.
    now apply (run_chunk_fields 100 target_chunk_duration overlap_duration max_deviation
                 total_samples rate n_channels silence_boundaries plan i c).
Qed.

Lemma silence_chunk_fields_witness :
  0 <= 1 * 10 /\
  split_audio_at_silence_boundaries 9 2 1 300 10 2 [0; 85; 190; 300] =
    Done [mk_chunk 0 0 105 85 10 2; mk_chunk 1 85 195 175 10 2;
          mk_chunk 2 175 285 265 10 2; mk_chunk 3 265 300 300 10 2] /\
  Z.abs (85 - (0 + 9 * 10)) <= 1 * 10.
Proof.
  assert (Hrun : split_audio_at_silence_boundaries 9 2 1 300 10 2 [0; 85; 190; 300] =
    Done [mk_chunk 0 0 105 85 10 2; mk_chunk 1 85 195 175 10 2;
          mk_chunk 2 175 285 265 10 2; mk_chunk 3 265 300 300 10 2])
    by (vm_compute; reflexivity).
  split; [lia|]. split; [exact Hrun|].
  refine (proj1 (proj1 (proj2 (proj2 (proj2
            (silence_chunk_fields 9 2 1 300 10 2 [0; 85; 190; 300] _ O
               (mk_chunk 0 0 105 85 10 2) _ (or_introl Hrun) eq_refl)))) _)).
  - lia.
  - simpl. lia.
Defined.

(** X3.  With a deviation below the target duration the planners do not
    stall: the silence-aware planner returns a plan for every audio of at
    most [1000 * (target - max_deviation)] seconds, and the transcript
    planner for every audio of at most [100 * (target - max_deviation)]
    seconds. *)
Theorem planners_succeed
    (target_chunk_duration overlap_duration max_deviation : Z)
    (total_samples rate n_channels : Z) (silence_boundaries : list Z) :
  0 <= max_deviation * rate < target_chunk_duration * rate ->
  (total_samples <= 1000 * (target_chunk_duration * rate - max_deviation * rate) ->
   exists plan,
     split_audio_at_silence_boundaries target_chunk_duration overlap_duration
       max_deviation total_samples rate n_channels silence_boundaries = Done plan) /\
  (total_samples <= 100 * (target_chunk_duration * rate - max_deviation * rate) ->
   exists plan,
     split_audio_for_transcription target_chunk_duration overlap_duration
       max_deviation total_samples rate n_channels silence_boundaries = Done plan).
Proof.
  intros HM. split; intros Htotal.
  - rewrite split_audio_at_silence_boundaries_eq. apply run_succeeds; [lia|exact HM|exact Htotal].
  - rewrite split_audio_for_transcription_eq. apply run_succeeds; [lia|exact HM|exact Htotal].
Qed.

(** The default configuration of the silence-aware chunker, 90 s, 2 s and
    15 s, on one hour of audio at 44100 Hz whose detection has failed. *)
Lemma planners_succeed_witness :
  0 <= 15 * 44100 < 90 * 44100 /\
  exists plan,
    split_audio_at_silence_boundaries 90 2 15 158760000 44100 2
      (Boundaries.find_silence_boundaries None 158760000) = Done plan.
Proof.
  split; [lia|].
  refine (proj1 (planners_succeed 90 2 15 158760000 44100 2
                   (Boundaries.find_silence_boundaries None 158760000) _) _); lia.
Defined.

(** *** The outcome of the sample-accurate planner *)

Section PerfectOutcome.
Context {A : Type}.
Variable (audio_data : list A).
Variables (chunk_duration overlap_duration rate n_channels : Z).

Local Abbreviation total := (Z.of_nat (length audio_data)).
Local Abbreviation cs := (chunk_samples chunk_duration rate).
Local Abbreviation ov := (overlap_samples overlap_duration rate).
Local Abbreviation loop :=
  (perfect_loop chunk_duration overlap_duration total rate n_channels).
Local Abbreviation chunks_from :=
  (perfect_chunks_from chunk_duration overlap_duration total rate n_channels).
Local Abbreviation chunk_at :=
  (perfect_chunk chunk_duration overlap_duration total rate n_channels).

(** The loop makes the [n] passes that start before the end of the audio. *)
Lemma perfect_runs n : forall fuel s i acc,
  (n < fuel)%nat ->
  n = O \/ i + Z.of_nat n <= 1000 ->
  (forall k, (k < n)%nat -> s + Z.of_nat k * cs < total) ->
  total <= s + Z.of_nat n * cs ->
  loop fuel s i acc = Done (acc ++ chunks_from s i n).
Proof.
  induction n as [|n IH]; intros fuel s i acc Hf Hcap Hpass Hend;
    (destruct fuel as [|fuel]; [lia|]); simpl.
  - destruct (Z.ltb_spec s total); [lia|]. now rewrite app_nil_r.
  - pose proof (Hpass O ltac:(lia)).
    destruct (Z.ltb_spec s total); [|lia].
    destruct (Z.gtb_spec (i + 1) 1000); [lia|].
    rewrite IH; [now rewrite <- app_assoc | lia | lia | | lia].
    intros k Hk. specialize (Hpass (S k)). lia.
Qed.

(** The number of frames of a chunk file. *)
Lemma perfect_chunk_length s i :
  0 <= s < total -> 0 < cs -> 0 <= ov ->
  length (chunk_data audio_data (chunk_at s i)) =
  Z.to_nat (if s + cs <? total then Z.min (cs + ov) (total - s) else total - s).
Proof.
  intros Hs Hcs Hov. unfold chunk_data, perfect_chunk. cbn [start_sample end_sample].
  unfold perfect_end.
  destruct (Z.ltb_spec (s + cs) total); rewrite slice_length by lia; lia.
Qed.

(** The comparison of the overlaps of the chunks of [S n] passes: only the
    pair with the last chunk can fail to broadcast. *)
Lemma verify_chunks_from n : forall s i,
  0 <= s -> 0 < cs -> 0 < ov <= cs ->
  (forall k, (k <= n)%nat -> s + Z.of_nat k * cs < total) ->
  total <= s + Z.of_nat (S n) * cs ->
  _verify_overlaps audio_data ov (chunks_from s i (S n)) =
  match n with
  | O => true
  | S _ => negb ((1 <? total - s - Z.of_nat n * cs) && (total - s - Z.of_nat n * cs <? ov))
  end.
Proof.
  induction n as [|n IH]; intros s i Hs Hcs Hov Hpass Hend; [reflexivity|].
  change (chunks_from s i (S (S n)))
    with (chunk_at s i :: chunk_at (s + cs) (i + 1) ::
          chunks_from (s + cs + cs) (i + 1 + 1) n).
  change (_verify_overlaps audio_data ov
            (chunk_at s i :: chunk_at (s + cs) (i + 1) ::
             chunks_from (s + cs + cs) (i + 1 + 1) n))
    with (broadcastable (length (overlap_a audio_data ov (chunk_at s i)))
                        (length (overlap_b audio_data ov (chunk_at (s + cs) (i + 1))))
          && _verify_overlaps audio_data ov (chunks_from (s + cs) (i + 1) (S n))).
  pose proof (Hpass O ltac:(lia)) as H0. pose proof (Hpass 1%nat ltac:(lia)) as H1.
  unfold overlap_a, overlap_b.
  rewrite slice_from_neg_length, slice_to_length by lia.
  rewrite !perfect_chunk_length by lia.
  destruct (Z.ltb_spec (s + cs) total) as [_|]; [|lia].
  rewrite IH; [|lia|lia|lia| |lia].
  2:{ intros k Hk. specialize (Hpass (S k)). lia. }
  destruct n as [|n].
  - destruct (Z.ltb_spec (s + cs + cs) total) as [|_]; [lia|].
    rewrite andb_true_r. unfold broadcastable.
    replace (total - s - Z.of_nat 1 * cs) with (total - (s + cs)) by lia.
    destruct (Z.ltb_spec 1 (total - (s + cs))), (Z.ltb_spec (total - (s + cs)) ov);
      cbn [andb negb];
      repeat match goal with
             | |- context [(?a =? ?b)%nat] => destruct (Nat.eqb_spec a b)
             end; cbn [orb]; try reflexivity; lia.
  - pose proof (Hpass 2%nat ltac:(lia)).
    destruct (Z.ltb_spec (s + cs + cs) total) as [_|]; [|lia].
    replace (total - (s + cs) - Z.of_nat (S n) * cs)
      with (total - s - Z.of_nat (S (S n)) * cs) by lia.
    replace (broadcastable _ _) with true; [reflexivity|].
    unfold broadcastable. symmetry. apply orb_true_iff. left. apply orb_true_iff. left.
    apply Nat.eqb_eq. lia.
Qed.

(** Without an overlap the first comparison is between a whole chunk and
    an empty array. *)
Lemma verify_zero_overlap n s i :
  0 <= s -> 1 < cs -> ov = 0 ->
  s + cs < total ->
  _verify_overlaps audio_data ov (chunks_from s i (S (S n))) = false.
Proof.
  intros Hs Hcs Hov H1.
  change (chunks_from s i (S (S n)))
    with (chunk_at s i :: chunk_at (s + cs) (i + 1) ::
          chunks_from (s + cs + cs) (i + 1 + 1) n).
  change (_verify_overlaps audio_data ov
            (chunk_at s i :: chunk_at (s + cs) (i + 1) ::
             chunks_from (s + cs + cs) (i + 1 + 1) n))
    with (broadcastable (length (overlap_a audio_data ov (chunk_at s i)))
                        (length (overlap_b audio_data ov (chunk_at (s + cs) (i + 1))))
          && _verify_overlaps audio_data ov (chunks_from (s + cs) (i + 1) (S n))).
  apply andb_false_iff. left.
  unfold overlap_a, overlap_b. rewrite Hov.
  rewrite slice_to_length by lia.
  change (- 0) with 0. rewrite slice_from_in_range by lia.
  change (Z.to_nat 0) with O. rewrite drop_0.
  pose proof (perfect_chunk_length s i ltac:(lia) ltac:(lia) ltac:(lia)) as Hlen.
  destruct (Z.ltb_spec (s + cs) total) as [_|]; [|lia].
  unfold broadcastable.
  repeat match goal with
         | |- context [(?a =? ?b)%nat] => destruct (Nat.eqb_spec a b)
         end; cbn [orb]; try reflexivity; lia.
Qed.

End PerfectOutcome.

(** X4.  The outcome of the sample-accurate planner for an overlap of at
    least one sample and at most one chunk.  An audio of at most
    [chunk_samples] samples gives one chunk that is the whole audio.  A
    longer audio (of at most 1000 chunks) is cut after every
    [chunk_samples] samples; with [L] the number of samples of the last
    chunk, the planner raises from the comparison of the overlaps when
    [1 < L < overlap_samples], and returns the plan of
    [(total - 1) / chunk_samples + 1] chunks otherwise. *)
Theorem perfect_overlap_outcome {A : Type} (audio_data : list A)
    (chunk_duration overlap_duration rate n_channels : Z) :
  let total := Z.of_nat (length audio_data) in
  let cs := chunk_samples chunk_duration rate in
  let ov := overlap_samples overlap_duration rate in
  let L := (total - 1) mod cs + 1 in
  0 < ov <= cs ->
  (0 < total <= cs ->
   split_audio_with_perfect_overlap audio_data chunk_duration overlap_duration rate
     n_channels = Done [mk_chunk 0 0 total cs rate n_channels]) /\
  (cs < total <= 1000 * cs -> 1 < L < ov ->
   split_audio_with_perfect_overlap audio_data chunk_duration overlap_duration rate
     n_channels = Raised BroadcastError) /\
  (cs < total <= 1000 * cs -> L = 1 \/ ov <= L ->
   exists plan,
     split_audio_with_perfect_overlap audio_data chunk_duration overlap_duration rate
       n_channels = Done plan /\
     Z.of_nat (length plan) = (total - 1) / cs + 1).
Proof.
  intros total cs ov L. subst total cs ov L. intros Hov.
  assert (Hcs : 0 < chunk_samples chunk_duration rate) by lia.
  split; [|].
  - intros Ht. rewrite split_audio_with_perfect_overlap_eq.
    rewrite (perfect_runs audio_data chunk_duration overlap_duration rate n_channels
               1 1002 0 0 []); [| lia | right; lia | intros k Hk | lia].
    + cbn [app perfect_chunks_from length Nat.ltb Nat.leb].
      unfold perfect_chunk, perfect_end.
      destruct (Z.ltb_spec (0 + chunk_samples chunk_duration rate)
                  (Z.of_nat (length audio_data))); [lia|]. reflexivity.
    + assert (k = O) by lia. subst k. lia.
  - pose proof (Z.div_mod (Z.of_nat (length audio_data) - 1)
                  (chunk_samples chunk_duration rate) ltac:(lia)) as Hdm.
    pose proof (Z.mod_pos_bound (Z.of_nat (length audio_data) - 1)
                  (chunk_samples chunk_duration rate) Hcs) as Hr.
    remember ((Z.of_nat (length audio_data) - 1) / chunk_samples chunk_duration rate)
      as q eqn:Eq.
    remember ((Z.of_nat (length audio_data) - 1) mod chunk_samples chunk_duration rate)
      as r eqn:Er.
    clear Eq Er.
    assert (Hlong :
       chunk_samples chunk_duration rate < Z.of_nat (length audio_data)
         <= 1000 * chunk_samples chunk_duration rate ->
       1 <= q <= 999 /\
       perfect_loop chunk_duration overlap_duration (Z.of_nat (length audio_data)) rate
         n_channels 1002 0 0 [] =
         Done (perfect_chunks_from chunk_duration overlap_duration
                 (Z.of_nat (length audio_data)) rate n_channels 0 0 (S (Z.to_nat q))) /\
       _verify_overlaps audio_data (overlap_samples overlap_duration rate)
         (perfect_chunks_from chunk_duration overlap_duration
            (Z.of_nat (length audio_data)) rate n_channels 0 0 (S (Z.to_nat q))) =
       negb ((1 <? r + 1) && (r + 1 <? overlap_samples overlap_duration rate))).
    { intros Ht.
      assert (Hq : 1 <= q <= 999) by nia.
      assert (Hpass : forall k, (k <= Z.to_nat q)%nat ->
                0 + Z.of_nat k * chunk_samples chunk_duration rate
                  < Z.of_nat (length audio_data)).
      { intros k Hk.
        assert (Z.of_nat k * chunk_samples chunk_duration rate
                  <= q * chunk_samples chunk_duration rate)
          by (apply Z.mul_le_mono_nonneg_r; lia).
        lia. }
      split; [exact Hq|]. split.
      - rewrite (perfect_runs audio_data chunk_duration overlap_duration rate n_channels
                   (S (Z.to_nat q)) 1002 0 0 []); [reflexivity | lia | right; lia | | lia].
        intros k Hk. apply Hpass. lia.
      - rewrite (verify_chunks_from audio_data chunk_duration overlap_duration rate
                   n_channels (Z.to_nat q) 0 0);
          [| lia | exact Hcs | exact Hov | exact Hpass | lia].
        destruct (Z.to_nat q) as [|m] eqn:Hm; [lia|]. rewrite <- Hm.
        replace (Z.of_nat (length audio_data) - 0
                   - Z.of_nat (Z.to_nat q) * chunk_samples chunk_duration rate)
          with (r + 1) by lia.
        reflexivity. }
    split; intros Ht HL; destruct (Hlong Ht) as (Hq & Hloop & Hver);
      rewrite split_audio_with_perfect_overlap_eq; rewrite Hloop;
      rewrite perfect_chunks_length; rewrite Hver;
      (destruct (Nat.ltb_spec 1 (S (Z.to_nat q))) as [_|]; [|lia]).
    + destruct (Z.ltb_spec 1 (r + 1)),
               (Z.ltb_spec (r + 1) (overlap_samples overlap_duration rate)); try lia.
      reflexivity.
    + eexists. split.
      * destruct (Z.ltb_spec 1 (r + 1)),
                 (Z.ltb_spec (r + 1) (overlap_samples overlap_duration rate));
          try lia; reflexivity.
      * rewrite perfect_chunks_length. lia.
Qed.

(** Fourteen samples in chunks of five with an overlap of three: the last
    chunk has four samples, and the plan of three chunks is returned. *)
Lemma perfect_overlap_outcome_witness :
  0 < overlap_samples 3 1 <= chunk_samples 5 1 /\
  chunk_samples 5 1 < 14 <= 1000 * chunk_samples 5 1 /\
  exists plan,
    split_audio_with_perfect_overlap (repeat tt 14) 5 3 1 1 = Done plan /\
    Z.of_nat (length plan) = 3.
Proof.
  split; [vm_compute; split; [reflexivity | discriminate]|].
  split; [vm_compute; split; [reflexivity | discriminate]|].
  refine (proj2 (proj2 (perfect_overlap_outcome (repeat tt 14) 5 3 1 1 _)) _ _).
  - vm_compute. split; [reflexivity | discriminate].
  - vm_compute. split; [reflexivity | discriminate].
  - right. vm_compute. discriminate.
Defined.

(** X5.  With an overlap of zero samples the sample-accurate planner never
    returns a plan of more than one chunk: for chunks of at least two
    samples and an audio longer than one chunk, the comparison of the
    overlaps sets a whole chunk against an empty array and raises. *)
Theorem zero_overlap_raises {A : Type} (audio_data : list A)
    (chunk_duration overlap_duration rate n_channels : Z) :
  let total := Z.of_nat (length audio_data) in
  let cs := chunk_samples chunk_duration rate in
  overlap_samples overlap_duration rate = 0 ->
  1 < cs ->
  cs < total <= 1000 * cs ->
  split_audio_with_perfect_overlap audio_data chunk_duration overlap_duration rate
    n_channels = Raised BroadcastError.
Proof.
  intros total cs. subst total cs. intros Hov Hcs Ht.
  pose proof (Z.div_mod (Z.of_nat (length audio_data) - 1)
                (chunk_samples chunk_duration rate) ltac:(lia)) as Hdm.
  pose proof (Z.mod_pos_bound (Z.of_nat (length audio_data) - 1)
                (chunk_samples chunk_duration rate) ltac:(lia)) as Hr.
  remember ((Z.of_nat (length audio_data) - 1) / chunk_samples chunk_duration rate)
    as q eqn:Eq.
  remember ((Z.of_nat (length audio_data) - 1) mod chunk_samples chunk_duration rate)
    as r eqn:Er.
  clear Eq Er.
  assert (Hq : 1 <= q <= 999) by nia.
  rewrite split_audio_with_perfect_overlap_eq.
  rewrite (perfect_runs audio_data chunk_duration overlap_duration rate n_channels
             (S (Z.to_nat q)) 1002 0 0 []); [| lia | right; lia | | lia].
  - cbn [app]. rewrite perfect_chunks_length.
    destruct (Nat.ltb_spec 1 (S (Z.to_nat q))) as [_|]; [|lia].
    destruct (Z.to_nat q) as [|m] eqn:Hm; [lia|].
    rewrite (verify_zero_overlap audio_data chunk_duration overlap_duration rate
               n_channels m 0 0); [reflexivity | lia | exact Hcs | exact Hov | lia].
  - intros k Hk.
    assert (Z.of_nat k * chunk_samples chunk_duration rate
              <= q * chunk_samples chunk_duration rate)
      by (apply Z.mul_le_mono_nonneg_r; lia).
    lia.
Qed.

Lemma zero_overlap_raises_witness :
  split_audio_with_perfect_overlap (repeat tt 14) 5 0 1 1 = Raised BroadcastError.
Proof.
  apply zero_overlap_raises.
  - reflexivity.
  - reflexivity.
  - vm_compute. split; [reflexivity | discriminate].
Defined.

(** *** The chunks of the sample-accurate plan *)

Lemma perfect_chunks_lookup cd ov total rate nch n : forall s i k c,
  perfect_chunks_from cd ov total rate nch s i n !! k = Some c ->
  c = perfect_chunk cd ov total rate nch (s + Z.of_nat k * chunk_samples cd rate)
        (i + Z.of_nat k).
Proof.
  induction n as [|n IH]; intros s i k c Hk; [discriminate|].
  destruct k as [|k]; simpl in Hk.
  - inversion Hk. f_equal; lia.
  - apply IH in Hk. rewrite Hk. f_equal; lia.
Qed.

(** X6.  In a plan that the sample-accurate planner returns, the chunk at
    position [k] has the index [k], starts at sample [k * chunk_samples],
    which lies inside the audio, and carries the sample rate and the channel
    count; it ends at most [chunk_samples + overlap_samples] samples after
    its start and not beyond the audio when the overlap is not negative; and
    [chunk_samples] is positive. *)
Theorem perfect_chunk_fields {A : Type} (audio_data : list A)
    (chunk_duration overlap_duration rate n_channels : Z)
    (plan : list chunk_info) (k : nat) (c : chunk_info) :
  split_audio_with_perfect_overlap audio_data chunk_duration overlap_duration rate
    n_channels = Done plan ->
  plan !! k = Some c ->
  0 < chunk_samples chunk_duration rate /\
  index c = Z.of_nat k /\
  start_sample c = Z.of_nat k * chunk_samples chunk_duration rate /\
  start_sample c < Z.of_nat (length audio_data) /\
  sample_rate c = rate /\
  channels c = n_channels /\
  (0 <= overlap_samples overlap_duration rate ->
   start_sample c < end_sample c <= Z.of_nat (length audio_data) /\
   end_sample c - start_sample c
     <= chunk_samples chunk_duration rate + overlap_samples overlap_duration rate).
Proof.
  intros Hrun Hk. apply perfect_returns in Hrun.
  destruct (perfect_outcome _ _ _ _ _ _ Hrun) as (n & -> & Hend & Hpass).
  assert (Hkn : (k < n)%nat).
  { apply lookup_lt_Some in Hk. now rewrite perfect_chunks_length in Hk. }
  pose proof (Hpass k Hkn) as Hstart. pose proof (Hpass O ltac:(lia)) as H0.
  assert (Hcs : 0 < chunk_samples chunk_duration rate) by nia.
  apply perfect_chunks_lookup in Hk. subst c. cbn [index start_sample end_sample
    sample_rate channels perfect_chunk].
  split; [exact Hcs|]. split; [lia|]. split; [lia|]. split; [lia|].
  split; [reflexivity|]. split; [reflexivity|].
  intros Hov. unfold perfect_end.
  destruct (Z.ltb_spec (0 + Z.of_nat k * chunk_samples chunk_duration rate
                        + chunk_samples chunk_duration rate)
              (Z.of_nat (length audio_data))); lia.
Qed.

Lemma perfect_chunk_fields_witness :
  split_audio_with_perfect_overlap (repeat tt 14) 5 3 1 1 =
    Done [mk_chunk 0 0 8 5 1 1; mk_chunk 1 5 13 10 1 1; mk_chunk 2 10 14 15 1 1] /\
  start_sample (mk_chunk 1 5 13 10 1 1) = Z.of_nat 1 * chunk_samples 5 1.
Proof.
  assert (Hrun : split_audio_with_perfect_overlap (repeat tt 14) 5 3 1 1 =
    Done [mk_chunk 0 0 8 5 1 1; mk_chunk 1 5 13 10 1 1; mk_chunk 2 10 14 15 1 1])
    by (vm_compute; reflexivity).
  split; [exact Hrun|].
  exact (proj1 (proj2 (proj2
           (perfect_chunk_fields (repeat tt 14) 5 3 1 1 _ 1%nat _ Hrun eq_refl)))).
Defined.

End PlannerExtras.

(** ** Planning, writing the chunks and stitching them *)

Module PipelineFacts.
Import Planner PlannerFacts Stitcher StitcherFacts Pipeline.

Section RoundTrip.
Variable sample : Type.
Variable scale : Q -> sample -> sample.
Variable audio_data : Stitcher.ndarray sample.
Variables (sr overlap_duration : Z).

Local Abbreviation total := (shape0 audio_data).
Local Abbreviation ovs := (overlap_duration * sr).
Local Abbreviation file_of := (chunk_file sample audio_data sr).
Local Abbreviation related := (same_or_faded sample scale).
Local Abbreviation kept := (Stitcher.kept_rows sample scale overlap_duration).

(** The points of the fade curve lie between 0 and 1. *)
Lemma linspace01_bounds n j :
  0 <= j < n -> (0 <= linspace01 n j <= 1)%Q.
Proof.
  intros Hj. unfold linspace01.
  destruct (Z.eqb_spec n 1) as [_|Hn]; [split; discriminate|].
  assert (Hpos : (0 < inject_Z (n - 1))%Q) by (rewrite <- (Zlt_Qlt 0); lia).
  split.
  - apply Qle_shift_div_l; [exact Hpos|]. rewrite Qmult_0_l.
    rewrite <- (Zle_Qle 0). lia.
  - apply Qle_shift_div_r; [exact Hpos|]. rewrite Qmult_1_l.
    rewrite <- Zle_Qle. lia.
Qed.

Lemma related_refl l : Forall2 related l l.
Proof. induction l; constructor; [now left | assumption]. Qed.

(** The fade changes a row only by a factor of the curve. *)
Lemma fade_in_related (a : Stitcher.ndarray sample) :
  Forall2 related (rows (Stitcher.fade_in sample scale a sr)) (rows a).
Proof.
  apply Forall2_same_length_lookup_2; [apply fade_in_length|].
  intros j out src Hout Hsrc.
  rewrite fade_in_lookup, Hsrc in Hout. simpl in Hout. inversion Hout as [Heq]. clear Hout.
  destruct (Z.ltb_spec (Z.of_nat j) (fade_samples a sr)) as [Hj|_]; [|now left].
  right. eexists. split; [|reflexivity]. apply linspace01_bounds. lia.
Qed.

(** What a chunk after the first adds to the output: the rows of the source
    from [overlap_samples] after its start to its end. *)
Lemma kept_related (c : chunk_info) :
  0 <= ovs ->
  0 <= start_sample c <= end_sample c ->
  end_sample c <= total ->
  Forall2 related (kept (file_of c))
    (if end_sample c - start_sample c >? ovs
     then Py.slice (rows audio_data) (start_sample c + ovs) (end_sample c)
     else []).
Proof.
  intros HO Hc Hend.
  unfold Stitcher.kept_rows, Stitcher.trim_and_fade, chunk_file. cbn [wav_data wav_rate].
  unfold shape0 at 1. cbn [rows ncols]. unfold chunk_data.
  unfold shape0 in Hend.
  rewrite slice_length by lia. rewrite Z2Nat.id by lia.
  destruct (Z.gtb_spec (end_sample c - start_sample c) ovs) as [Hlong|Hshort];
    [|constructor].
  match goal with
  | |- Forall2 _ (rows (Stitcher.fade_in _ _ ?t _)) ?r =>
      replace r with (rows t); [apply fade_in_related|]
  end.
  cbn [rows].
  rewrite slice_from_in_range by (rewrite slice_length; lia).
  rewrite !slice_in_range by lia.
  rewrite drop_drop. f_equal. lia.
Qed.

(** The chunks of a chain after the first add, one after the other, the
    rows of the source that follow the end of the chunk before. *)
Lemma chain_kept s plan :
  chain total ovs s plan -> 0 <= s -> 0 <= ovs ->
  Forall2 related (concat (List.map (fun c => kept (file_of c)) plan))
    (drop (Z.to_nat (Z.min (s + ovs) total)) (rows audio_data)).
Proof.
  induction 1 as [s Hs|s c rest Hstart Hlt Hsplit Hend Hrest IH]; intros Hs0 HO.
  - simpl. rewrite drop_ge by (unfold shape0 in *; lia). constructor.
  - cbn [List.map concat].
    assert (He : end_sample c = Z.min (actual_split_sample c + ovs) total).
    { rewrite Hend. destruct (Z.ltb_spec (actual_split_sample c) total); lia. }
    specialize (IH ltac:(lia) HO). rewrite <- He in IH.
    pose proof (kept_related c HO ltac:(lia) ltac:(lia)) as Hk.
    destruct (Z.gtb_spec (end_sample c - start_sample c) ovs) as [Hlong|Hshort].
    + rewrite Z.min_l by lia.
      rewrite <- (slice_to_end (rows audio_data) (s + ovs)) by (unfold shape0 in *; lia).
      rewrite <- (slice_app (rows audio_data) (s + ovs) (end_sample c))
        by (unfold shape0 in *; lia).
      apply Forall2_app; [now rewrite <- Hstart at 1|].
      rewrite slice_to_end by (unfold shape0 in *; lia). exact IH.
    + inversion Hk as [Hnil|]. cbn [app].
      replace (Z.min (s + ovs) total) with (end_sample c) by lia. exact IH.
Qed.

(** Stitching the chunk files of a chain gives back the source, row for
    row, up to the fades. *)
Lemma chain_round_trip (fs : gmap string (Stitcher.wav sample))
    (plan : list chunk_info) (f0 : string) (files : list string) (output_file : string) :
  chain total ovs 0 plan -> 0 <= ovs ->
  Forall2 (fun f c => fs !! f = Some (file_of c)) (f0 :: files) plan ->
  (files = [] -> f0 <> output_file) ->
  exists final,
    Stitcher.stitch_chunks_with_crossfade sample scale overlap_duration fs
      (f0 :: files) output_file = Done (<[output_file := mk_wav final sr]> fs) /\
    ncols final = ncols audio_data /\
    Forall2 related (rows final) (rows audio_data).
Proof.
  intros Hch HO Hfiles Hout.
  inversion Hfiles as [|? c0 ? rest H0 Hrest]; subst.
  inversion Hch as [|? ? ? Hstart Hlt Hsplit Hend Hchain]; subst.
  assert (He : end_sample c0 = Z.min (actual_split_sample c0 + ovs) total).
  { rewrite Hend. destruct (Z.ltb_spec (actual_split_sample c0) total); lia. }
  destruct files as [|f1 files].
  - inversion Hrest; subst. inversion Hchain; subst.
    exists (wav_data (file_of c0)). split; [|split].
    + unfold Stitcher.stitch_chunks_with_crossfade, copy2.
      destruct (String.eqb_spec f0 output_file) as [Heq|_]; [now destruct (Hout eq_refl)|].
      rewrite H0. reflexivity.
    + reflexivity.
    + cbn [chunk_file wav_data rows]. unfold chunk_data.
      rewrite Hstart, Hend.
      destruct (Z.ltb_spec (actual_split_sample c0) total); [lia|].
      unfold shape0. rewrite slice_full. apply related_refl.
  - eexists. split; [|split].
    + change (Stitcher.stitch_chunks_with_crossfade sample scale overlap_duration fs
                (f0 :: f1 :: files) output_file)
        with (Stitcher._stitch_ml_chunks_no_crossfade sample scale overlap_duration fs
                (f0 :: f1 :: files) output_file).
      rewrite (stitch_ml_outcome sample scale fs overlap_duration f0 (file_of c0)
                 (f1 :: files) (List.map file_of rest) output_file H0).
      * rewrite pieces_ncols; [reflexivity|].
        intros w Hw. apply in_map_iff in Hw as (c & <- & _). reflexivity.
      * apply Forall2_fmap_r. exact Hrest.
    + reflexivity.
    + cbn [rows wav_data chunk_file]. rewrite List.map_map.
      pose proof (chain_kept _ _ Hchain ltac:(lia) HO) as Hk. rewrite <- He in Hk.
      assert (Hall : Forall2 related
                (chunk_data (rows audio_data) c0
                 ++ concat (List.map (fun c => kept (file_of c)) rest))
                (chunk_data (rows audio_data) c0
                 ++ drop (Z.to_nat (end_sample c0)) (rows audio_data)))
        by (apply Forall2_app; [apply related_refl | exact Hk]).
      assert (Hsrc : chunk_data (rows audio_data) c0
                     ++ drop (Z.to_nat (end_sample c0)) (rows audio_data)
                     = rows audio_data).
      { unfold chunk_data. rewrite Hstart.
        rewrite slice_in_range by (unfold shape0 in *; lia).
        rewrite drop_0. apply take_drop. }
      rewrite Hsrc in Hall. exact Hall.
Qed.

End RoundTrip.

(** X7.  Planning, writing and stitching compose to the source.  Let a
    plan be returned by the silence-aware planner (positive target, candidates
    not beyond the audio) or by the sample-accurate planner, let the chunk
    files hold the planned slices of the audio, and let the stitcher run
    with the overlap of the planner (with a single chunk, on an output path
    other than the chunk's).  Then [AudioStitcher.stitch_chunks_with_crossfade]
    completes, at the rate and with the channel count of the source, and
    its output has the rows of the source, one for one and in order: every
    row is the source row or the source row multiplied by a fade factor
    between 0 and 1.  No sample is dropped or duplicated. *)
Theorem plan_stitch_round_trip (sample : Type) (scale : Q -> sample -> sample)
    (audio_data : Stitcher.ndarray sample) (sr overlap_duration : Z)
    (plan : list chunk_info) (fs : gmap string (Stitcher.wav sample))
    (f0 : string) (files : list string) (output_file : string) :
  0 <= overlap_duration * sr ->
  (exists target_chunk_duration max_deviation silence_boundaries,
     0 < target_chunk_duration * sr /\
     (forall b, In b silence_boundaries -> b <= shape0 audio_data) /\
     split_audio_at_silence_boundaries target_chunk_duration overlap_duration
       max_deviation (shape0 audio_data) sr (ncols audio_data) silence_boundaries
       = Done plan)
  \/ (exists chunk_duration,
        split_audio_with_perfect_overlap (rows audio_data) chunk_duration
          overlap_duration sr (ncols audio_data) = Done plan) ->
  Forall2 (fun f c => fs !! f = Some (chunk_file sample audio_data sr c))
    (f0 :: files) plan ->
  (files = [] -> f0 <> output_file) ->
  exists final,
    Stitcher.stitch_chunks_with_crossfade sample scale overlap_duration fs
      (f0 :: files) output_file = Done (<[output_file := mk_wav final sr]> fs) /\
    ncols final = ncols audio_data /\
    Forall2 (same_or_faded sample scale) (rows final) (rows audio_data).
Proof.
  intros HO Hplan Hfiles Hout.
  apply (chain_round_trip sample scale audio_data sr overlap_duration fs plan);
    [|exact HO|exact Hfiles|exact Hout].
  destruct Hplan as [(T & D & bs & HT & Hbs & Hrun)|(cd & Hrun)].
  - rewrite split_audio_at_silence_boundaries_eq in Hrun.
    exact (run_chain 1000 T overlap_duration D (shape0 audio_data) sr (ncols audio_data)
             bs plan HT Hbs Hrun).
  - apply perfect_returns in Hrun.
    exact (perfect_chain cd overlap_duration (Z.of_nat (length (rows audio_data))) sr
             (ncols audio_data) plan Hrun).
Qed.

(** Six mono frames at rate 1, a target of 4 s and an overlap of 1 s: the
    chunks [0, 5) and [4, 6) are stitched back to six frames. *)
Lemma plan_stitch_round_trip_witness :
  let audio := mk_array [[1%Q]; [2%Q]; [3%Q]; [4%Q]; [5%Q]; [6%Q]] 1 in
  let c0 := mk_chunk 0 0 5 4 1 1 in
  let c1 := mk_chunk 1 4 6 6 1 1 in
  let fs : gmap string (Stitcher.wav Q) :=
    <["b" := chunk_file Q audio 1 c1]> (<["a" := chunk_file Q audio 1 c0]> ∅) in
  0 <= 1 * 1 /\
  split_audio_at_silence_boundaries 4 1 0 6 1 1 [] = Done [c0; c1] /\
  exists final,
    Stitcher.stitch_chunks_with_crossfade Q Qmult 1 fs ["a"; "b"]%string "out" =
      Done (<["out"%string := mk_wav final 1]> fs) /\
    Forall2 (same_or_faded Q Qmult) (rows final) (rows audio).
Proof.
  intros audio c0 c1 fs.
  assert (Hrun : split_audio_at_silence_boundaries 4 1 0 6 1 1 [] = Done [c0; c1])
    by (vm_compute; reflexivity).
  split; [lia|]. split; [exact Hrun|].
  destruct (plan_stitch_round_trip Q Qmult audio 1 1 [c0; c1] fs "a" ["b"%string] "out")
    as (final & Hdone & _ & Hrows).
  - lia.
  - left. exists 4, 0, []. split; [lia|]. split; [intros b []|exact Hrun].
  - repeat constructor.
  - discriminate.
  - exists final. split; [exact Hdone | exact Hrows].
Defined.

(** The loop of the stitcher stops at the first chunk that cannot be
    read. *)
Lemma collect_missing (sample : Type) (scale : Q -> sample -> sample)
    (fs : gmap string (Stitcher.wav sample)) (ov : Z) : forall files i acc rate,
  (exists f, In f files /\ fs !! f = None) ->
  Stitcher.collect sample scale fs ov i files acc rate = Raised FileNotFound.
Proof.
  induction files as [|f files IH]; intros i acc rate (g & Hin & Hg); [destruct Hin|].
  simpl. destruct (fs !! f) as [w|] eqn:Hf; [|reflexivity].
  apply IH. exists g. split; [|exact Hg].
  destruct Hin as [->|Hin]; [congruence|exact Hin].
Qed.

(** X8.  [AudioStitcher.stitch_chunks_with_crossfade] fails when a chunk
    file is missing, wherever it stands in the list: on a non-empty list
    (for a single chunk, with an output path other than the chunk's) that
    names a file that does not exist, the stitcher raises the error of the
    read and returns no output, even when all other chunks are present and
    whatever their formats. *)
Theorem missing_chunk_raises (sample : Type) (scale : Q -> sample -> sample)
    (fs : gmap string (Stitcher.wav sample)) (overlap_duration : Z)
    (chunk_files : list string) (output_file : string) :
  chunk_files <> [] ->
  (forall f, chunk_files = [f] -> f <> output_file) ->
  (exists f, In f chunk_files /\ fs !! f = None) ->
  Stitcher.stitch_chunks_with_crossfade sample scale overlap_duration fs chunk_files
    output_file = Raised FileNotFound.
Proof.
  intros Hne Hout Hmiss.
  destruct chunk_files as [|f0 [|f1 files]]; [congruence| |].
  - destruct Hmiss as (g & [<-|[]] & Hg).
    unfold Stitcher.stitch_chunks_with_crossfade, copy2.
    destruct (String.eqb_spec f0 output_file) as [Heq|_];
      [now destruct (Hout f0 eq_refl)|].
    now rewrite Hg.
  - change (Stitcher.stitch_chunks_with_crossfade sample scale overlap_duration fs
              (f0 :: f1 :: files) output_file)
      with (Stitcher._stitch_ml_chunks_no_crossfade sample scale overlap_duration fs
              (f0 :: f1 :: files) output_file).
    unfold Stitcher._stitch_ml_chunks_no_crossfade.
    now rewrite collect_missing.
Qed.

Lemma missing_chunk_raises_witness :
  let w0 := mk_wav (mk_array [[1%Q]; [2%Q]] 1) 44100 in
  let fs : gmap string (Stitcher.wav Q) := <["a" := w0]> ∅ in
  Stitcher.stitch_chunks_with_crossfade Q Qmult 2 fs ["a"; "b"]%string "out" =
    Raised FileNotFound.
Proof.
  intros w0 fs. apply missing_chunk_raises.
  - discriminate.
  - discriminate.
  - exists "b"%string. split; [right; now left | reflexivity].
Defined.

(** X9.  The fade at a junction.  Of a later chunk that is longer than
    the overlap, the stitcher keeps row [overlap_samples + j] of the chunk
    as its [j]-th row.  With [n = min(int(0.05 * rate), kept rows)], the
    rows from [n] on are unchanged; a row before [n] is multiplied by a
    factor between 0 and 1 that is 0 for the first kept row and 1 for row
    [n - 1] when [n > 1]: the first frame after every junction is
    silenced. *)
Theorem junction_fade (sample : Type) (scale : Q -> sample -> sample)
    (overlap_duration : Z) (w : Stitcher.wav sample) (j : nat) (row : list sample) :
  let overlap_samples := overlap_duration * wav_rate w in
  let n := Z.min (Z.quot (50 * wav_rate w) 1000)
                 (shape0 (wav_data w) - overlap_samples) in
  0 <= overlap_samples ->
  rows (wav_data w) !! (Z.to_nat overlap_samples + j)%nat = Some row ->
  exists out,
    Stitcher.kept_rows sample scale overlap_duration w !! j = Some out /\
    (n <= Z.of_nat j -> out = row) /\
    (Z.of_nat j < n ->
     exists factor,
       out = List.map (scale factor) row /\
       (0 <= factor <= 1)%Q /\
       (j = O -> (factor == 0)%Q) /\
       (1 < n -> Z.of_nat j = n - 1 -> (factor == 1)%Q)).
Proof.
  intros overlap_samples n HO Hrow.
  assert (Hlong : shape0 (wav_data w) > overlap_samples).
  { apply lookup_lt_Some in Hrow. unfold shape0. lia. }
  destruct (Stitcher.trim_and_fade sample scale overlap_duration (wav_data w) (wav_rate w))
    as [a|] eqn:Ha.
  2:{ unfold Stitcher.trim_and_fade in Ha.
      destruct (Z.gtb_spec (shape0 (wav_data w)) (overlap_duration * wav_rate w));
        [discriminate|]. unfold overlap_samples in Hlong. lia. }
  pose proof (kept_rows_lookup sample scale overlap_duration w a j HO Ha) as Hj.
  fold overlap_samples in Hj. rewrite Hrow in Hj. simpl in Hj.
  assert (Hn : fade_samples a (wav_rate w) = n).
  { pose proof (kept_rows_length sample scale overlap_duration w HO) as Hlen.
    unfold Stitcher.kept_rows in Hlen. rewrite Ha in Hlen.
    unfold fade_samples, shape0 at 1. rewrite Hlen.
    unfold n, fade_ms, overlap_samples. lia. }
  rewrite Hn in Hj.
  unfold Stitcher.kept_rows. rewrite Ha. eexists. split; [exact Hj|]. split.
  - intros Hge. destruct (Z.ltb_spec (Z.of_nat j) n); [lia|reflexivity].
  - intros Hlt. destruct (Z.ltb_spec (Z.of_nat j) n); [|lia].
    exists (linspace01 n (Z.of_nat j)). split; [reflexivity|].
    split; [apply linspace01_bounds; lia|]. split.
    + intros ->. unfold linspace01. destruct (n =? 1); [reflexivity|].
      simpl. unfold Qdiv. now rewrite Qmult_0_l.
    + intros Hn1 Hlast. unfold linspace01.
      destruct (Z.eqb_spec n 1); [lia|]. rewrite Hlast.
      apply Qmult_inv_r. intros E.
      assert (Hpos : (0 < inject_Z (n - 1))%Q) by (rewrite <- (Zlt_Qlt 0); lia).
      rewrite E in Hpos. discriminate.
Qed.

Lemma junction_fade_witness :
  let w := mk_wav (mk_array [[1%Q]; [2%Q]; [3%Q]; [4%Q]] 1) 40 in
  0 <= 0 * 40 /\
  exists out,
    Stitcher.kept_rows Q Qmult 0 w !! O = Some out /\
    exists factor, out = List.map (Qmult factor) [1%Q] /\ (factor == 0)%Q.
Proof.
  intros w. split; [lia|].
  destruct (junction_fade Q Qmult 0 w O [1%Q] ltac:(vm_compute; discriminate) eq_refl)
    as (out & Hout & _ & Hfade).
  exists out. split; [exact Hout|].
  destruct (Hfade ltac:(vm_compute; reflexivity)) as (factor & E & _ & H0 & _).
  exists factor. split; [exact E|exact (H0 eq_refl)].
Defined.

(** X10.  The silence-aware chunker and the stitcher, end to end.  Let the
    detected non-silent intervals lie inside the audio (or let the detection
    have failed), let the deviation be non-negative and below the target
    duration, the overlap non-negative, the rate positive, and let the audio
    be non-empty and at most [1000 * (target - max_deviation)] seconds long.
    Then the planner returns a plan with at least one chunk, and whenever
    the chunk files hold the planned slices, the stitcher with the same
    overlap completes and returns the audio, frame for frame, up to the
    fades. *)
Theorem smart_chunk_and_stitch (sample : Type) (scale : Q -> sample -> sample)
    (audio_data : Stitcher.ndarray sample) (sr : Z)
    (target_chunk_duration overlap_duration max_deviation : Z)
    (detected : option (list (Z * Z))) :
  0 < sr ->
  0 <= max_deviation < target_chunk_duration ->
  0 <= overlap_duration ->
  0 < shape0 audio_data <= 1000 * ((target_chunk_duration - max_deviation) * sr) ->
  (forall intervals a b, detected = Some intervals -> In (a, b) intervals ->
     0 <= a <= b /\ b <= shape0 audio_data) ->
  exists c0 rest,
    split_audio_at_silence_boundaries target_chunk_duration overlap_duration
      max_deviation (shape0 audio_data) sr (ncols audio_data)
      (Boundaries.find_silence_boundaries detected (shape0 audio_data))
      = Done (c0 :: rest) /\
    forall (fs : gmap string (Stitcher.wav sample)) (f0 : string) (files : list string)
           (output_file : string),
      Forall2 (fun f c => fs !! f = Some (chunk_file sample audio_data sr c))
        (f0 :: files) (c0 :: rest) ->
      (files = [] -> f0 <> output_file) ->
      exists final,
        Stitcher.stitch_chunks_with_crossfade sample scale overlap_duration fs
          (f0 :: files) output_file = Done (<[output_file := mk_wav final sr]> fs) /\
        ncols final = ncols audio_data /\
        Forall2 (same_or_faded sample scale) (rows final) (rows audio_data).
Proof.
  intros Hsr HM Hov Htotal Hdet.
  set (bs := Boundaries.find_silence_boundaries detected (shape0 audio_data)).
  assert (Hbs : forall b, In b bs -> b <= shape0 audio_data).
  { intros b Hb.
    apply (PlannerExtras.silence_boundaries_range detected (shape0 audio_data)
             ltac:(lia) Hdet b Hb). }
  assert (HT : 0 < target_chunk_duration * sr) by nia.
  destruct (PlannerExtras.run_succeeds 1000 target_chunk_duration overlap_duration
              max_deviation (shape0 audio_data) sr (ncols audio_data) bs)
    as (plan & Hrun); [lia|nia|nia|].
  pose proof (run_chain 1000 target_chunk_duration overlap_duration max_deviation
                (shape0 audio_data) sr (ncols audio_data) bs plan HT Hbs Hrun) as Hch.
  destruct plan as [|c0 rest]; [inversion Hch; lia|].
  exists c0, rest. split.
  - rewrite split_audio_at_silence_boundaries_eq. exact Hrun.
  - intros fs f0 files output_file Hfiles Hout.
    apply (chain_round_trip sample scale audio_data sr overlap_duration fs (c0 :: rest));
      [exact Hch|nia|exact Hfiles|exact Hout].
Qed.

Lemma smart_chunk_and_stitch_witness :
  let audio := mk_array [[1%Q]; [2%Q]; [3%Q]; [4%Q]; [5%Q]; [6%Q]] 1 in
  exists c0 rest,
    split_audio_at_silence_boundaries 4 1 1 6 1 1
      (Boundaries.find_silence_boundaries (Some [(0, 2); (4, 6)]) 6) = Done (c0 :: rest).
Proof.
  intros audio.
  destruct (smart_chunk_and_stitch Q Qmult audio 1 4 1 1 (Some [(0, 2); (4, 6)]))
    as (c0 & rest & Hrun & _).
  - lia.
  - lia.
  - lia.
  - vm_compute. split; [reflexivity|discriminate].
  - intros intervals a b E Hin. inversion E; subst intervals.
    change (shape0 audio) with 6.
    destruct Hin as [H|[H|[]]]; inversion H; lia.
  - exists c0, rest. exact Hrun.
Defined.

End PipelineFacts.

(** ** The text path: cleaning, trimming and stitching *)

Module TextExtras.
Import TextPath TextPathFacts TextShape.

(** *** Stripping *)

Lemma lstrip_app a : forall b,
  lstrip (a ++ b) = if forallb is_space a then lstrip b else lstrip a ++ b.
Proof.
  induction a as [|c a IH]; intros b; simpl; [reflexivity|].
  destruct (is_space c); simpl; [apply IH|reflexivity].
Qed.

Lemma forallb_rev {A} (f : A -> bool) l : forallb f (rev l) = forallb f l.
Proof.
  induction l as [|x l IH]; simpl; [reflexivity|].
  rewrite forallb_app, IH. simpl. rewrite andb_true_r. apply andb_comm.
Qed.

Lemma lstrip_all_space s : forallb is_space s = true -> lstrip s = [].
Proof.
  induction s as [|c s IH]; simpl; [reflexivity|].
  destruct (is_space c); simpl; [exact IH|discriminate].
Qed.

(** [rstrip] by recursion from the front. *)
Lemma rstrip_cons c r :
  rstrip (c :: r) = if forallb is_space (c :: r) then [] else c :: rstrip r.
Proof.
  unfold rstrip. cbn [rev]. rewrite lstrip_app, forallb_rev. cbn [forallb].
  destruct (forallb is_space r) eqn:Hr.
  - rewrite andb_true_r. rewrite (lstrip_all_space (rev r)) by now rewrite forallb_rev.
    simpl. now destruct (is_space c).
  - rewrite andb_false_r. rewrite rev_app_distr. reflexivity.
Qed.

Lemma rstrip_nil : rstrip [] = [].
Proof. reflexivity. Qed.

(** A text is its stripped text between two runs of white space. *)
Lemma lstrip_split s :
  exists pre, s = pre ++ lstrip s /\ forallb is_space pre = true.
Proof.
  induction s as [|c s (pre & IH & Hpre)]; [now exists []|].
  simpl. destruct (is_space c) eqn:Hc.
  - exists (c :: pre). simpl. rewrite Hc, Hpre. split; [now f_equal|reflexivity].
  - now exists [].
Qed.

Lemma rstrip_split s :
  exists post, s = rstrip s ++ post /\ forallb is_space post = true.
Proof.
  induction s as [|c s (post & IH & Hpost)]; [now exists []|].
  rewrite rstrip_cons. destruct (forallb is_space (c :: s)) eqn:Hall.
  - now exists (c :: s).
  - exists post. split; [simpl; now f_equal|exact Hpost].
Qed.

Lemma strip_split s :
  exists pre post, s = pre ++ strip s ++ post /\
                   forallb is_space pre = true /\ forallb is_space post = true.
Proof.
  destruct (lstrip_split s) as (pre & Hs & Hpre).
  destruct (rstrip_split (lstrip s)) as (post & Hl & Hpost).
  exists pre, post. unfold strip. rewrite <- Hl. auto.
Qed.

Lemma strip_occurs s : occurs (strip s) s.
Proof. destruct (strip_split s) as (pre & post & H & _). now exists pre, post. Qed.

Lemma lstrip_head s c rest : lstrip s = c :: rest -> is_space c = false.
Proof.
  induction s as [|d s IH]; simpl; [discriminate|].
  destruct (is_space d) eqn:Hd; [exact IH|]. intros H. inversion H; subst. exact Hd.
Qed.

Lemma rstrip_last s : forall pre c, rstrip s = pre ++ [c] -> is_space c = false.
Proof.
  intros pre c H. unfold rstrip in H.
  apply (f_equal (@rev ascii)) in H. rewrite rev_involutive, rev_app_distr in H.
  simpl in H. eapply lstrip_head. exact H.
Qed.

(** Stripping leaves a text that begins and ends with a character that is
    not white space. *)
Lemma strip_head s c rest : strip s = c :: rest -> is_space c = false.
Proof.
  unfold strip. intros H.
  destruct (lstrip s) as [|d l] eqn:Hl; [discriminate|].
  rewrite rstrip_cons in H. destruct (forallb is_space (d :: l)); [discriminate|].
  inversion H; subst. eapply lstrip_head. exact Hl.
Qed.

Lemma strip_last s pre c : strip s = pre ++ [c] -> is_space c = false.
Proof. unfold strip. apply rstrip_last. Qed.

(** *** Cleaning *)

Local Abbreviation noterm := (fun _ : ascii => false).

Lemma space_not_terminal c : is_space c = true -> is_terminal c = false.
Proof.
  destruct c as [[] [] [] [] [] [] [] []]; vm_compute; congruence.
Qed.

(** After the first substitution white space occurs only as single
    spaces. *)
Lemma collapse_well_spaced u : forall p,
  p <> KTerm ->
  (p = KStart -> forall c r, u = c :: r -> is_space c = false) ->
  (forall pre c, u = pre ++ [c] -> is_space c = false) ->
  (u = [] -> p <> KSpace) ->
  well_spaced noterm false p
    (collapse_spaces (match p with KSpace => true | _ => false end) u) = true.
Proof.
  induction u as [|c r IH]; intros p Hp Hhead Hlast Hnil.
  - simpl. destruct p; try reflexivity. now destruct (Hnil eq_refl).
  - assert (Hlast' : forall pre d, r = pre ++ [d] -> is_space d = false).
    { intros pre d ->. apply (Hlast (c :: pre) d). reflexivity. }
    cbn [collapse_spaces]. destruct (is_space c) eqn:Hc.
    + assert (Hr : r <> []).
      { intros ->. specialize (Hlast [] c eq_refl). congruence. }
      destruct p.
      * specialize (Hhead eq_refl c r eq_refl). congruence.
      * change (well_spaced noterm false KSpace (collapse_spaces true r) = true).
        apply (IH KSpace); [discriminate|discriminate|exact Hlast'|contradiction].
      * apply (IH KSpace); [discriminate|discriminate|exact Hlast'|contradiction].
      * contradiction.
    + assert (E : collapse_spaces (match p with KSpace => true | _ => false end) (c :: r)
                  = c :: collapse_spaces false r) by (cbn [collapse_spaces]; now rewrite Hc).
      replace (if match p with KSpace => true | _ => false end
               then c :: collapse_spaces false r else c :: collapse_spaces false r)
        with (c :: collapse_spaces false r) by now destruct p.
      cbn [well_spaced]. rewrite Hc.
      replace (match p with KTerm => false | _ => true end) with true
        by (destruct p; congruence).
      simpl. apply (IH KPlain); [discriminate|discriminate|exact Hlast'|discriminate].
Qed.

Lemma space_after_terminal_well_spaced v : forall p skipping q,
  sat_states p skipping q ->
  well_spaced noterm false p v = true ->
  well_spaced is_terminal true q (space_after_terminal skipping v) = true.
Proof.
  induction v as [|c r IH]; intros p skipping q Hst Hv.
  - simpl. now destruct q.
  - cbn [well_spaced] in Hv. cbn [space_after_terminal].
    destruct (is_space c) eqn:Hc.
    + rewrite (space_not_terminal c Hc).
      apply andb_true_iff in Hv as [Hv Hr]. apply andb_true_iff in Hv as [Heq Hp].
      rewrite andb_true_r.
      destruct p; try discriminate; destruct skipping, q; try contradiction.
      * apply (IH KSpace true KSpace); [exact I|exact Hr].
      * cbn [well_spaced]. rewrite Hc, Heq. simpl.
        apply (IH KSpace false KSpace); [exact I|exact Hr].
    + apply andb_true_iff in Hv as [Hp Hr].
      rewrite andb_false_r.
      assert (Hq : match q with KTerm => false | _ => true end = true).
      { destruct p, skipping, q; try contradiction; try reflexivity. }
      destruct (is_terminal c) eqn:Ht.
      * cbn [well_spaced]. rewrite Hc, Ht, Hq. simpl.
        apply (IH KPlain true KSpace); [exact I|exact Hr].
      * cbn [well_spaced]. rewrite Hc, Ht, Hq. simpl.
        apply (IH KPlain false KPlain); [exact I|exact Hr].
Qed.

Lemma well_spaced_not_blank T x : forall p,
  well_spaced T false p x = true -> x <> [] -> forallb is_space x = false.
Proof.
  induction x as [|c r IH]; intros p Hx Hne; [contradiction|].
  cbn [well_spaced] in Hx. cbn [forallb]. destruct (is_space c) eqn:Hc; [|reflexivity].
  apply andb_true_iff in Hx as [_ Hr]. simpl. apply (IH KSpace Hr).
  intros ->. discriminate.
Qed.

Lemma rstrip_well_spaced T w : forall p,
  well_spaced T true p w = true ->
  (p = KSpace -> forallb is_space w = false) ->
  well_spaced T false p (rstrip w) = true.
Proof.
  induction w as [|c r IH]; intros p Hw Hp.
  - rewrite rstrip_nil. simpl. destruct p; try reflexivity. now specialize (Hp eq_refl).
  - rewrite rstrip_cons. destruct (forallb is_space (c :: r)) eqn:Hall.
    + simpl. destruct p; try reflexivity. now specialize (Hp eq_refl).
    + cbn [well_spaced] in *. cbn [forallb] in Hall. destruct (is_space c) eqn:Hc.
      * apply andb_true_iff in Hw as [Hg Hr]. rewrite Hg. simpl.
        apply IH; [exact Hr|]. intros _. exact Hall.
      * apply andb_true_iff in Hw as [Hg Hr]. rewrite Hg. simpl.
        apply IH; [exact Hr|]. now destruct (T c).
Qed.

Lemma well_spaced_lstrip T tr x :
  well_spaced T tr KStart x = true -> lstrip x = x.
Proof.
  destruct x as [|c r]; [reflexivity|]. simpl.
  destruct (is_space c); [|reflexivity]. rewrite andb_false_r. discriminate.
Qed.

Lemma well_spaced_rstrip T x p :
  well_spaced T false p x = true -> rstrip x = x.
Proof.
  revert p. induction x as [|c r IH]; intros p Hx; [reflexivity|].
  rewrite rstrip_cons.
  rewrite (well_spaced_not_blank T (c :: r) p Hx) by discriminate.
  f_equal. cbn [well_spaced] in Hx.
  destruct (is_space c); apply andb_true_iff in Hx as [_ Hr]; eapply IH; exact Hr.
Qed.

Lemma well_spaced_strip T x :
  well_spaced T false KStart x = true -> strip x = x.
Proof.
  intros Hx. unfold strip. rewrite (well_spaced_lstrip T false x Hx).
  now apply (well_spaced_rstrip T x KStart).
Qed.

(** The cleaned text is well spaced. *)
Lemma clean_well_spaced t :
  well_spaced is_terminal false KStart (clean_transcript_text t) = true.
Proof.
  destruct t as [|c0 t0]; [reflexivity|].
  unfold clean_transcript_text.
  set (u := strip (c0 :: t0)).
  assert (Hv : well_spaced noterm false KStart (collapse_spaces false u) = true).
  { apply (collapse_well_spaced u KStart).
    - discriminate.
    - intros _ c r H. eapply strip_head. exact H.
    - intros pre c H. eapply strip_last. exact H.
    - discriminate. }
  pose proof (space_after_terminal_well_spaced _ KStart false KStart I Hv) as Hw.
  unfold strip at 1. rewrite (well_spaced_lstrip _ _ _ Hw).
  apply rstrip_well_spaced; [exact Hw|discriminate].
Qed.

(** On a well-spaced text the two substitutions change nothing but for a
    space that the second one adds after a terminal character at the
    end. *)
Lemma collapse_well_spaced_id T tr x : forall p in_run,
  well_spaced T tr p x = true ->
  (in_run = true -> p = KSpace \/ p = KStart) ->
  collapse_spaces in_run x = x.
Proof.
  induction x as [|c r IH]; intros p in_run Hx Hrun; [reflexivity|].
  cbn [well_spaced] in Hx. cbn [collapse_spaces]. destruct (is_space c) eqn:Hc.
  - apply andb_true_iff in Hx as [Hg Hr]. apply andb_true_iff in Hg as [Heq Hp].
    apply Ascii.eqb_eq in Heq. subst c.
    destruct in_run.
    + destruct (Hrun eq_refl) as [->| ->]; discriminate.
    + f_equal. apply (IH KSpace); [exact Hr|now left].
  - apply andb_true_iff in Hx as [_ Hr]. f_equal.
    eapply IH; [exact Hr|discriminate].
Qed.

Lemma space_after_terminal_id x : forall p skipping,
  well_spaced is_terminal false p x = true ->
  (p = KTerm -> skipping = true) ->
  (skipping = true -> p <> KPlain) ->
  match p with KTerm => [" "%char] | _ => [] end ++ space_after_terminal skipping x =
  x ++ match final_kind p x with KTerm => [" "%char] | _ => [] end.
Proof.
  induction x as [|c r IH]; intros p skipping Hx Hterm Hskip.
  - simpl. destruct p; reflexivity.
  - cbn [well_spaced] in Hx. cbn [space_after_terminal final_kind].
    destruct (is_space c) eqn:Hc.
    + rewrite (space_not_terminal c Hc).
      apply andb_true_iff in Hx as [Hg Hr]. apply andb_true_iff in Hg as [Heq Hp].
      apply Ascii.eqb_eq in Heq. subst c.
      specialize (IH KSpace). cbn [app] in IH.
      destruct p; try discriminate.
      * destruct skipping; [now destruct (Hskip eq_refl)|].
        cbn [andb app]. f_equal. apply IH; [exact Hr|discriminate|discriminate].
      * rewrite (Hterm eq_refl). cbn [andb app]. f_equal.
        apply IH; [exact Hr|discriminate|discriminate].
    + apply andb_true_iff in Hx as [Hp Hr]. rewrite andb_false_r.
      replace (match p with KTerm => [" "%char] | _ => [] end) with (@nil ascii)
        by (destruct p; try reflexivity; discriminate).
      cbn [app]. destruct (is_terminal c) eqn:Ht.
      * f_equal. apply (IH KTerm true); [exact Hr|reflexivity|discriminate].
      * f_equal. apply (IH KPlain false); [exact Hr|discriminate|discriminate].
Qed.

Lemma rstrip_app_space x : rstrip (x ++ [" "%char]) = rstrip x.
Proof. unfold rstrip. rewrite rev_app_distr. reflexivity. Qed.

(** A well-spaced text is left as it is by the cleaning. *)
Lemma clean_well_spaced_id x :
  well_spaced is_terminal false KStart x = true -> clean_transcript_text x = x.
Proof.
  intros Hx. destruct x as [|c r] eqn:Ex; [reflexivity|]. rewrite <- Ex in *.
  assert (Hclean : clean_transcript_text x =
                   strip (space_after_terminal false (collapse_spaces false (strip x))))
    by (rewrite Ex; reflexivity).
  rewrite Hclean. rewrite (well_spaced_strip _ x Hx).
  rewrite (collapse_well_spaced_id _ _ x KStart false Hx) by discriminate.
  pose proof (space_after_terminal_id x KStart false Hx) as Hsat.
  cbn [app] in Hsat. rewrite Hsat by discriminate.
  assert (Hhead : lstrip (x ++ match final_kind KStart x with
                               | KTerm => [" "%char] | _ => [] end)
                  = x ++ match final_kind KStart x with KTerm => [" "%char] | _ => [] end).
  { rewrite Ex in Hx |- *. cbn [well_spaced] in Hx. cbn [app lstrip].
    destruct (is_space c); [|reflexivity]. rewrite andb_false_r in Hx. discriminate. }
  unfold strip. rewrite Hhead.
  destruct (final_kind KStart x).
  - rewrite app_nil_r. now apply (well_spaced_rstrip is_terminal x KStart).
  - rewrite app_nil_r. now apply (well_spaced_rstrip is_terminal x KStart).
  - rewrite app_nil_r. now apply (well_spaced_rstrip is_terminal x KStart).
  - rewrite rstrip_app_space. now apply (well_spaced_rstrip is_terminal x KStart).
Qed.

(** Two neighbouring characters of a well-spaced text. *)
Lemma well_spaced_adjacent pre : forall p c d post,
  well_spaced is_terminal false p (pre ++ c :: d :: post) = true ->
  (is_space c = true -> c = " "%char /\ is_space d = false) /\
  (is_terminal c = true -> d = " "%char).
Proof.
  induction pre as [|a pre IH]; intros p c d post H.
  - cbn [app well_spaced] in H. destruct (is_space c) eqn:Hc.
    + apply andb_true_iff in H as [Hg Hr]. apply andb_true_iff in Hg as [Heq _].
      apply Ascii.eqb_eq in Heq. split.
      * intros _. split; [exact Heq|].
        destruct (is_space d); [|reflexivity].
        rewrite andb_false_r in Hr. discriminate.
      * intros Ht. rewrite (space_not_terminal c Hc) in Ht. discriminate.
    + apply andb_true_iff in H as [_ Hr]. split; [discriminate|].
      intros Ht. rewrite Ht in Hr.
      destruct (is_space d); [|discriminate].
      apply andb_true_iff in Hr as [Hg _]. apply andb_true_iff in Hg as [Heq _].
      now apply Ascii.eqb_eq in Heq.
  - cbn [app well_spaced] in H.
    destruct (is_space a); apply andb_true_iff in H as [_ Hr]; eapply IH; exact Hr.
Qed.

(** X11.  The text that [clean_transcript_text] returns is in a normal form:
    it neither begins nor ends with white space; every white-space character
    in it is a plain space that is followed by a character that is not white
    space; and every [.], [!] or [?] that is not the last character is
    followed by a space.  Cleaning a cleaned text changes nothing. *)
Theorem clean_transcript_text_normal (t : text) :
  let r := clean_transcript_text t in
  (forall c rest, r = c :: rest -> is_space c = false) /\
  (forall pre c, r = pre ++ [c] -> is_space c = false) /\
  (forall pre c d post, r = pre ++ c :: d :: post ->
     (is_space c = true -> c = " "%char /\ is_space d = false) /\
     (is_terminal c = true -> d = " "%char)) /\
  clean_transcript_text r = r.
Proof.
  intros r. pose proof (clean_well_spaced t) as Hr. fold r in Hr.
  split; [|split; [|split]].
  - intros c rest E. rewrite E in Hr. cbn [well_spaced] in Hr.
    destruct (is_space c); [|reflexivity]. rewrite andb_false_r in Hr. discriminate.
  - intros pre c E.
    pose proof (well_spaced_rstrip is_terminal r KStart Hr) as Hstrip.
    rewrite E in Hstrip. eapply rstrip_last. exact Hstrip.
  - intros pre c d post E. rewrite E in Hr. eapply well_spaced_adjacent. exact Hr.
  - now apply clean_well_spaced_id.
Qed.

(** *** Sentences, trimming and stitching *)

Lemma occurs_trans a b c : occurs a b -> occurs b c -> occurs a c.
Proof.
  intros (p & q & ->) (p' & q' & ->). exists (p' ++ p), (q ++ q').
  now rewrite <- !app_assoc.
Qed.

Lemma occurs_refl a : occurs a a.
Proof. exists [], []. simpl. now rewrite app_nil_r. Qed.

Lemma occurs_In a b c : occurs a b -> In c a -> In c b.
Proof. intros (p & q & ->) Hc. apply in_or_app. right. apply in_or_app. now left. Qed.

(** The pieces of the split are parts of the text without a terminal
    character; the first one continues [cur]. *)
Lemma re_split_terminal_pieces s : forall cur in_sep p,
  In p (re_split_terminal cur in_sep s) ->
  (exists q rest, p = cur ++ q /\ s = q ++ rest /\ forall c, In c q -> is_terminal c = false)
  \/ (occurs p s /\ forall c, In c p -> is_terminal c = false).
Proof.
  induction s as [|c r IH]; intros cur in_sep p Hp.
  - destruct Hp as [<-|[]]. left. exists [], []. rewrite app_nil_r.
    split; [reflexivity|]. split; [reflexivity|]. intros c [].
  - cbn [re_split_terminal] in Hp. destruct (is_terminal c) eqn:Hc.
    + assert (Hrest : In p (re_split_terminal [] true r) ->
                      occurs p (c :: r) /\ forall d, In d p -> is_terminal d = false).
      { intros H. destruct (IH _ _ _ H) as [(q & rest & -> & -> & Hq)|[(a & b & ->) Hq]].
        - split; [|exact Hq]. exists [c], rest. reflexivity.
        - split; [|exact Hq]. exists (c :: a), b. reflexivity. }
      destruct in_sep; [right; now apply Hrest|].
      destruct Hp as [<-|Hp]; [|right; now apply Hrest].
      left. exists [], (c :: r). rewrite app_nil_r.
      split; [reflexivity|]. split; [reflexivity|]. intros d [].
    + destruct (IH _ _ _ Hp) as [(q & rest & -> & -> & Hq)|[(a & b & ->) Hq]].
      * left. exists (c :: q), rest. rewrite <- app_assoc.
        split; [reflexivity|]. split; [reflexivity|].
        intros d [<-|Hd]; [exact Hc|now apply Hq].
      * right. split; [|exact Hq]. exists (c :: a), b. reflexivity.
Qed.

(** X12.  Every sentence that [detect_overlap_boundary] extracts from a
    text (split at runs of [.], [!] and [?], stripped, empty pieces dropped)
    is a non-empty contiguous part of the text without [.], [!] or [?],
    and neither begins nor ends with white space. *)
Theorem sentences_shape (t : text) :
  Forall (fun s =>
            s <> [] /\ occurs s t /\
            (forall c, In c s -> is_terminal c = false) /\
            (forall c rest, s = c :: rest -> is_space c = false) /\
            (forall pre c, s = pre ++ [c] -> is_space c = false))
         (sentences t).
Proof.
  apply List.Forall_forall. intros s Hs. unfold sentences in Hs.
  apply filter_In in Hs as [Hs Hne]. apply in_map_iff in Hs as (p & <- & Hp).
  assert (Hpt : occurs p t /\ forall c, In c p -> is_terminal c = false).
  { destruct (re_split_terminal_pieces t [] false p Hp)
      as [(q & rest & -> & -> & Hq)|H]; [|exact H].
    split; [|exact Hq]. exists [], rest. reflexivity. }
  destruct Hpt as [Hocc Hterm].
  split; [|split; [|split; [|split]]].
  - intros E. rewrite E in Hne. discriminate.
  - eapply occurs_trans; [apply strip_occurs|exact Hocc].
  - intros c Hc. apply Hterm. eapply occurs_In; [apply strip_occurs|exact Hc].
  - intros c rest E. eapply strip_head. exact E.
  - intros pre c E. eapply strip_last. exact E.
Qed.

Lemma slice_from_occurs (s : text) k : occurs (Py.slice_from s k) s.
Proof.
  unfold Py.slice_from.
  exists (take (Z.to_nat (Py.norm (Z.of_nat (length s)) k)) s), [].
  rewrite app_nil_r. symmetry. apply take_drop.
Qed.

Lemma trimmed_occurs ov previous_text chunk_text :
  occurs (chunk_text_trimmed ov previous_text chunk_text) chunk_text.
Proof.
  unfold chunk_text_trimmed.
  destruct (detect_overlap_boundary previous_text chunk_text ov) as [k|].
  - eapply occurs_trans; [apply strip_occurs|apply slice_from_occurs].
  - apply occurs_refl.
Qed.

(** X13.  What is kept of a chunk after the overlap is removed is a
    contiguous part of the cleaned text of that chunk, for every overlap
    duration and every previous text; when a boundary was detected it
    neither begins nor ends with white space. *)
Theorem trimmed_text_is_part (overlap_duration : Z) (previous_text chunk_text : text) :
  let kept := chunk_text_trimmed overlap_duration previous_text chunk_text in
  occurs kept chunk_text /\
  (detect_overlap_boundary previous_text chunk_text overlap_duration <> None ->
   (forall c rest, kept = c :: rest -> is_space c = false) /\
   (forall pre c, kept = pre ++ [c] -> is_space c = false)).
Proof.
  cbv zeta. split; [apply trimmed_occurs|].
  unfold chunk_text_trimmed.
  destruct (detect_overlap_boundary previous_text chunk_text overlap_duration) as [k|].
  - intros _. split.
    + intros c rest E. eapply strip_head. exact E.
    + intros pre c E. eapply strip_last. exact E.
  - intros H. now destruct H.
Qed.

Lemma trimmed_text_is_part_witness :
  let chunk1 := list_ascii_of_string "One two. Three four. Five six" in
  let chunk2 := list_ascii_of_string "Three four. Five six. Seven eight." in
  detect_overlap_boundary chunk1 chunk2 30 <> None /\
  forall c rest, chunk_text_trimmed 30 chunk1 chunk2 = c :: rest -> is_space c = false.
Proof.
  intros chunk1 chunk2.
  assert (H : detect_overlap_boundary chunk1 chunk2 30 <> None)
    by (vm_compute; discriminate).
  split; [exact H|].
  exact (proj1 (proj2 (trimmed_text_is_part 30 chunk1 chunk2) H)).
Defined.

(** *** The stitched text *)

Lemma well_spaced_app a : forall p b tr,
  well_spaced is_terminal true p a = true ->
  well_spaced is_terminal tr (final_kind p a) b = true ->
  well_spaced is_terminal tr p (a ++ b) = true.
Proof.
  induction a as [|c r IH]; intros p b tr Ha Hb; [exact Hb|].
  cbn [app well_spaced final_kind] in *. destruct (is_space c).
  - apply andb_true_iff in Ha as [Hg Hr]. rewrite Hg. simpl. now apply IH.
  - apply andb_true_iff in Ha as [Hg Hr]. rewrite Hg. simpl.
    destruct (is_terminal c); now apply IH.
Qed.

Lemma well_spaced_suffix a : forall p b tr,
  well_spaced is_terminal tr p (a ++ b) = true ->
  well_spaced is_terminal tr (final_kind p a) b = true.
Proof.
  induction a as [|c r IH]; intros p b tr H; [exact H|].
  cbn [app well_spaced final_kind] in *. destruct (is_space c).
  - apply andb_true_iff in H as [_ Hr]. now apply IH.
  - apply andb_true_iff in H as [_ Hr]. destruct (is_terminal c); now apply IH.
Qed.

Lemma well_spaced_trailing T x : forall p,
  well_spaced T false p x = true -> well_spaced T true p x = true.
Proof.
  induction x as [|c r IH]; intros p H; [now destruct p|].
  cbn [well_spaced] in *. destruct (is_space c);
    apply andb_true_iff in H as [Hg Hr]; rewrite Hg; simpl; now apply IH.
Qed.

(** A well-spaced text without its leading space can follow a space. *)
Lemma well_spaced_after_space T tr b p :
  well_spaced T tr p b = true ->
  lstrip b <> [] ->
  well_spaced T tr KSpace (lstrip b) = true.
Proof.
  destruct b as [|c r]; [intros _ H; now destruct H|].
  cbn [well_spaced lstrip]. destruct (is_space c) eqn:Hc.
  - intros H Hne. apply andb_true_iff in H as [_ Hr].
    destruct r as [|d r']; [now destruct Hne|].
    cbn [lstrip well_spaced] in *. destruct (is_space d) eqn:Hd.
    + rewrite andb_false_r in Hr. discriminate.
    + cbn [well_spaced]. rewrite Hd. exact Hr.
  - intros H _. cbn [well_spaced]. rewrite Hc.
    apply andb_true_iff in H as [_ Hr]. exact Hr.
Qed.

Lemma final_kind_app a : forall p b,
  final_kind p (a ++ b) = final_kind (final_kind p a) b.
Proof. induction a as [|c r IH]; intros p b; [reflexivity|]. simpl. apply IH. Qed.

(** The kind of the last character of a well-spaced text. *)
Lemma final_kind_well_spaced x p :
  well_spaced is_terminal false p x = true -> x <> [] ->
  final_kind p x = if ends_with_terminal x then KTerm else KPlain.
Proof.
  intros Hx Hne.
  destruct (exists_last Hne) as (a & c & ->).
  assert (Hc : is_space c = false).
  { pose proof (well_spaced_rstrip _ _ _ Hx) as H. eapply rstrip_last. exact H. }
  rewrite final_kind_app. unfold ends_with_terminal. rewrite rev_app_distr.
  simpl. now rewrite Hc.
Qed.

(** The kept part of a chunk can follow a separator. *)
Lemma trimmed_well_spaced ov previous chunk :
  let kept := chunk_text_trimmed ov previous (clean_transcript_text chunk) in
  kept <> [] -> well_spaced is_terminal false KSpace kept = true.
Proof.
  cbv zeta. unfold chunk_text_trimmed.
  pose proof (clean_well_spaced chunk) as Hc.
  destruct (detect_overlap_boundary previous (clean_transcript_text chunk) ov) as [k|].
  - unfold Py.slice_from.
    set (n := Z.to_nat (Py.norm (Z.of_nat (length (clean_transcript_text chunk))) k)).
    rewrite <- (take_drop n (clean_transcript_text chunk)) in Hc.
    apply well_spaced_suffix in Hc.
    set (b := drop n (clean_transcript_text chunk)) in *.
    intros Hne. unfold strip in *.
    assert (Hl : lstrip b <> []) by (intros E; rewrite E in Hne; now apply Hne).
    pose proof (well_spaced_after_space _ _ _ _ Hc Hl) as Hk.
    now rewrite (well_spaced_rstrip _ _ _ Hk).
  - intros Hne. rewrite <- (well_spaced_lstrip _ _ _ Hc).
    eapply well_spaced_after_space; [exact Hc|].
    now rewrite (well_spaced_lstrip _ _ _ Hc).
Qed.

(** The loop over the later chunks only appends, and keeps the stitched
    text well spaced. *)
Lemma stitch_rest_structure ov rest : forall previous stitched,
  well_spaced is_terminal false KStart stitched = true ->
  exists parts,
    stitch_rest ov previous rest stitched = stitched ++ concat parts /\
    Forall2 stitched_part parts rest /\
    (stitched = [] -> concat parts = []) /\
    well_spaced is_terminal false KStart (stitched ++ concat parts) = true.
Proof.
  induction rest as [|chunk rest IH]; intros previous stitched Hs.
  - exists []. simpl. rewrite app_nil_r. repeat split; [constructor|exact Hs].
  - cbn [stitch_rest].
    set (kept := chunk_text_trimmed ov (clean_transcript_text previous)
                   (clean_transcript_text chunk)).
    destruct (nonempty stitched && nonempty kept) eqn:Hboth.
    + apply andb_true_iff in Hboth as [Hst Hk].
      assert (Hsne : stitched <> []) by (intros ->; discriminate).
      assert (Hkne : kept <> []) by (intros E; rewrite E in Hk; discriminate).
      pose proof (trimmed_well_spaced ov (clean_transcript_text previous) chunk Hkne) as Hkw.
      fold kept in Hkw.
      pose proof (final_kind_well_spaced stitched KStart Hs Hsne) as Hfin.
      set (sep := if ends_with_terminal stitched then [" "%char] else ["."%char; " "%char]).
      assert (Hnew : (if ends_with_terminal stitched
                      then stitched ++ [" "%char]
                      else stitched ++ ["."%char; " "%char]) ++ kept
                     = stitched ++ sep ++ kept).
      { unfold sep. destruct (ends_with_terminal stitched); now rewrite <- app_assoc. }
      rewrite Hnew.
      assert (Hw : well_spaced is_terminal false KStart (stitched ++ sep ++ kept) = true).
      { apply well_spaced_app; [now apply well_spaced_trailing|].
        rewrite Hfin. unfold sep.
        destruct (ends_with_terminal stitched); cbn [app well_spaced];
          vm_compute (is_space _); vm_compute (is_terminal _); vm_compute (Ascii.eqb _ _);
          simpl; exact Hkw. }
      destruct (IH chunk _ Hw) as (parts & Hrun & Hparts & _ & Hfinal).
      exists ((sep ++ kept) :: parts). cbn [concat].
      rewrite Hrun. rewrite <- !app_assoc in *.
      split; [reflexivity|]. split; [|split; [contradiction|exact Hfinal]].
      constructor; [|exact Hparts].
      right. exists sep, kept. split; [reflexivity|]. split.
      * unfold sep. destruct (ends_with_terminal stitched); [now left|now right].
      * split; [exact Hkne|].
        apply trimmed_occurs.
    + destruct (IH chunk _ Hs) as (parts & Hrun & Hparts & Hnil & Hfinal).
      exists ([] :: parts). cbn [concat app].
      split; [exact Hrun|]. split; [|split; [exact Hnil|exact Hfinal]].
      constructor; [now left|exact Hparts].
Qed.

(** X14.  [stitch_transcript_chunks] raises on an empty list.  On a
    non-empty list the text it writes is the cleaned text of the first chunk
    followed, for every later chunk in order, by nothing or by a separator
    (a space, or a full stop and a space) and a non-empty contiguous part of
    the cleaned text of that chunk; the final cleaning changes nothing.
    When the cleaned text of the first chunk is empty, nothing is ever
    appended: the output is empty whatever the later chunks hold. *)
Theorem stitched_text_structure (overlap_duration : Z) :
  stitch_transcript_chunks overlap_duration [] = Raised NoTranscriptChunks /\
  forall chunk rest,
    exists parts,
      stitch_transcript_chunks overlap_duration (chunk :: rest) =
        Done (clean_transcript_text chunk ++ concat parts) /\
      Forall2 stitched_part parts rest /\
      (clean_transcript_text chunk = [] ->
       stitch_transcript_chunks overlap_duration (chunk :: rest) = Done []).
Proof.
  split; [reflexivity|]. intros chunk rest.
  destruct rest as [|c1 rest].
  - exists []. simpl. rewrite app_nil_r. split; [reflexivity|]. split; [constructor|].
    now intros ->.
  - destruct (stitch_rest_structure overlap_duration (c1 :: rest) chunk
                (clean_transcript_text chunk) (clean_well_spaced chunk))
      as (parts & Hrun & Hparts & Hnil & Hw).
    assert (Hout : stitch_transcript_chunks overlap_duration (chunk :: c1 :: rest) =
                   Done (clean_transcript_text chunk ++ concat parts)).
    { change (stitch_transcript_chunks overlap_duration (chunk :: c1 :: rest))
        with (Done (clean_transcript_text
                      (stitch_rest overlap_duration chunk (c1 :: rest)
                         (clean_transcript_text chunk)))).
      rewrite Hrun. now rewrite (clean_well_spaced_id _ Hw). }
    exists parts. split; [exact Hout|]. split; [exact Hparts|].
    intros E. rewrite Hout, (Hnil E), E. reflexivity.
Qed.

Lemma stitched_text_structure_witness :
  let blank := list_ascii_of_string "   " in
  let chunk := list_ascii_of_string "Three four. Five six." in
  clean_transcript_text blank = [] /\
  stitch_transcript_chunks 30 [blank; chunk] = Done [].
Proof.
  intros blank chunk.
  assert (E : clean_transcript_text blank = []) by (vm_compute; reflexivity).
  split; [exact E|].
  destruct (proj2 (stitched_text_structure 30) blank [chunk]) as (parts & _ & _ & H).
  exact (H E).
Defined.

Lemma clean_transcript_text_normal_witness :
  let t := list_ascii_of_string "  Hello   world.How are  you ?  " in
  clean_transcript_text t = list_ascii_of_string "Hello world. How are you ?" /\
  clean_transcript_text (clean_transcript_text t) = clean_transcript_text t.
Proof.
  intros t. split; [vm_compute; reflexivity|].
  exact (proj2 (proj2 (proj2 (clean_transcript_text_normal t)))).
Defined.

Lemma sentences_shape_witness :
  let t := list_ascii_of_string "One two. Three four!  Five six" in
  sentences t = [list_ascii_of_string "One two"; list_ascii_of_string "Three four";
                 list_ascii_of_string "Five six"] /\
  forall s, In s (sentences t) -> occurs s t.
Proof.
  intros t. split; [vm_compute; reflexivity|].
  intros s Hs.
  exact (proj1 (proj2 (proj1 (List.Forall_forall _ _) (sentences_shape t) s Hs))).
Defined.

Lemma first_found_inv window full : forall l k,
  first_found window full l = Some k ->
  exists s, In s l /\ occurs s window /\ k = find full s + Z.of_nat (length s).
Proof.
  induction l as [|p l IH]; intros k H; [discriminate|]. simpl in H.
  destruct (contains window p) eqn:E.
  - inversion H; subst k. exists p. split; [now left|]. split; [|reflexivity].
    now apply contains_spec.
  - destruct (IH k H) as (s & Hs & Hocc & Hk). exists s. split; [now right|auto].
Qed.

(** X15.  For a non-negative overlap duration the boundary that
    [detect_overlap_boundary] returns is a position of the second text,
    between 0 and its length, so that what is kept of the chunk is the
    stripped rest of the text from that position on (never a part counted
    from the end). *)
Theorem overlap_boundary_range (chunk1_text chunk2_text : text)
    (overlap_duration k : Z) :
  0 <= overlap_duration ->
  detect_overlap_boundary chunk1_text chunk2_text overlap_duration = Some k ->
  0 <= k <= Z.of_nat (length chunk2_text) /\
  chunk_text_trimmed overlap_duration chunk1_text chunk2_text =
    strip (drop (Z.to_nat k) chunk2_text).
Proof.
  intros Hov Hdet.
  assert (Hk : 0 <= k <= Z.of_nat (length chunk2_text)).
  { unfold detect_overlap_boundary in Hdet.
    destruct (length (sentences chunk1_text) <? 2)%nat; [discriminate|].
    destruct (first_found _ chunk2_text (search_sentences (sentences chunk1_text)))
      as [k'|] eqn:Hff.
    - inversion Hdet; subst k'. clear Hdet.
      apply first_found_inv in Hff as (s & _ & Hocc & ->).
      apply occurs_slice_to in Hocc.
      destruct (find_first chunk2_text s Hocc) as (before & after & Heq & -> & _).
      rewrite Heq, !length_app. lia.
    - inversion Hdet; subst k. clear Hdet. unfold estimated_position, Py.int_times_7_5.
      pose proof (Z.quot_pos (15 * overlap_duration) 2 ltac:(lia) ltac:(lia)).
      pose proof (Z.div_pos (Z.of_nat (length chunk2_text)) 4 ltac:(lia) ltac:(lia)).
      pose proof (Z.div_le_upper_bound (Z.of_nat (length chunk2_text)) 4
                    (Z.of_nat (length chunk2_text)) ltac:(lia) ltac:(lia)).
      lia. }
  split; [exact Hk|].
  unfold chunk_text_trimmed. rewrite Hdet.
  now rewrite slice_from_in_range by exact Hk.
Qed.

Lemma overlap_boundary_range_witness :
  let chunk1 := list_ascii_of_string "One two. Three four. Five six" in
  let chunk2 := list_ascii_of_string "Three four. Five six. Seven eight." in
  0 <= 30 /\
  detect_overlap_boundary chunk1 chunk2 30 = Some 10 /\
  0 <= 10 <= Z.of_nat (length chunk2).
Proof.
  intros chunk1 chunk2.
  assert (H : detect_overlap_boundary chunk1 chunk2 30 = Some 10)
    by (vm_compute; reflexivity).
  split; [lia|]. split; [exact H|].
  exact (proj1 (overlap_boundary_range chunk1 chunk2 30 10 ltac:(lia) H)).
Defined.

End TextExtras.

(** ** The diarized transcript: texts, times and the mapping *)

Module DiarizationExtras.
Import Diarization DiarizationFacts.

Lemma string_app_assoc (a b c : string) :
  ((a ++ b) ++ c)%string = (a ++ (b ++ c))%string.
Proof.
  induction a as [|x a IH]; [reflexivity|].
  change (String x ((a ++ b) ++ c) = String x (a ++ (b ++ c)))%string.
  now rewrite IH.
Qed.

Lemma join_space_snoc l x :
  l <> [] ->
  join_space (l ++ [x]) = (join_space l ++ " " ++ x)%string.
Proof.
  induction l as [|y l IH]; intros Hne; [contradiction|].
  destruct l as [|z l]; [reflexivity|].
  change (join_space ((y :: z :: l) ++ [x]))
    with (y ++ " " ++ join_space ((z :: l) ++ [x]))%string.
  rewrite IH by discriminate.
  change (join_space (y :: z :: l)) with (y ++ " " ++ join_space (z :: l))%string.
  now rewrite !string_app_assoc.
Qed.

(** What the loop keeps true of the segment it is building. *)
Lemma runs_texts ws : forall cur,
  (ts_words cur <> [] /\
   ts_text cur = join_space (List.map word_text (ts_words cur)) /\
   (exists w rest, ts_words cur = w :: rest /\ ts_start_time cur = word_start w) /\
   (exists pre w, ts_words cur = pre ++ [w] /\ ts_end_time cur = word_end w)) ->
  Forall (fun seg =>
            ts_text seg = join_space (List.map word_text (ts_words seg)) /\
            (exists w rest, ts_words seg = w :: rest /\ ts_start_time seg = word_start w) /\
            (exists pre w, ts_words seg = pre ++ [w] /\ ts_end_time seg = word_end w))
         (runs cur ws).
Proof.
  induction ws as [|w ws IH]; intros cur (Hne & Htext & Hfirst & Hlast); simpl.
  - repeat constructor; assumption.
  - destruct (String.eqb (ts_speaker cur) (word_speaker w)).
    + apply IH. simpl. split; [|split; [|split]].
      * intros E. now apply app_eq_nil in E as [_ E].
      * rewrite List.map_app. simpl. rewrite join_space_snoc.
        -- now rewrite Htext.
        -- intros E. apply map_eq_nil in E. contradiction.
      * destruct Hfirst as (v & rest & E & Hs). exists v, (rest ++ [w]).
        rewrite E. split; [reflexivity|exact Hs].
      * exists (ts_words cur), w. split; reflexivity.
    + constructor; [repeat split; assumption|].
      apply IH. simpl. split; [discriminate|]. split; [reflexivity|]. split.
      * now exists w, [].
      * now exists [], w.
Qed.

(** X16.  Every segment that [create_diarized_transcript_from_words]
    returns has as its text the texts of its words joined by single
    spaces, starts at the start of its first word and ends at the end of its
    last word. *)
Theorem segment_text_and_times (words : list word) :
  Forall (fun seg =>
            ts_text seg = join_space (List.map word_text (ts_words seg)) /\
            (exists w rest, ts_words seg = w :: rest /\ ts_start_time seg = word_start w) /\
            (exists pre w, ts_words seg = pre ++ [w] /\ ts_end_time seg = word_end w))
         (create_diarized_transcript_from_words words).
Proof.
  destruct words as [|w ws]; [constructor|].
  rewrite create_runs. apply runs_texts. simpl.
  split; [discriminate|]. split; [reflexivity|]. split.
  - now exists w, [].
  - now exists [], w.
Qed.

Lemma segment_text_and_times_witness :
  let w1 := mk_word (Some "Hello"%string) None (Some 0%Q) (Some 1%Q) (Some "A"%string) in
  let w2 := mk_word None (Some "there"%string) (Some 1%Q) (Some 2%Q) (Some "A"%string) in
  let w3 := mk_word (Some "Hi"%string) None (Some 2%Q) (Some 3%Q) (Some "B"%string) in
  List.map ts_text (create_diarized_transcript_from_words [w1; w2; w3]) =
    ["Hello there"%string; "Hi"%string] /\
  forall seg, In seg (create_diarized_transcript_from_words [w1; w2; w3]) ->
    ts_text seg = join_space (List.map word_text (ts_words seg)).
Proof.
  intros w1 w2 w3. split; [vm_compute; reflexivity|].
  intros seg Hseg.
  exact (proj1 (proj1 (List.Forall_forall _ _)
                  (segment_text_and_times [w1; w2; w3]) seg Hseg)).
Defined.

Lemma sort_by_start_In l v : In v (sort_by_start l) <-> In v l.
Proof.
  induction l as [|w l IH]; simpl; [reflexivity|].
  rewrite insert_by_start_In, IH. intuition.
Qed.

(** The segment that a diarization segment yields. *)
Lemma mapped_segment_In ws s seg :
  In seg (mapped_segment ws s) <->
  List.filter (overlaps s) ws <> [] /\
  seg = mk_transcript_segment (get_speaker s) (get_start_time s) (get_end_time s)
          (join_space (List.map word_text (sort_by_start (List.filter (overlaps s) ws))))
          (sort_by_start (List.filter (overlaps s) ws)).
Proof.
  unfold mapped_segment. destruct (List.filter (overlaps s) ws) as [|x xs].
  - split; [intros []|intros [H _]; now destruct H].
  - split.
    + intros [<-|[]]. split; [discriminate|reflexivity].
    + intros [_ ->]. now left.
Qed.

Lemma insert_by_start_perm w l : Permutation (insert_by_start w l) (w :: l).
Proof.
  induction l as [|y l IH]; simpl; [reflexivity|].
  destruct (Py.Qleb (word_start w) (word_start y)); [reflexivity|].
  rewrite IH. apply perm_swap.
Qed.

(** Sorting keeps every word, as often as it is given. *)
Lemma sort_by_start_perm l : Permutation (sort_by_start l) l.
Proof.
  induction l as [|w l IH]; simpl; [reflexivity|].
  rewrite insert_by_start_perm. now constructor.
Qed.

Lemma filter_perm (f : word -> bool) (l l' : list word) :
  Permutation l l' -> Permutation (List.filter f l) (List.filter f l').
Proof.
  induction 1 as [|x l l' _ IH|x y l|l l' l'' _ IH1 _ IH2]; simpl.
  - reflexivity.
  - destruct (f x); [now constructor|exact IH].
  - destruct (f x), (f y); try reflexivity. apply perm_swap.
  - now rewrite IH1.
Qed.

Lemma mapped_segment_none ws s :
  List.filter (overlaps s) ws = [] -> mapped_segment ws s = [].
Proof. unfold mapped_segment. now intros ->. Qed.

Lemma mapped_segment_some ws s :
  List.filter (overlaps s) ws <> [] ->
  mapped_segment ws s =
    [mk_transcript_segment (get_speaker s) (get_start_time s) (get_end_time s)
       (join_space (List.map word_text (sort_by_start (List.filter (overlaps s) ws))))
       (sort_by_start (List.filter (overlaps s) ws))].
Proof.
  unfold mapped_segment. destruct (List.filter (overlaps s) ws); [contradiction|reflexivity].
Qed.

(** The loop over the diarization segments yields one output segment for
    every diarization segment that a word overlaps, in their order. *)
Lemma mapped_segments_shape (words : list word) : forall dsegs,
  Forall2
    (fun s seg =>
       ts_speaker seg = get_speaker s /\
       ts_start_time seg = get_start_time s /\
       ts_end_time seg = get_end_time s /\
       ts_words seg <> [] /\
       Permutation (ts_words seg) (List.filter (overlaps s) words) /\
       (forall w, In w (ts_words seg) <-> In w words /\ overlaps s w = true) /\
       chronological (ts_words seg) /\
       ts_text seg = join_space (List.map word_text (ts_words seg)))
    (List.filter (fun s => existsb (overlaps s) words) dsegs)
    (concat (List.map (mapped_segment (sort_by_start words)) dsegs)).
Proof.
  assert (Hmem : forall s w, In w (List.filter (overlaps s) (sort_by_start words))
                             <-> In w words /\ overlaps s w = true).
  { intros s w. now rewrite filter_In, sort_by_start_In. }
  induction dsegs as [|s dsegs IH]; [constructor|].
  cbn [List.filter List.map concat].
  destruct (existsb (overlaps s) words) eqn:Ex.
  - apply existsb_exists in Ex as (w & Hw & Hov).
    assert (Hne : List.filter (overlaps s) (sort_by_start words) <> []).
    { intros E. assert (Hin : In w (List.filter (overlaps s) (sort_by_start words)))
        by (apply Hmem; now split).
      rewrite E in Hin. destruct Hin. }
    rewrite (mapped_segment_some _ _ Hne). cbn [app].
    constructor; [|exact IH]. cbn [ts_speaker ts_start_time ts_end_time ts_words ts_text].
    split; [reflexivity|]. split; [reflexivity|]. split; [reflexivity|].
    split; [|split; [|split; [|split]]].
    + intros H. apply Hne. apply (f_equal (@length word)) in H.
      rewrite sort_by_start_length in H. now apply length_zero_iff_nil in H.
    + rewrite sort_by_start_perm. apply filter_perm, sort_by_start_perm.
    + intros v. now rewrite sort_by_start_In.
    + apply sort_by_start_sorted.
    + reflexivity.
  - assert (Hnil : List.filter (overlaps s) (sort_by_start words) = []).
    { destruct (List.filter (overlaps s) (sort_by_start words)) as [|x xs] eqn:E;
        [reflexivity|].
      assert (Hx : In x words /\ overlaps s x = true)
        by (apply Hmem; rewrite E; now left).
      assert (existsb (overlaps s) words = true)
        by (apply existsb_exists; now exists x).
      congruence. }
    rewrite (mapped_segment_none _ _ Hnil). exact IH.
Qed.

(** X17.  [map_words_to_diarization_segments] returns nothing when there
    are no words or no diarization segments.  In every case its output has
    one segment for each diarization segment that some given word overlaps,
    in the order of the diarization segments.  That output segment carries
    the speaker and the times of its diarization segment, and lists exactly
    the given words that overlap this diarization segment, each as often as
    it is given, in the order of the start times; its text is the texts of
    its words joined by single spaces.  So a word that overlaps no
    diarization segment is left out of the transcript, and a word that
    overlaps several is listed under each of them. *)
Theorem diarization_mapping_shape (words : list word) (diarization_segments : list segment) :
  let out := map_words_to_diarization_segments words diarization_segments in
  (words = [] \/ diarization_segments = [] -> out = []) /\
  Forall2
    (fun s seg =>
       ts_speaker seg = get_speaker s /\
       ts_start_time seg = get_start_time s /\
       ts_end_time seg = get_end_time s /\
       ts_words seg <> [] /\
       Permutation (ts_words seg) (List.filter (overlaps s) words) /\
       (forall w, In w (ts_words seg) <-> In w words /\ overlaps s w = true) /\
       chronological (ts_words seg) /\
       ts_text seg = join_space (List.map word_text (ts_words seg)))
    (List.filter (fun s => existsb (overlaps s) words) diarization_segments)
    out.
Proof.
  cbv zeta. split.
  - intros [->| ->]; [reflexivity|]. now destruct words.
  - destruct words as [|w0 ws] eqn:Ew.
    { simpl. induction diarization_segments as [|s l IH]; simpl; [constructor|exact IH]. }
    destruct diarization_segments as [|s0 segs] eqn:Ed; [constructor|].
    rewrite <- Ew, <- Ed.
    replace (map_words_to_diarization_segments words diarization_segments)
      with (concat (List.map (mapped_segment (sort_by_start words)) diarization_segments))
      by (rewrite Ew, Ed; reflexivity).
    apply (mapped_segments_shape words diarization_segments).
Qed.

(** A word in a gap of the diarization is left out; a word across the
    border of two segments is listed under both. *)
Lemma diarization_mapping_shape_witness :
  let a := mk_segment (Some "A"%string) (Some 0%Q) (Some 2%Q) in
  let b := mk_segment (Some "B"%string) (Some 2%Q) (Some 4%Q) in
  let c := mk_segment (Some "C"%string) (Some 7%Q) (Some 9%Q) in
  let w1 := mk_word (Some "one"%string) None (Some 1%Q) (Some 3%Q) None in
  let w2 := mk_word (Some "two"%string) None (Some 5%Q) (Some 6%Q) None in
  List.map ts_words (map_words_to_diarization_segments [w1; w2] [a; b; c]) = [[w1]; [w1]] /\
  Forall2 (fun s seg => ts_speaker seg = get_speaker s /\
                        forall w, In w (ts_words seg) <-> In w [w1; w2] /\ overlaps s w = true)
          [a; b] (map_words_to_diarization_segments [w1; w2] [a; b; c]).
Proof.
  intros a b c w1 w2. split; [vm_compute; reflexivity|].
  assert (Hf : List.filter (fun s => existsb (overlaps s) [w1; w2]) [a; b; c] = [a; b])
    by (vm_compute; reflexivity).
  pose proof (proj2 (diarization_mapping_shape [w1; w2] [a; b; c])) as H.
  rewrite Hf in H.
  eapply Forall2_impl; [exact H|].
  intros s seg (Hsp & _ & _ & _ & _ & Hiff & _). split; [exact Hsp|exact Hiff].
Defined.

End DiarizationExtras.

(** ** The time-based planner *)

Module TimePlannerFacts.
Import TimePlanner DiarizationFacts.

Section TimePlans.
Variables (chunk_duration overlap_duration : Z).
Variable (duration : Q).

Local Abbreviation cd := (inject_Z chunk_duration).
Local Abbreviation ov := (inject_Z overlap_duration).
Local Abbreviation end_of := (chunk_end_time chunk_duration duration).
Local Abbreviation next := (next_start_time chunk_duration overlap_duration duration).
Local Abbreviation loop := (time_loop chunk_duration overlap_duration duration).
Local Abbreviation plan_of := (planned chunk_duration overlap_duration duration).

Lemma chunk_end_time_spec s :
  ((s + cd < duration /\ end_of s == s + cd) \/
   (duration <= s + cd /\ end_of s == duration))%Q.
Proof.
  unfold chunk_end_time.
  destruct (Q.min_spec (s + cd) duration) as [[H E]|[H E]]; [left|right]; split;
    assumption.
Qed.

Lemma next_start_time_spec s :
  ((end_of s - ov <= s /\ next s = end_of s) \/
   (s < end_of s - ov /\ next s = (end_of s - ov)%Q))%Q.
Proof.
  unfold next_start_time.
  destruct (Py.Qleb (end_of s - ov) s) eqn:E.
  - left. split; [now apply Qleb_le|reflexivity].
  - right. split; [|reflexivity].
    apply Qnot_le_lt. intros H. apply Qleb_le in H. congruence.
Qed.

(** A finished loop has appended the planned chunks, and the planned
    chunks are what the loop appends when it has the fuel for them. *)
Lemma loop_planned fuel : forall s id acc plan,
  loop fuel s id acc = Done plan ->
  exists new, plan = acc ++ new /\ plan_of s id new.
Proof.
  induction fuel as [|fuel IH]; intros s id acc plan H; [discriminate|].
  simpl in H. destruct (Py.Qltb s duration) eqn:E.
  - apply IH in H as (new & -> & Hnew). eexists. rewrite <- app_assoc. split; [reflexivity|].
    simpl. apply planned_next; [now apply Qltb_lt|exact Hnew].
  - inversion H; subst. exists []. rewrite app_nil_r. split; [reflexivity|].
    apply planned_end. now apply Qltb_ge.
Qed.

Lemma planned_loop s id new :
  plan_of s id new ->
  forall fuel acc, (length new < fuel)%nat -> loop fuel s id acc = Done (acc ++ new).
Proof.
  induction 1 as [s id Hs|s id rest Hs Hrest IH]; intros fuel acc Hf;
    (destruct fuel as [|fuel]; [simpl in Hf; lia|]); simpl.
  - apply Qltb_ge in Hs. rewrite Hs. now rewrite app_nil_r.
  - apply Qltb_lt in Hs. rewrite Hs. rewrite IH by (simpl in Hf; lia).
    now rewrite <- app_assoc.
Qed.

(** With a positive chunk duration the loop comes to an end: every pass
    moves forward by [step], or reaches the end of the audio, after which
    at most one more chunk follows. *)
Lemma planned_exists (step : Q) :
  (0 < step)%Q -> (step <= cd)%Q -> (cd <= ov \/ step <= cd - ov)%Q ->
  forall n s id, (duration - s <= inject_Z (Z.of_nat n) * step)%Q ->
  exists new, plan_of s id new /\ (length new <= n + 2)%nat.
Proof.
  intros Hstep Hcd Hov. induction n as [|n IH]; intros s id Hn.
  - exists []. split; [|simpl; lia]. apply planned_end.
    change (inject_Z (Z.of_nat 0)) with 0%Q in Hn. lra.
  - destruct (Qlt_le_dec s duration) as [Hs|Hs];
      [|exists []; split; [now apply planned_end|simpl; lia]].
    assert (Hsucc : (inject_Z (Z.of_nat (S n)) == inject_Z (Z.of_nat n) + 1)%Q).
    { rewrite Nat2Z.inj_succ. unfold Z.succ. now rewrite inject_Z_plus. }
    rewrite Hsucc in Hn.
    assert (Hnn : (0 <= inject_Z (Z.of_nat n))%Q).
    { rewrite <- (Zle_Qle 0). lia. }
    destruct (chunk_end_time_spec s) as [[Hin He]|[Hout He]].
    + (* the chunk ends inside the audio *)
      destruct (IH (next s) (id + 1)) as (rest & Hrest & Hlen).
      { destruct (next_start_time_spec s) as [[Hle ->]|[Hlt ->]];
          destruct Hov; nra. }
      eexists. split; [apply planned_next; [exact Hs|exact Hrest]|]. simpl. lia.
    + (* the chunk ends with the audio *)
      destruct (next_start_time_spec s) as [[Hle En]|[Hlt En]].
      * eexists. split.
        -- apply planned_next; [exact Hs|]. apply planned_end. rewrite En, He. lra.
        -- simpl. lia.
      * assert (Hs2 : (next s < duration \/ duration <= next s)%Q).
        { destruct (Qlt_le_dec (next s) duration); [now left|now right]. }
        destruct Hs2 as [Hs2|Hs2].
        -- eexists. split.
           ++ apply planned_next; [exact Hs|].
              apply planned_next; [exact Hs2|]. apply planned_end.
              assert (He2 : (end_of (next s) == duration)%Q).
              { destruct (chunk_end_time_spec (next s)) as [[Hin2 _]|[_ E2]]; [|exact E2].
                rewrite En in Hin2. rewrite En in Hs2. destruct Hov; lra. }
              destruct (next_start_time_spec (next s)) as [[_ ->]|[Hlt2 _]].
              ** rewrite He2. lra.
              ** rewrite He2, En, He in Hlt2. lra.
           ++ simpl. lia.
        -- eexists. split.
           ++ apply planned_next; [exact Hs|]. now apply planned_end.
           ++ simpl. lia.
Qed.

Lemma planned_unique s id a :
  plan_of s id a -> forall b, plan_of s id b -> a = b.
Proof.
  induction 1 as [s id Hs|s id rest Hs Hrest IH]; intros b Hb; inversion Hb; subst.
  - reflexivity.
  - lra.
  - lra.
  - f_equal. now apply IH.
Qed.

(** The chunks of a plan, one by one. *)
Lemma planned_chunks s id new :
  (0 < cd)%Q ->
  plan_of s id new ->
  Forall (fun c => (s <= tc_start_time c /\ tc_start_time c < tc_end_time c /\
                    tc_end_time c <= duration /\
                    tc_end_time c - tc_start_time c <= cd /\
                    tc_duration c = tc_end_time c - tc_start_time c)%Q) new.
Proof.
  intros Hcd. induction 1 as [s id Hs|s id rest Hs Hrest IH]; constructor.
  - simpl. destruct (chunk_end_time_spec s) as [[Hin He]|[Hout He]];
      (split; [lra|split; [lra|split; [lra|split; [lra|reflexivity]]]]).
  - eapply Forall_impl; [exact IH|]. intros c (H1 & H2).
    split; [|exact H2].
    destruct (chunk_end_time_spec s) as [[Hin He]|[Hout He]];
      destruct (next_start_time_spec s) as [[Hle En]|[Hlt En]]; rewrite En in H1; lra.
Qed.

(** Two neighbouring chunks of a plan. *)
Lemma planned_adjacent s id new :
  (0 < cd)%Q ->
  plan_of s id new ->
  forall i c c', new !! i = Some c -> new !! S i = Some c' ->
    (tc_start_time c < tc_start_time c')%Q /\
    (tc_start_time c' = tc_end_time c \/
     tc_start_time c' = tc_end_time c - ov)%Q /\
    chunk_id c' = chunk_id c + 1.
Proof.
  intros Hcd. induction 1 as [s id Hs|s id rest Hs Hrest IH]; intros i c c' Hi Hi'.
  - discriminate.
  - destruct i as [|i]; simpl in Hi, Hi'.
    + inversion Hi; subst c. clear Hi. simpl.
      inversion Hrest as [|? ? rest' Hs' Hrest']; subst; [discriminate|].
      simpl in Hi'. inversion Hi'; subst c'. clear Hi'. simpl.
      split; [|split; [|reflexivity]].
      * destruct (chunk_end_time_spec s) as [[Hin He]|[Hout He]];
          destruct (next_start_time_spec s) as [[Hle En]|[Hlt En]]; rewrite En; lra.
      * destruct (next_start_time_spec s) as [[Hle En]|[Hlt En]]; rewrite En; auto.
    + eapply IH; eassumption.
Qed.

Lemma planned_head s id c rest :
  plan_of s id (c :: rest) -> tc_start_time c = s /\ chunk_id c = id.
Proof. intros H. inversion H; subst. split; reflexivity. Qed.

(** With a non-negative overlap the last chunk ends with the audio. *)
Lemma planned_last s id new :
  (0 <= ov)%Q ->
  plan_of s id new ->
  forall c, last new = Some c -> (tc_end_time c == duration)%Q.
Proof.
  intros Hov. induction 1 as [s id Hs|s id rest Hs Hrest IH]; intros c Hc.
  - discriminate.
  - destruct rest as [|c' rest'].
    + simpl in Hc. inversion Hc; subst c. clear Hc. simpl.
      inversion Hrest as [? ? Hend|]; subst.
      destruct (chunk_end_time_spec s) as [[Hin He]|[Hout He]]; [|exact He].
      destruct (next_start_time_spec s) as [[Hle En]|[Hlt En]]; rewrite En in Hend; lra.
    + apply IH. exact Hc.
Qed.

(** With an overlap below the chunk duration, a plan for an audio longer
    than the overlap ends with a chunk that reaches the end of the audio
    and a chunk that holds the last [overlap_duration] seconds again. *)
Lemma planned_tail s id new :
  (0 < ov)%Q -> (ov < cd)%Q ->
  plan_of s id new ->
  (s < duration - ov)%Q ->
  exists pre c c',
    new = pre ++ [c; c'] /\
    (tc_end_time c == duration /\
     tc_start_time c < tc_start_time c' /\
     tc_start_time c' == duration - ov /\
     tc_end_time c' == duration)%Q.
Proof.
  intros Hov Hcd. induction 1 as [s id Hs|s id rest Hs Hrest IH]; intros Hlong; [lra|].
  destruct (chunk_end_time_spec s) as [[Hin He]|[Hout He]].
  - destruct (next_start_time_spec s) as [[Hle En]|[Hlt En]]; [lra|].
    destruct IH as (pre & c & c' & -> & Hshape); [rewrite En; lra|].
    eexists (_ :: pre), c, c'. split; [reflexivity|exact Hshape].
  - destruct (next_start_time_spec s) as [[Hle En]|[Hlt En]]; [lra|].
    inversion Hrest as [? ? Hend|? ? rest' Hs' Hrest']; subst; [rewrite En in Hend; lra|].
    assert (He2 : (end_of (next s) == duration)%Q).
    { destruct (chunk_end_time_spec (next s)) as [[Hin2 _]|[_ E2]]; [|exact E2].
      rewrite En in Hin2. lra. }
    assert (En2 : next (next s) = end_of (next s)).
    { destruct (next_start_time_spec (next s)) as [[_ E]|[Hlt2 _]]; [exact E|].
      rewrite He2 in Hlt2. rewrite En in Hlt2 at 1. lra. }
    rewrite En2 in Hrest'.
    inversion Hrest' as [|? ? ? Hbad]; subst; [|lra].
    eexists [], _, _. split; [reflexivity|]. simpl.
    split; [exact He|]. split; [rewrite En; lra|]. split; [rewrite En; lra|exact He2].
Qed.

(** With a chunk duration that is not positive and not above the overlap
    the start never moves forward. *)
Lemma loop_stuck fuel : forall s id acc,
  (cd <= 0)%Q -> (cd <= ov)%Q -> (s <= 0)%Q -> (0 < duration)%Q ->
  loop fuel s id acc = OutOfFuel.
Proof.
  induction fuel as [|fuel IH]; intros s id acc Hcd Hov Hs Hd; [reflexivity|].
  simpl. assert (E : Py.Qltb s duration = true) by (apply Qltb_lt; lra).
  rewrite E. apply IH; try assumption.
  destruct (chunk_end_time_spec s) as [[Hin He]|[Hout He]];
    destruct (next_start_time_spec s) as [[Hle En]|[Hlt En]]; rewrite En; lra.
Qed.

End TimePlans.

Lemma inject_Z_of_nat_ceiling (x : Q) :
  (x <= inject_Z (Z.of_nat (Z.to_nat (Qceiling x))))%Q.
Proof.
  eapply Qle_trans; [apply Qle_ceiling|].
  rewrite <- Zle_Qle. lia.
Qed.

(** X18.  With a positive chunk duration and a non-negative overlap the
    time-based planner of [AudioChunker] returns a plan for every positive
    duration, after at most [ceil(duration / step) + 2] chunks, where
    [step] is [chunk_duration - overlap_duration] when the overlap is below
    the chunk duration and [chunk_duration] otherwise.  The first chunk
    starts at 0 with the number 0; every chunk starts before it ends, ends
    within the audio, lasts at most [chunk_duration] and stores
    [end_time - start_time] as its duration; each chunk starts after the
    start of the one before, at or before its end (so that no instant is
    left out), where that one ends or [overlap_duration] earlier, and has
    the next number; and the last chunk ends with the audio. *)
Theorem time_plan_shape (chunk_duration overlap_duration : Z) (duration : Q) :
  0 < chunk_duration -> 0 <= overlap_duration -> (0 < duration)%Q ->
  let step := if overlap_duration <? chunk_duration
              then chunk_duration - overlap_duration else chunk_duration in
  exists plan,
    (forall fuel, (length plan < fuel)%nat ->
       plan_chunks chunk_duration overlap_duration duration fuel = Done plan) /\
    (length plan <= Z.to_nat (Qceiling (duration / inject_Z step)) + 2)%nat /\
    (exists c rest, plan = c :: rest /\ tc_start_time c = 0%Q /\ chunk_id c = 0) /\
    Forall (fun c => (tc_start_time c < tc_end_time c /\
                      tc_end_time c <= duration /\
                      tc_end_time c - tc_start_time c <= inject_Z chunk_duration /\
                      tc_duration c = tc_end_time c - tc_start_time c)%Q) plan /\
    (forall i c c', plan !! i = Some c -> plan !! S i = Some c' ->
       (tc_start_time c < tc_start_time c' /\ tc_start_time c' <= tc_end_time c)%Q /\
       (tc_start_time c' = tc_end_time c \/
        tc_start_time c' = tc_end_time c - inject_Z overlap_duration)%Q /\
       chunk_id c' = chunk_id c + 1) /\
    (forall c, last plan = Some c -> (tc_end_time c == duration)%Q).
Proof.
  intros Hcd Hov Hd step.
  assert (Hcd' : (0 < inject_Z chunk_duration)%Q) by (rewrite <- (Zlt_Qlt 0); lia).
  assert (Hov' : (0 <= inject_Z overlap_duration)%Q) by (rewrite <- (Zle_Qle 0); lia).
  assert (Hstep : (0 < inject_Z step)%Q).
  { rewrite <- (Zlt_Qlt 0). unfold step.
    destruct (Z.ltb_spec overlap_duration chunk_duration); lia. }
  assert (Hstep_cd : (inject_Z step <= inject_Z chunk_duration)%Q).
  { rewrite <- Zle_Qle. unfold step.
    destruct (Z.ltb_spec overlap_duration chunk_duration); lia. }
  assert (Hstep_ov : (inject_Z chunk_duration <= inject_Z overlap_duration \/
                      inject_Z step <= inject_Z chunk_duration - inject_Z overlap_duration)%Q).
  { unfold step. destruct (Z.ltb_spec overlap_duration chunk_duration).
    - right. unfold Z.sub. rewrite inject_Z_plus, inject_Z_opp. lra.
    - left. now rewrite <- Zle_Qle. }
  set (n := Z.to_nat (Qceiling (duration / inject_Z step))).
  destruct (planned_exists chunk_duration overlap_duration duration (inject_Z step)
              Hstep Hstep_cd Hstep_ov n 0%Q 0) as (plan & Hplan & Hlen).
  { pose proof (inject_Z_of_nat_ceiling (duration / inject_Z step)) as Hc. fold n in Hc.
    apply (Qmult_le_r _ _ (inject_Z step) Hstep) in Hc.
    assert (E : (duration / inject_Z step * inject_Z step == duration)%Q).
    { field. intros E0. rewrite E0 in Hstep. lra. }
    rewrite E in Hc. lra. }
  exists plan. split; [|split; [exact Hlen|split; [|split; [|split]]]].
  - intros fuel Hf. unfold plan_chunks.
    now rewrite (planned_loop _ _ _ _ _ _ Hplan fuel []).
  - destruct plan as [|c rest]; [inversion Hplan; lra|].
    exists c, rest. split; [reflexivity|]. eapply planned_head. exact Hplan.
  - eapply Forall_impl; [exact (planned_chunks _ _ _ _ _ _ Hcd' Hplan)|].
    intros c (_ & H). exact H.
  - intros i c c' Hi Hi'.
    destruct (planned_adjacent _ _ _ _ _ _ Hcd' Hplan i c c' Hi Hi') as (Hlt & Hor & Hid).
    split; [|split; [exact Hor|exact Hid]]. split; [exact Hlt|].
    destruct Hor as [-> | ->]; lra.
  - eapply planned_last; [exact Hov'|exact Hplan].
Qed.

(** One hundred seconds in chunks of 90 s with an overlap of 2 s. *)
Lemma time_plan_shape_witness :
  0 < 90 /\ 0 <= 2 /\ (0 < 100)%Q /\
  exists plan,
    plan_chunks 90 2 100 5 = Done plan /\ (length plan <= 4)%nat.
Proof.
  split; [lia|]. split; [lia|]. split; [reflexivity|].
  destruct (time_plan_shape 90 2 100 ltac:(lia) ltac:(lia) ltac:(reflexivity))
    as (plan & Hrun & Hlen & _).
  change (length plan <= 4)%nat in Hlen.
  exists plan. split; [|exact Hlen].
  apply Hrun. lia.
Defined.

(** X19.  With an overlap that is positive and below the chunk duration,
    every plan that the time-based planner returns for an audio longer than
    the overlap ends with two chunks of which the first already reaches the
    end of the audio and the second is the last [overlap_duration] seconds
    once more: [duration - overlap_duration, duration]. *)
Theorem time_plan_repeats_tail (chunk_duration overlap_duration : Z) (duration : Q)
    (fuel : nat) (plan : list time_chunk) :
  0 < overlap_duration < chunk_duration ->
  (inject_Z overlap_duration < duration)%Q ->
  plan_chunks chunk_duration overlap_duration duration fuel = Done plan ->
  exists pre c c',
    plan = pre ++ [c; c'] /\
    (tc_end_time c == duration /\
     tc_start_time c < tc_start_time c' /\
     tc_start_time c' == duration - inject_Z overlap_duration /\
     tc_end_time c' == duration)%Q.
Proof.
  intros [Hov Hcd] Hd Hrun. unfold plan_chunks in Hrun.
  apply loop_planned in Hrun as (new & -> & Hnew). cbn [app].
  apply (planned_tail chunk_duration overlap_duration duration 0%Q 0 new).
  - rewrite <- (Zlt_Qlt 0). lia.
  - rewrite <- Zlt_Qlt. lia.
  - exact Hnew.
  - lra.
Qed.

Lemma time_plan_repeats_tail_witness :
  plan_chunks 90 2 100 4 =
    Done [mk_time_chunk 0 0 (Qmin (0 + 90) 100) (Qmin (0 + 90) 100 - 0);
          mk_time_chunk 1 (Qmin (0 + 90) 100 - 2) 100 (100 - (Qmin (0 + 90) 100 - 2));
          mk_time_chunk 2 (100 - 2) 100 (100 - (100 - 2))] /\
  exists pre c c',
    [mk_time_chunk 0 0 (Qmin (0 + 90) 100) (Qmin (0 + 90) 100 - 0);
     mk_time_chunk 1 (Qmin (0 + 90) 100 - 2) 100 (100 - (Qmin (0 + 90) 100 - 2));
     mk_time_chunk 2 (100 - 2) 100 (100 - (100 - 2))] = pre ++ [c; c'] /\
    (tc_start_time c' == 100 - 2)%Q.
Proof.
  assert (Hrun : plan_chunks 90 2 100 4 =
    Done [mk_time_chunk 0 0 (Qmin (0 + 90) 100) (Qmin (0 + 90) 100 - 0);
          mk_time_chunk 1 (Qmin (0 + 90) 100 - 2) 100 (100 - (Qmin (0 + 90) 100 - 2));
          mk_time_chunk 2 (100 - 2) 100 (100 - (100 - 2))])
    by (vm_compute; reflexivity).
  split; [exact Hrun|].
  destruct (time_plan_repeats_tail 90 2 100 4 _ ltac:(lia) ltac:(reflexivity) Hrun)
    as (pre & c & c' & E & _ & _ & Hs & _).
  exists pre, c, c'. split; [exact E|exact Hs].
Defined.

(** X20.  The loop of the time-based planner has no cap: with a chunk
    duration that is zero or negative, and not above the overlap, it never
    ends on an audio of positive duration, whatever the fuel. *)
Theorem time_plan_diverges (chunk_duration overlap_duration : Z) (duration : Q)
    (fuel : nat) :
  chunk_duration <= 0 -> chunk_duration <= overlap_duration -> (0 < duration)%Q ->
  plan_chunks chunk_duration overlap_duration duration fuel = OutOfFuel.
Proof.
  intros Hcd Hov Hd. unfold plan_chunks. apply loop_stuck.
  - rewrite <- (Zle_Qle _ 0). exact Hcd.
  - rewrite <- Zle_Qle. exact Hov.
  - lra.
  - exact Hd.
Qed.

Lemma time_plan_diverges_witness :
  plan_chunks 0 2 100 1000 = OutOfFuel.
Proof.
  apply time_plan_diverges; [lia|lia|reflexivity].
Defined.

End TimePlannerFacts.
